(** * nestedset: a nested-set tree kept in a flat slice of nodes

    Shallow embedding of [ns.go] and [node.go] (package [nestedset]) and the
    properties of its [Add], [Delete], [Move], [Parent], [Branch] and
    [FindById] operations.

    Nodes are Go pointers ([*Node] behind [NodeInterface]) that the container
    and its callers share, so the model has an explicit heap from references
    to node records; every setter is a heap update and every getter a heap
    read, in the order the source performs them.  [int64] arithmetic wraps. *)

From Stdlib Require Import String ZArith List Lia Bool Permutation Sorted.
Import ListNotations.
Local Open Scope Z_scope.

(** ** int64 *)

Module Int64.

Definition min_int : Z := - 2 ^ 63.
Definition max_int : Z := 2 ^ 63 - 1.

(** Two's-complement wrap-around of Go's [int64]. *)
Definition wrap (z : Z) : Z := (z + 2 ^ 63) mod 2 ^ 64 - 2 ^ 63.

Definition add (a b : Z) : Z := wrap (a + b).
Definition sub (a b : Z) : Z := wrap (a - b).

Definition in_range (z : Z) : Prop := min_int <= z <= max_int.

End Int64.

(** ** node.go *)

Record Node : Type := mkNode {
  NodeId : Z;
  NodeName : string;
  NodeLevel : Z;
  NodeLeft : Z;
  NodeRight : Z
}.

(** A non-nil [NodeInterface] value is a pointer to a [Node]. *)
Definition ref : Type := nat.

(** The nodes reachable through pointers, members of a set or not. *)
Definition Heap : Type := ref -> Node.

Definition upd (h : Heap) (r : ref) (n : Node) : Heap :=
  fun r' => if Nat.eqb r' r then n else h r'.

Definition GetId (h : Heap) (n : ref) : Z := NodeId (h n).
Definition GetLevel (h : Heap) (n : ref) : Z := NodeLevel (h n).
Definition GetLeft (h : Heap) (n : ref) : Z := NodeLeft (h n).
Definition GetRight (h : Heap) (n : ref) : Z := NodeRight (h n).

(** The setters on a record value, and through a pointer. *)
Definition set_level (level : Z) (x : Node) : Node :=
  mkNode (NodeId x) (NodeName x) level (NodeLeft x) (NodeRight x).
Definition set_left (left : Z) (x : Node) : Node :=
  mkNode (NodeId x) (NodeName x) (NodeLevel x) left (NodeRight x).
Definition set_right (right : Z) (x : Node) : Node :=
  mkNode (NodeId x) (NodeName x) (NodeLevel x) (NodeLeft x) right.

Definition SetLevel (n : ref) (level : Z) (h : Heap) : Heap :=
  upd h n (set_level level (h n)).
Definition SetLeft (n : ref) (left : Z) (h : Heap) : Heap :=
  upd h n (set_left left (h n)).
Definition SetRight (n : ref) (right : Z) (h : Heap) : Heap :=
  upd h n (set_right right (h n)).

(** ** ns.go *)

(** The [mutex] field is left out: every public operation holds it from its
    first to its last statement, so operations run one at a time. *)
Record NestedSet : Type := mkNestedSet {
  nodes : list ref;
  rootNode : ref;
  maxId : Z
}.

(** What a caller sees: the set and the nodes it points to. *)
Record World : Type := mkWorld {
  heap : Heap;
  nset : NestedSet
}.

(** A call either returns or panics (a method call on a nil interface). *)
Inductive outcome (A : Type) : Type :=
| Returns (a : A)
| Panics.
Arguments Returns {A} a.
Arguments Panics {A}.

(** Go's [error]: [None] is the nil error. *)
Definition error : Type := option string.

Definition NewNestedSet (rootNode : ref) (h : Heap) : World :=
  mkWorld (SetRight rootNode 1 h) (mkNestedSet [rootNode] rootNode 0).

(** [exists]: membership by pointer identity. *)
Definition exists_ (s : NestedSet) (node : ref) : bool :=
  existsb (fun n => Nat.eqb n node) (nodes s).

(** One iteration of the widening loop of [Add]. *)
Definition widen (right : Z) (h : Heap) (n : ref) : Heap :=
  if GetRight h n >=? right then
    let h1 := SetRight n (Int64.add (GetRight h n) 2) h in
    if GetLeft h1 n >? right then SetLeft n (Int64.add (GetLeft h1 n) 2) h1 else h1
  else h.

Definition Add (newNode parent : option ref) (w : World) : outcome error * World :=
  let s := nset w in
  let h := heap w in
  let checked :=
    match parent with
    | Some p => if negb (exists_ s p) then None else Some p
    | None => Some (rootNode s)
    end in
  match checked with
  | None => (Returns (Some "Parent node not found in structure"%string), w)
  | Some parent =>
    let level := Int64.add (GetLevel h parent) 1 in
    let right := GetRight h parent in
    match newNode with
    | None => (Panics, w)
    | Some newNode =>
      let h := SetLevel newNode level h in
      let maxId' := Int64.add (maxId s) 1 in
      let h := SetLeft newNode right h in
      let h := SetRight newNode (Int64.add right 1) h in
      let h := fold_left (widen right) (nodes s) h in
      (Returns None,
       mkWorld h (mkNestedSet (nodes s ++ [newNode]) (rootNode s) maxId'))
    end
  end.

(** The removal width [node.GetRight() - node.GetLeft() + 1], read from the
    heap each time the source evaluates it. *)
Definition width (h : Heap) (node : ref) : Z :=
  Int64.add (Int64.sub (GetRight h node) (GetLeft h node)) 1.

(** The renumbering of one survivor in the loop of [Delete]. *)
Definition close (node : ref) (h : Heap) (n : ref) : Heap :=
  let h1 :=
    if GetRight h n >? GetRight h node
    then SetRight n (Int64.sub (GetRight h n) (width h node)) h
    else h in
  if GetLeft h1 n >? GetLeft h1 node
  then SetLeft n (Int64.sub (GetLeft h1 n) (width h1 node)) h1
  else h1.

(** The loop of [Delete]: survivors are renumbered in place and collected. *)
Fixpoint delete_loop (node : ref) (l : list ref) (h : Heap) (newNodes : list ref)
  : Heap * list ref :=
  match l with
  | [] => (h, newNodes)
  | n :: l' =>
    if (GetLeft h n <? GetLeft h node) || (GetRight h n >? GetRight h node) then
      delete_loop node l' (close node h n) (newNodes ++ [n])
    else delete_loop node l' h newNodes
  end.

Definition Delete (node : option ref) (w : World) : outcome error * World :=
  let s := nset w in
  match node with
  | None => (Returns (Some "Can't delete root node"%string), w)
  | Some node =>
    if Nat.eqb node (rootNode s) then
      (Returns (Some "Can't delete root node"%string), w)
    else if negb (exists_ s node) then
      (Returns (Some "Node not found in structure"%string), w)
    else
      let '(h, newNodes) := delete_loop node (nodes s) (heap w) [] in
      (Returns None, mkWorld h (mkNestedSet newNodes (rootNode s) (maxId s)))
  end.

(** [parent]: the first node enclosing [node] one level up. *)
Definition parent (s : NestedSet) (h : Heap) (node : ref) : option ref :=
  find (fun n =>
          (GetLeft h n <=? GetLeft h node) && (GetRight h n >=? GetRight h node)
          && (GetLevel h n =? Int64.sub (GetLevel h node) 1))
       (nodes s).

(** [sort.Sort(SortedNodes(s.nodes))].  The sort is Go's library code; on a
    slice shorter than 12 it is this insertion sort (an element moves left
    while it is [Less] than its predecessor), and on a longer slice whose
    left values are pairwise distinct every sort returns the same slice.
    The proofs below use only that the result is a permutation of the
    slice. *)
Fixpoint insert (h : Heap) (x : ref) (l : list ref) : list ref :=
  match l with
  | [] => [x]
  | y :: l' => if GetLeft h x <? GetLeft h y then x :: l else y :: insert h x l'
  end.

Definition sort (h : Heap) (l : list ref) : list ref :=
  fold_left (fun acc x => insert h x acc) l [].

(** [branch]: sorts the set's slice in place, then collects the nodes lying
    within [node].  The result is the returned slice (empty for a node that
    is not a member) and the set with its slice sorted. *)
Definition branch (node : option ref) (h : Heap) (s : NestedSet)
  : list ref * NestedSet :=
  let s := mkNestedSet (sort h (nodes s)) (rootNode s) (maxId s) in
  match node with
  | None => (nodes s, s)
  | Some node =>
    if negb (exists_ s node) then ([], s)
    else
      (filter (fun n => (GetLeft h n >=? GetLeft h node)
                        && (GetRight h n <=? GetRight h node)) (nodes s), s)
  end.

(** The shifting loops of [Move], one iteration each. *)
Definition shift_up (left rightNear skewTree : Z) (h : Heap) (n : ref) : Heap :=
  let h1 :=
    if (GetRight h n <? left) && (GetRight h n >? rightNear)
    then SetRight n (Int64.add (GetRight h n) skewTree) h else h in
  if (GetLeft h1 n <? left) && (GetLeft h1 n >? rightNear)
  then SetLeft n (Int64.add (GetLeft h1 n) skewTree) h1 else h1.

(** Line 177 of ns.go reads [n.Right()], the accessor's name in the earlier
    revision of the file; it is the [GetRight] of [NodeInterface]. *)
Definition shift_down (right rightNear skewTree : Z) (h : Heap) (n : ref) : Heap :=
  let h1 :=
    if (GetRight h n >? right) && (GetRight h n <=? rightNear)
    then SetRight n (Int64.sub (GetRight h n) skewTree) h else h in
  if (GetLeft h1 n >? right) && (GetLeft h1 n <=? rightNear)
  then SetLeft n (Int64.sub (GetLeft h1 n) skewTree) h1 else h1.

Definition translate (skewEdit skewLevel : Z) (h : Heap) (n : ref) : Heap :=
  let h := SetLeft n (Int64.add (GetLeft h n) skewEdit) h in
  let h := SetRight n (Int64.add (GetRight h n) skewEdit) h in
  SetLevel n (Int64.add (GetLevel h n) skewLevel) h.

Definition Move (node parent_arg : option ref) (w : World) : outcome error * World :=
  let s := nset w in
  let h := heap w in
  match node with
  | None => (Panics, w)
  | Some node =>
    if GetLevel h node =? 0 then
      (Returns (Some "Can't move root node"%string), w)
    else
      let parent_ := match parent_arg with Some p => p | None => rootNode s end in
      if (GetLeft h parent_ >=? GetLeft h node)
         && (GetRight h parent_ <=? GetRight h node) then
        (Returns (Some "Can't move branch to node within itself"%string), w)
      else
        match parent s h node with
        | None =>
          (Returns (Some "Parent node not found, the structure broken"%string), w)
        | Some currentParent =>
          if Nat.eqb currentParent parent_ then
            (Returns (Some "Moving in same branch not implemented"%string), w)
          else
            let level := GetLevel h node in
            let left := GetLeft h node in
            let right := GetRight h node in
            let levelUp := GetLevel h parent_ in
            let rightNear := Int64.sub (GetRight h parent_) 1 in
            let skewLevel := Int64.add (Int64.sub levelUp level) 1 in
            let skewTree := Int64.add (Int64.sub right left) 1 in
            let skewEdit := Int64.add (Int64.sub rightNear left) 1 in
            let isUp := rightNear <? right in
            let '(toUpdate, s) := branch (Some node) h s in
            let '(h, skewEdit) :=
              if isUp then
                (fold_left (shift_up left rightNear skewTree) (nodes s) h, skewEdit)
              else
                (fold_left (shift_down right rightNear skewTree) (nodes s) h,
                 Int64.sub (Int64.add (Int64.sub rightNear left) 1) skewTree) in
            let h := fold_left (translate skewEdit skewLevel) toUpdate h in
            (Returns None, mkWorld h s)
        end
  end.

(** [Parent]: the public lookup; a nil [node] is dereferenced by the first
    iteration of the scan. *)
Definition Parent (node : option ref) (w : World) : outcome (option ref) :=
  match node with
  | Some node => Returns (parent (nset w) (heap w) node)
  | None => match nodes (nset w) with [] => Returns None | _ :: _ => Panics end
  end.

(** [FindById]: the first member with the given id, nil when there is none. *)
Definition FindById (id : Z) (w : World) : option ref :=
  find (fun n => GetId (heap w) n =? id) (nodes (nset w)).

(** [Branch]: the public form of [branch].  It returns the slice [branch]
    built and leaves the set with its own slice sorted; no node is written. *)
Definition Branch (node : option ref) (w : World) : list ref * World :=
  let '(res, s) := branch node (heap w) (nset w) in
  (res, mkWorld (heap w) s).


(** ** The loop bodies on a single record

    Each loop of [Add], [Delete] and [Move] reads and writes only the node
    it is visiting; these are the bodies as functions of that node alone. *)

Definition widen_node (right : Z) (x : Node) : Node :=
  if NodeRight x >=? right then
    let x1 := set_right (Int64.add (NodeRight x) 2) x in
    if NodeLeft x1 >? right then set_left (Int64.add (NodeLeft x1) 2) x1 else x1
  else x.

Definition keep (nl nr : Z) (x : Node) : bool :=
  (NodeLeft x <? nl) || (NodeRight x >? nr).

Definition close_node (nl nr : Z) (x : Node) : Node :=
  let x1 :=
    if NodeRight x >? nr
    then set_right (Int64.sub (NodeRight x) (Int64.add (Int64.sub nr nl) 1)) x
    else x in
  if NodeLeft x1 >? nl
  then set_left (Int64.sub (NodeLeft x1) (Int64.add (Int64.sub nr nl) 1)) x1
  else x1.

Definition shift_up_node (left rightNear skewTree : Z) (x : Node) : Node :=
  let x1 :=
    if (NodeRight x <? left) && (NodeRight x >? rightNear)
    then set_right (Int64.add (NodeRight x) skewTree) x else x in
  if (NodeLeft x1 <? left) && (NodeLeft x1 >? rightNear)
  then set_left (Int64.add (NodeLeft x1) skewTree) x1 else x1.

Definition shift_down_node (right rightNear skewTree : Z) (x : Node) : Node :=
  let x1 :=
    if (NodeRight x >? right) && (NodeRight x <=? rightNear)
    then set_right (Int64.sub (NodeRight x) skewTree) x else x in
  if (NodeLeft x1 >? right) && (NodeLeft x1 <=? rightNear)
  then set_left (Int64.sub (NodeLeft x1) skewTree) x1 else x1.

Definition translate_node (skewEdit skewLevel : Z) (x : Node) : Node :=
  let x := set_left (Int64.add (NodeLeft x) skewEdit) x in
  let x := set_right (Int64.add (NodeRight x) skewEdit) x in
  set_level (Int64.add (NodeLevel x) skewLevel) x.

(** The local variables of [Move], as functions of the heap before the
    call, the node moved and the parent moved under. *)
Definition move_rightNear (h : Heap) (p : ref) : Z := Int64.sub (GetRight h p) 1.

Definition move_skewLevel (h : Heap) (n p : ref) : Z :=
  Int64.add (Int64.sub (GetLevel h p) (GetLevel h n)) 1.

Definition move_skewTree (h : Heap) (n : ref) : Z :=
  Int64.add (Int64.sub (GetRight h n) (GetLeft h n)) 1.

Definition move_isUp (h : Heap) (n p : ref) : bool :=
  move_rightNear h p <? GetRight h n.

Definition move_skewEdit (h : Heap) (n p : ref) : Z :=
  if move_isUp h n p
  then Int64.add (Int64.sub (move_rightNear h p) (GetLeft h n)) 1
  else Int64.sub (Int64.add (Int64.sub (move_rightNear h p) (GetLeft h n)) 1)
                 (move_skewTree h n).

Definition move_shift (h : Heap) (n p : ref) (x : Node) : Node :=
  if move_isUp h n p
  then shift_up_node (GetLeft h n) (move_rightNear h p) (move_skewTree h n) x
  else shift_down_node (GetRight h n) (move_rightNear h p) (move_skewTree h n) x.


(** ** Tree consistency *)

(** [a]'s interval strictly contains [b]'s. *)
Definition contains (h : Heap) (a b : ref) : Prop :=
  GetLeft h a < GetLeft h b /\ GetRight h b < GetRight h a.

Definition containsb (h : Heap) (a b : ref) : bool :=
  (GetLeft h a <? GetLeft h b) && (GetRight h b <? GetRight h a).

Definition disjoint (h : Heap) (a b : ref) : Prop :=
  GetRight h a < GetLeft h b \/ GetRight h b < GetLeft h a.

(** [a]'s interval lies within [b]'s (the test of [branch] and [Delete]). *)
Definition withinb (h : Heap) (a b : ref) : bool :=
  (GetLeft h a >=? GetLeft h b) && (GetRight h a <=? GetRight h b).

(** The members whose interval strictly contains that of [r]. *)
Definition enclosing (h : Heap) (l : list ref) (r : ref) : list ref :=
  filter (fun c => containsb h c r) l.

(** No two nodes share an endpoint value. *)
Definition endpoints_differ (h : Heap) (a b : ref) : Prop :=
  GetLeft h a <> GetLeft h b /\ GetLeft h a <> GetRight h b /\
  GetRight h a <> GetLeft h b /\ GetRight h a <> GetRight h b.

(** The invariants of section 3 of the specification, for a set whose
    coordinates lie below [B]: the slice holds each pointer once, the root
    is a member at level 0 and encloses every other member, intervals are
    proper and laminar, and a level counts the enclosing members. *)
Record tree_inv (B : Z) (w : World) : Prop := mk_tree_inv {
  ti_nodup : NoDup (nodes (nset w));
  ti_root_in : In (rootNode (nset w)) (nodes (nset w));
  ti_root_level : GetLevel (heap w) (rootNode (nset w)) = 0;
  ti_root_top : forall r, In r (nodes (nset w)) -> r <> rootNode (nset w) ->
                          contains (heap w) (rootNode (nset w)) r;
  ti_lt : forall r, In r (nodes (nset w)) -> GetLeft (heap w) r < GetRight (heap w) r;
  ti_laminar : forall a b, In a (nodes (nset w)) -> In b (nodes (nset w)) -> a <> b ->
                 disjoint (heap w) a b \/ contains (heap w) a b \/ contains (heap w) b a;
  ti_level : forall r, In r (nodes (nset w)) ->
               GetLevel (heap w) r = Z.of_nat (length (enclosing (heap w) (nodes (nset w)) r));
  ti_bound : forall r, In r (nodes (nset w)) ->
               0 <= GetLeft (heap w) r /\ GetRight (heap w) r < B;
  ti_size : Z.of_nat (length (nodes (nset w))) <= B
}.

(** A consistent collection: the invariants, with coordinates far from the
    limits of [int64] (the gap-free numbering of the specification bounds
    them by twice the number of nodes). *)
Definition consistent (w : World) : Prop := tree_inv (2 ^ 61) w.

(** ** Renumbering maps

    What the loops do to an endpoint value, away from the limits of
    [int64].  [nl], [nr] are the bounds of the node deleted or moved and
    [pr] the [right] of the parent inserted under. *)

(** [Add]: the two units of the new node open at the insertion point. *)
Definition add_map (ins x : Z) : Z := if ins <=? x then x + 2 else x.

(** [Delete]: the numbering closes over the removed interval. *)
Definition delete_map (nl nr x : Z) : Z := if nr <? x then x - (nr - nl + 1) else x.

(** [Move], for a node outside the moved subtree: the nodes between the
    insertion point and the subtree make room or close the gap. *)
Definition move_outer (nl nr pr x : Z) : Z :=
  if pr <=? nr
  then (if (pr <=? x) && (x <? nl) then x + (nr - nl + 1) else x)
  else (if (nr <? x) && (x <? pr) then x - (nr - nl + 1) else x).

(** [Move], for a node of the moved subtree: a translation that puts the
    subtree just before the parent's [right]. *)
Definition move_inner (nl nr pr x : Z) : Z :=
  if pr <=? nr then x + (pr - nl) else x + (pr - nr - 1).

(** [f] is strictly increasing on the values that satisfy [D]. *)
Definition increasing_on (D : Z -> Prop) (f : Z -> Z) : Prop :=
  forall x y, D x -> D y -> x < y -> f x < f y.

(** The endpoints of [r] satisfy [D] and are renumbered by [f] from [h] to
    [h']. *)
Definition relabeled (h h' : Heap) (D : Z -> Prop) (f : Z -> Z) (r : ref) : Prop :=
  D (GetLeft h r) /\ D (GetRight h r) /\
  GetLeft h' r = f (GetLeft h r) /\ GetRight h' r = f (GetRight h r).

(** Values outside the interval from [nl] to [nr]. *)
Definition outside (nl nr x : Z) : Prop := x < nl \/ nr < x.

(** Values between 0 and [2^62]: sums and differences of a few of them do
    not wrap. *)
Definition small (z : Z) : Prop := 0 <= z <= 2 ^ 62.

(** ** Further properties of a collection *)

(** The members whose interval lies within that of [r], [r] among them:
    what [branch] collects. *)
Definition subtree (h : Heap) (l : list ref) (r : ref) : list ref :=
  filter (fun c => withinb h c r) l.

(** The numbering has no gaps: the root starts at 0 and every member's
    interval holds exactly two values for each member within it. *)
Definition gap_free (w : World) : Prop :=
  GetLeft (heap w) (rootNode (nset w)) = 0 /\
  forall r, In r (nodes (nset w)) ->
    GetRight (heap w) r - GetLeft (heap w) r + 1 =
    2 * Z.of_nat (length (subtree (heap w) (nodes (nset w)) r)).

(** The endpoint values of the nodes of a slice, [left] before [right]. *)
Definition ends (h : Heap) (r : ref) : list Z := [GetLeft h r; GetRight h r].

Definition endpoints (h : Heap) (l : list ref) : list Z := flat_map (ends h) l.

(** The [k] integers from [a] on. *)
Definition zrange (a : Z) (k : nat) : list Z :=
  map (fun i => a + Z.of_nat i) (seq 0 k).

(** The numbering is dense: the invariants hold with every endpoint below
    twice the number of members. *)
Definition dense (w : World) : Prop :=
  tree_inv (2 * Z.of_nat (length (nodes (nset w)))) w.

(** Two records of the same node: the id and the name agree. *)
Definition same_identity (x y : Node) : Prop :=
  NodeId x = NodeId y /\ NodeName x = NodeName y.

(** The slice is in ascending order of [left]. *)
Definition sorted_by_left (h : Heap) (l : list ref) : Prop :=
  StronglySorted (fun a b => GetLeft h a <= GetLeft h b) l.

(** No two members carry the same id. *)
Definition unique_ids (w : World) : Prop :=
  NoDup (map (GetId (heap w)) (nodes (nset w))).


(** [p] is the parent of [x]: it strictly contains [x], one level up. *)
Definition direct_parent (h : Heap) (p x : ref) : Prop :=
  contains h p x /\ GetLevel h p = GetLevel h x - 1.


(** ** Sequences of operations *)

Inductive op : Type :=
| OpAdd (newNode parent : option ref)
| OpDelete (node : option ref)
| OpMove (node parent : option ref).

Definition apply_op (o : op) (w : World) : outcome error * World :=
  match o with
  | OpAdd newNode p => Add newNode p w
  | OpDelete node => Delete node w
  | OpMove node p => Move node p w
  end.

Definition is_add (o : op) : bool :=
  match o with
  | OpAdd _ _ => true
  | _ => false
  end.

Definition member (w : World) (n : option ref) : bool :=
  match n with
  | Some r => exists_ (nset w) r
  | None => false
  end.

(** The calls the invariant is stated for: [Add] of a node that is not yet a
    member, [Delete] and [Move] of members ([Move] to a member or to nil). *)
Definition admissible (o : op) (w : World) : bool :=
  match o with
  | OpAdd newNode _ => negb (member w newNode)
  | OpDelete node => member w node
  | OpMove node p =>
    member w node && match p with Some _ => member w p | None => true end
  end.

(** Runs the operations in order; [None] as soon as one is not admissible,
    returns an error or panics. *)
Fixpoint run (ops : list op) (w : World) : option World :=
  match ops with
  | [] => Some w
  | o :: ops' =>
    if admissible o w then
      match apply_op o w with
      | (Returns None, w') => run ops' w'
      | _ => None
      end
    else None
  end.

(** ** Concrete heaps for the scenarios *)

(** Every node zero-valued, as a caller's fresh [&Node{}]. *)
Definition fresh_heap : Heap := fun r => mkNode (Z.of_nat r) EmptyString 0 0 0.

(** The coordinates of the members, in slice order. *)
Definition coords (w : World) : list (ref * Z * Z * Z) :=
  map (fun r => (r, GetLeft (heap w) r, GetRight (heap w) r, GetLevel (heap w) r))
      (nodes (nset w)).

(** The boolean form of [tree_inv], to check a concrete collection. *)
Fixpoint nodupb (l : list ref) : bool :=
  match l with
  | [] => true
  | a :: l' => negb (existsb (fun n => Nat.eqb n a) l') && nodupb l'
  end.

Definition disjointb (h : Heap) (a b : ref) : bool :=
  (GetRight h a <? GetLeft h b) || (GetRight h b <? GetLeft h a).

Definition tree_invb (B : Z) (w : World) : bool :=
  let h := heap w in
  let l := nodes (nset w) in
  let root := rootNode (nset w) in
  nodupb l
  && existsb (fun n => Nat.eqb n root) l
  && (GetLevel h root =? 0)
  && forallb (fun r => Nat.eqb r root || containsb h root r) l
  && forallb (fun r => GetLeft h r <? GetRight h r) l
  && forallb (fun a => forallb (fun b =>
        Nat.eqb a b || disjointb h a b || containsb h a b || containsb h b a) l) l
  && forallb (fun r => GetLevel h r =? Z.of_nat (length (enclosing h l r))) l
  && forallb (fun r => (0 <=? GetLeft h r) && (GetRight h r <? B)) l
  && (Z.of_nat (length l) <=? B).

(** The scenario of section 8 of the specification: root R, then
    [Add(A, nil)], [Add(B, nil)], [Add(C, A)]. *)
Definition nR : ref := 0%nat.
Definition nA : ref := 1%nat.
Definition nB : ref := 2%nat.
Definition nC : ref := 3%nat.
Definition nD : ref := 4%nat.

Definition scenario0 : World := NewNestedSet nR fresh_heap.
Definition scenario1 : World := snd (Add (Some nA) None scenario0).
Definition scenario2 : World := snd (Add (Some nB) None scenario1).
Definition scenario3 : World := snd (Add (Some nC) (Some nA) scenario2).

(** A set that once held C: [Add(A, nil)], [Add(C, A)], [Delete(C)],
    [Add(D, A)], [Add(B, nil)].  The caller still holds C, with the
    coordinates it had when it was deleted. *)
Definition stale_world : World :=
  snd (Add (Some nB) None
    (snd (Add (Some nD) (Some nA)
      (snd (Delete (Some nC)
        (snd (Add (Some nC) (Some nA) scenario1))))))).

(** A with two children C and D, and its sibling B: [Add(A, nil)],
    [Add(C, A)], [Add(D, A)], [Add(B, nil)]. *)
Definition two_children : World :=
  snd (Add (Some nB) None
    (snd (Add (Some nD) (Some nA)
      (snd (Add (Some nC) (Some nA) scenario1))))).

(** The parent [Add] inserts under. *)
Definition effective_parent (w : World) (parent_arg : option ref) : ref :=
  match parent_arg with
  | Some q => q
  | None => rootNode (nset w)
  end.

Definition parent_ok (w : World) (parent_arg : option ref) : Prop :=
  match parent_arg with
  | Some q => In q (nodes (nset w))
  | None => True
  end.

(** The scenario's three inserts, then C moved under B and A deleted. *)
Definition demo_ops : list op :=
  [OpAdd (Some nA) None; OpAdd (Some nB) None; OpAdd (Some nC) (Some nA);
   OpMove (Some nC) (Some nB); OpDelete (Some nA)].


(** * Proofs *)

(** ** int64 arithmetic without overflow *)

Lemma wrap_small (z : Z) : - 2 ^ 63 <= z < 2 ^ 63 -> Int64.wrap z = z.
Proof.
  intros H. unfold Int64.wrap. rewrite Z.mod_small; lia.
Qed.

Lemma add_small (a b : Z) : - 2 ^ 63 <= a + b < 2 ^ 63 -> Int64.add a b = a + b.
Proof. apply wrap_small. Qed.

Lemma sub_small (a b : Z) : - 2 ^ 63 <= a - b < 2 ^ 63 -> Int64.sub a b = a - b.
Proof. apply wrap_small. Qed.

(** ** Heap reads after writes *)

Lemma upd_eq (h : Heap) (r : ref) (x : Node) : upd h r x r = x.
Proof. unfold upd. now rewrite Nat.eqb_refl. Qed.

Lemma upd_neq (h : Heap) (r r' : ref) (x : Node) : r' <> r -> upd h r x r' = h r'.
Proof. intros H. unfold upd. apply Nat.eqb_neq in H. now rewrite H. Qed.

Lemma existsb_eqb_true (r : ref) (l : list ref) :
  existsb (fun n => Nat.eqb n r) l = true <-> In r l.
Proof.
  rewrite existsb_exists. split.
  - intros [x [Hx E]]. apply Nat.eqb_eq in E. now subst.
  - intros H. exists r. split; [assumption | apply Nat.eqb_refl].
Qed.

Lemma existsb_eqb_false (r : ref) (l : list ref) :
  existsb (fun n => Nat.eqb n r) l = false <-> ~ In r l.
Proof.
  rewrite <- existsb_eqb_true.
  destruct (existsb (fun n => Nat.eqb n r) l); split; congruence.
Qed.

Lemma In_check (r : ref) (l : list ref) :
  existsb (fun n => Nat.eqb n r) l = true -> In r l.
Proof. apply existsb_eqb_true. Qed.

Lemma notIn_check (r : ref) (l : list ref) :
  existsb (fun n => Nat.eqb n r) l = false -> ~ In r l.
Proof. apply existsb_eqb_false. Qed.

Lemma neq_check (a b : ref) : Nat.eqb a b = false -> a <> b.
Proof. apply Nat.eqb_neq. Qed.

(** ** The loops, pointwise *)

(** A loop body [step] that rewrites the visited node by [f] and nothing
    else, run over a slice without repeated pointers. *)
Lemma fold_pointwise (step : Heap -> ref -> Heap) (f : Node -> Node) :
  (forall h n r, step h n r = if Nat.eqb r n then f (h n) else h r) ->
  forall l h r, NoDup l ->
    (In r l -> fold_left step l h r = f (h r)) /\
    (~ In r l -> fold_left step l h r = h r).
Proof.
  intros Hstep l. induction l as [|a l IH]; intros h r Hnd; simpl.
  - split; [contradiction | reflexivity].
  - inversion Hnd as [|? ? Ha Hl]; subst.
    destruct (IH (step h a) r Hl) as [IHin IHout].
    pose proof (Hstep h a r) as Hr. split.
    + intros [E | Hin].
      * subst a. rewrite (IHout Ha), Hr, Nat.eqb_refl. reflexivity.
      * assert (r <> a) by (intros ->; contradiction).
        rewrite (IHin Hin), Hr. apply Nat.eqb_neq in H. now rewrite H.
    + intros Hn. assert (r <> a) by (intros ->; apply Hn; now left).
      rewrite IHout by (intros Hin; apply Hn; now right).
      rewrite Hr. apply Nat.eqb_neq in H. now rewrite H.
Qed.

(** Splits the tests of a loop body, reading the heap as it goes. *)
Ltac split_tests :=
  repeat (rewrite ?Nat.eqb_refl; cbv beta iota;
          match goal with
          | E : Nat.eqb ?r ?n = false |- context [Nat.eqb ?r ?n] => rewrite E
          | |- context [if ?b then _ else _] =>
            lazymatch b with
            | Nat.eqb _ _ => fail
            | context [Nat.eqb _ _] => fail
            | _ => destruct b
            end
          end);
  rewrite ?Nat.eqb_refl; cbv beta iota; try reflexivity.

Ltac loop_body :=
  intros;
  unfold SetRight, SetLeft, SetLevel, GetRight, GetLeft, GetLevel, upd; cbv zeta;
  match goal with
  | |- _ = if Nat.eqb ?r ?n then _ else _ =>
    destruct (Nat.eqb r n) eqn:E;
    [apply Nat.eqb_eq in E; subst r | ]; split_tests
  end.

Lemma widen_at (right : Z) (h : Heap) (n r : ref) :
  widen right h n r = if Nat.eqb r n then widen_node right (h n) else h r.
Proof. unfold widen, widen_node. loop_body. Qed.

Lemma shift_up_at (left rightNear skewTree : Z) (h : Heap) (n r : ref) :
  shift_up left rightNear skewTree h n r =
  if Nat.eqb r n then shift_up_node left rightNear skewTree (h n) else h r.
Proof. unfold shift_up, shift_up_node. loop_body. Qed.

Lemma shift_down_at (right rightNear skewTree : Z) (h : Heap) (n r : ref) :
  shift_down right rightNear skewTree h n r =
  if Nat.eqb r n then shift_down_node right rightNear skewTree (h n) else h r.
Proof. unfold shift_down, shift_down_node. loop_body. Qed.

Lemma translate_at (skewEdit skewLevel : Z) (h : Heap) (n r : ref) :
  translate skewEdit skewLevel h n r =
  if Nat.eqb r n then translate_node skewEdit skewLevel (h n) else h r.
Proof. unfold translate, translate_node. loop_body. Qed.

Lemma close_at (node : ref) (h : Heap) (n r : ref) :
  n <> node ->
  close node h n r =
  if Nat.eqb r n then close_node (GetLeft h node) (GetRight h node) (h n) else h r.
Proof.
  intros Hn. assert (En : Nat.eqb node n = false) by (apply Nat.eqb_neq; congruence).
  unfold close, close_node, width. loop_body.
Qed.

Lemma keep_self (h : Heap) (node : ref) :
  keep (GetLeft h node) (GetRight h node) (h node) = false.
Proof.
  unfold keep, GetLeft, GetRight.
  rewrite Z.ltb_irrefl, Z.gtb_ltb, Z.ltb_irrefl. reflexivity.
Qed.

(** The loop of [Delete] over a slice without repeated pointers: the
    survivors in slice order, each renumbered once against the coordinates
    the deleted node had at the start. *)
Lemma delete_loop_spec (node : ref) (l : list ref) :
  forall (h : Heap) (acc : list ref), NoDup l ->
    snd (delete_loop node l h acc) =
      (acc ++ filter (fun n => keep (GetLeft h node) (GetRight h node) (h n)) l)%list /\
    forall r,
      fst (delete_loop node l h acc) r =
      if existsb (fun n => Nat.eqb n r) l && keep (GetLeft h node) (GetRight h node) (h r)
      then close_node (GetLeft h node) (GetRight h node) (h r) else h r.
Proof.
  induction l as [|a l IH]; intros h acc Hnd; simpl.
  - split; [now rewrite app_nil_r | reflexivity].
  - inversion Hnd as [|? ? Ha Hl]; subst.
    change ((GetLeft h a <? GetLeft h node) || (GetRight h a >? GetRight h node))
      with (keep (GetLeft h node) (GetRight h node) (h a)).
    destruct (keep (GetLeft h node) (GetRight h node) (h a)) eqn:Ka.
    + assert (Hne : a <> node).
      { intros ->. rewrite keep_self in Ka. discriminate. }
      pose proof (fun r => close_at node h a r Hne) as Hc.
      assert (Hnode : close node h a node = h node).
      { rewrite Hc.
        destruct (Nat.eqb node a) eqn:E; [apply Nat.eqb_eq in E; congruence | reflexivity]. }
      destruct (IH (close node h a) (acc ++ [a]) Hl) as [IHs IHh].
      unfold GetLeft, GetRight in IHs, IHh. rewrite Hnode in IHs, IHh.
      fold (GetLeft h node) in IHs, IHh. fold (GetRight h node) in IHs, IHh.
      split.
      * rewrite IHs, <- app_assoc. simpl. do 2 f_equal.
        apply filter_ext_in. intros x Hx. rewrite Hc.
        destruct (Nat.eqb x a) eqn:E; [apply Nat.eqb_eq in E; congruence | reflexivity].
      * intros r. rewrite IHh, (Hc r).
        destruct (Nat.eqb r a) eqn:E.
        -- apply Nat.eqb_eq in E. subst r. rewrite Nat.eqb_refl. simpl.
           apply existsb_eqb_false in Ha. rewrite Ha, Ka. reflexivity.
        -- rewrite Nat.eqb_sym in E. rewrite E. reflexivity.
    + destruct (IH h acc Hl) as [IHs IHh]. split; [assumption|].
      intros r. rewrite IHh.
      destruct (Nat.eqb a r) eqn:E; [|reflexivity].
      apply Nat.eqb_eq in E. subst r.
      apply existsb_eqb_false in Ha. rewrite Ha, Ka. reflexivity.
Qed.

(** ** Checking a concrete collection *)

Lemma nodupb_sound (l : list ref) : nodupb l = true -> NoDup l.
Proof.
  induction l as [|a l IH]; simpl; intros H.
  - constructor.
  - apply andb_prop in H. destruct H as [Ha Hl].
    constructor; [|auto].
    apply existsb_eqb_false. now apply negb_true_iff.
Qed.

Lemma containsb_spec (h : Heap) (a b : ref) :
  containsb h a b = true <-> contains h a b.
Proof.
  unfold containsb, contains. rewrite andb_true_iff, !Z.ltb_lt. tauto.
Qed.

Lemma disjointb_spec (h : Heap) (a b : ref) :
  disjointb h a b = true <-> disjoint h a b.
Proof.
  unfold disjointb, disjoint. rewrite orb_true_iff, !Z.ltb_lt. tauto.
Qed.

Lemma tree_invb_sound (B : Z) (w : World) : tree_invb B w = true -> tree_inv B w.
Proof.
  unfold tree_invb. intros H.
  rewrite !andb_true_iff in H.
  destruct H as [[[[[[[[Hnd Hin] Hrl] Htop] Hlt] Hlam] Hlev] Hbd] Hsz].
  rewrite forallb_forall in Htop, Hlt, Hlam, Hlev, Hbd.
  constructor.
  - now apply nodupb_sound.
  - now apply existsb_eqb_true.
  - now apply Z.eqb_eq.
  - intros r Hr Hne. specialize (Htop r Hr). apply orb_prop in Htop.
    destruct Htop as [E | E];
      [apply Nat.eqb_eq in E; contradiction | now apply containsb_spec].
  - intros r Hr. apply Z.ltb_lt. auto.
  - intros a b Ha Hb Hne. specialize (Hlam a Ha). rewrite forallb_forall in Hlam.
    specialize (Hlam b Hb). rewrite !orb_true_iff in Hlam.
    destruct Hlam as [[[E | E] | E] | E].
    + apply Nat.eqb_eq in E. contradiction.
    + left. now apply disjointb_spec.
    + right; left. now apply containsb_spec.
    + right; right. now apply containsb_spec.
  - intros r Hr. apply Z.eqb_eq. auto.
  - intros r Hr. specialize (Hbd r Hr). apply andb_prop in Hbd.
    destruct Hbd as [Hl Hu]. apply Z.leb_le in Hl. apply Z.ltb_lt in Hu. auto.
  - now apply Z.leb_le.
Qed.

(** ** What a successful call leaves behind *)

Lemma Add_result (w : World) (newNode : ref) (parent_arg : option ref) :
  NoDup (nodes (nset w)) ->
  ~ In newNode (nodes (nset w)) ->
  parent_ok w parent_arg ->
  let p := effective_parent w parent_arg in
  let ins := GetRight (heap w) p in
  exists h',
    Add (Some newNode) parent_arg w =
      (Returns None,
       mkWorld h' (mkNestedSet (nodes (nset w) ++ [newNode]) (rootNode (nset w))
                               (Int64.add (maxId (nset w)) 1))) /\
    h' newNode = mkNode (NodeId (heap w newNode)) (NodeName (heap w newNode))
                        (Int64.add (GetLevel (heap w) p) 1) ins (Int64.add ins 1) /\
    (forall r, In r (nodes (nset w)) -> h' r = widen_node ins (heap w r)) /\
    (forall r, ~ In r (nodes (nset w)) -> r <> newNode -> h' r = heap w r).
Proof.
  intros Hnd Hfresh Hp p ins.
  set (h3 := SetRight newNode (Int64.add ins 1)
               (SetLeft newNode ins
                  (SetLevel newNode (Int64.add (GetLevel (heap w) p) 1) (heap w)))).
  exists (fold_left (widen ins) (nodes (nset w)) h3).
  pose proof (fold_pointwise (widen ins) (widen_node ins) (widen_at ins)
                             (nodes (nset w)) h3) as Hfold.
  assert (Hnew : h3 newNode =
                 mkNode (NodeId (heap w newNode)) (NodeName (heap w newNode))
                        (Int64.add (GetLevel (heap w) p) 1) ins (Int64.add ins 1)).
  { unfold h3, SetRight, SetLeft, SetLevel. rewrite !upd_eq. reflexivity. }
  assert (Hold : forall r, r <> newNode -> h3 r = heap w r).
  { intros r Hr. unfold h3, SetRight, SetLeft, SetLevel.
    rewrite !upd_neq by assumption. reflexivity. }
  repeat split.
  - unfold Add. destruct parent_arg as [q|]; simpl in Hp |- *.
    + apply existsb_eqb_true in Hp. unfold exists_. rewrite Hp. reflexivity.
    + reflexivity.
  - rewrite (proj2 (Hfold newNode Hnd) Hfresh). exact Hnew.
  - intros r Hr. rewrite (proj1 (Hfold r Hnd) Hr).
    rewrite Hold; [reflexivity | intros ->; contradiction].
  - intros r Hr Hne. rewrite (proj2 (Hfold r Hnd) Hr). now apply Hold.
Qed.

Lemma keep_withinb (h : Heap) (node r : ref) :
  keep (GetLeft h node) (GetRight h node) (h r) = negb (withinb h r node).
Proof.
  unfold keep, withinb, GetLeft, GetRight.
  rewrite negb_andb, Z.geb_leb, Z.gtb_ltb, <- !Z.ltb_antisym. reflexivity.
Qed.

Lemma Delete_result (w : World) (node : ref) :
  NoDup (nodes (nset w)) ->
  In node (nodes (nset w)) ->
  node <> rootNode (nset w) ->
  let nl := GetLeft (heap w) node in
  let nr := GetRight (heap w) node in
  exists h',
    Delete (Some node) w =
      (Returns None,
       mkWorld h' (mkNestedSet
                     (filter (fun r => negb (withinb (heap w) r node)) (nodes (nset w)))
                     (rootNode (nset w)) (maxId (nset w)))) /\
    (forall r, In r (nodes (nset w)) -> withinb (heap w) r node = false ->
               h' r = close_node nl nr (heap w r)) /\
    (forall r, ~ In r (nodes (nset w)) \/ withinb (heap w) r node = true ->
               h' r = heap w r).
Proof.
  intros Hnd Hin Hroot nl nr.
  destruct (delete_loop_spec node (nodes (nset w)) (heap w) [] Hnd) as [Hs Hh].
  exists (fst (delete_loop node (nodes (nset w)) (heap w) [])).
  repeat split.
  - unfold Delete. apply Nat.eqb_neq in Hroot. rewrite Hroot.
    apply existsb_eqb_true in Hin. unfold exists_. rewrite Hin. simpl.
    destruct (delete_loop node (nodes (nset w)) (heap w) []) as [h' l'].
    simpl in Hs. rewrite Hs. simpl. do 3 f_equal.
    apply filter_ext. intros r. apply keep_withinb.
  - intros r Hr Hw. rewrite Hh. apply existsb_eqb_true in Hr. rewrite Hr.
    rewrite keep_withinb, Hw. reflexivity.
  - intros r [Hr | Hw]; rewrite Hh.
    + apply existsb_eqb_false in Hr. rewrite Hr. reflexivity.
    + rewrite keep_withinb, Hw, andb_false_r. reflexivity.
Qed.

(** ** Add *)



(** ** Delete *)

(** C3.  [Delete(node)] of a member other than the root, in a slice that
    holds each pointer once, succeeds; it drops from the slice exactly the
    members whose interval lies within that of [node] ([node] among them)
    and keeps the others in order; a survivor's [right] is decreased by the
    removal width [node.right - node.left + 1] exactly when it was above
    [node.right], its [left] by the same width exactly when it was above
    [node.left], and its level is untouched.  Deleting A, which has the
    child C, from the scenario leaves R and B, with B at (1, 2) instead of
    (5, 6) and R.right at 3 instead of 7. *)
Theorem Delete_closing :
  (forall (w : World) (node : ref),
      NoDup (nodes (nset w)) ->
      In node (nodes (nset w)) ->
      node <> rootNode (nset w) ->
      let h := heap w in
      let nl := GetLeft h node in
      let nr := GetRight h node in
      let wd := Int64.add (Int64.sub nr nl) 1 in
      let w' := snd (Delete (Some node) w) in
      let h' := heap w' in
      fst (Delete (Some node) w) = Returns None /\
      nodes (nset w') =
        filter (fun r => negb (withinb h r node)) (nodes (nset w)) /\
      ~ In node (nodes (nset w')) /\
      forall r, In r (nodes (nset w')) ->
        GetRight h' r =
          (if GetRight h r >? nr then Int64.sub (GetRight h r) wd else GetRight h r) /\
        GetLeft h' r =
          (if GetLeft h r >? nl then Int64.sub (GetLeft h r) wd else GetLeft h r) /\
        GetLevel h' r = GetLevel h r) /\
  coords scenario3 = [(nR, 0, 7, 0); (nA, 1, 4, 1); (nB, 5, 6, 1); (nC, 2, 3, 2)] /\
  fst (Delete (Some nA) scenario3) = Returns None /\
  coords (snd (Delete (Some nA) scenario3)) = [(nR, 0, 3, 0); (nB, 1, 2, 1)].
Proof.
  split; [|split; [|split]; vm_compute; reflexivity].
  intros w node Hnd Hin Hroot h nl nr wd w' h'.
  destruct (Delete_result w node Hnd Hin Hroot) as [h1 [Hdel [Hkept _]]].
  subst w' h'. rewrite Hdel. simpl.
  split; [reflexivity|]. split; [reflexivity|]. split.
  - rewrite filter_In. intros [_ Hw]. revert Hw.
    unfold withinb. rewrite Z.geb_leb, !Z.leb_refl. discriminate.
  - intros r Hr. apply filter_In in Hr. destruct Hr as [Hr Hw].
    apply negb_true_iff in Hw.
    unfold GetRight, GetLeft, GetLevel. rewrite (Hkept r Hr Hw).
    subst wd nr nl h. unfold close_node, GetRight, GetLeft.
    destruct (NodeRight (heap w r) >? _); simpl;
      (destruct (NodeLeft (heap w r) >? _); repeat split; reflexivity).
Qed.

(** The deletion of A from the scenario, obtained from the general rule. *)
Lemma Delete_closing_witness :
  nodes (nset (snd (Delete (Some nA) scenario3))) = [nR; nB] /\
  GetLeft (heap (snd (Delete (Some nA) scenario3))) nB = 5 - 4 /\
  GetRight (heap (snd (Delete (Some nA) scenario3))) nB = 6 - 4 /\
  GetRight (heap (snd (Delete (Some nA) scenario3))) nR = 7 - 4.
Proof.
  assert (Hnd : NoDup (nodes (nset scenario3)))
    by (apply nodupb_sound; vm_compute; reflexivity).
  assert (HA : In nA (nodes (nset scenario3)))
    by (apply In_check; vm_compute; reflexivity).
  assert (Hroot : nA <> rootNode (nset scenario3))
    by (apply neq_check; vm_compute; reflexivity).
  destruct (proj1 Delete_closing scenario3 nA Hnd HA Hroot)
    as [_ [Hnodes [_ Hkept]]].
  assert (HB : In nB (nodes (nset (snd (Delete (Some nA) scenario3)))))
    by (apply In_check; vm_compute; reflexivity).
  assert (HR : In nR (nodes (nset (snd (Delete (Some nA) scenario3)))))
    by (apply In_check; vm_compute; reflexivity).
  destruct (Hkept nB HB) as [HrB [HlB _]]. destruct (Hkept nR HR) as [HrR _].
  rewrite Hnodes, HlB, HrB, HrR.
  vm_compute. repeat split; reflexivity.
Defined.

(** ** Failures *)

(** C8.  A call of [Add], [Delete] or [Move] that returns an error leaves
    the set (its slice, in its order, its root and its counter) and every
    node as they were: each error is returned before the first write. *)
Theorem failure_is_atomic (w w' : World) (e : string) :
  (forall newNode p, Add newNode p w = (Returns (Some e), w') -> w' = w) /\
  (forall node, Delete node w = (Returns (Some e), w') -> w' = w) /\
  (forall node p, Move node p w = (Returns (Some e), w') -> w' = w).
Proof.
  repeat split.
  - intros newNode p. unfold Add.
    destruct p as [q|]; [destruct (negb (exists_ (nset w) q))|];
      destruct newNode; intros H; inversion H; reflexivity.
  - intros node. unfold Delete.
    destruct node as [n|]; [|intros H; inversion H; reflexivity].
    destruct (Nat.eqb n (rootNode (nset w))); [intros H; inversion H; reflexivity|].
    destruct (negb (exists_ (nset w) n)); [intros H; inversion H; reflexivity|].
    destruct (delete_loop n (nodes (nset w)) (heap w) []). discriminate.
  - intros node p. unfold Move.
    destruct node as [n|]; [|discriminate].
    destruct (GetLevel (heap w) n =? 0); [intros H; inversion H; reflexivity|].
    match goal with
    | |- context [if ?b then (Returns (Some "Can't move branch to node within itself"%string), _) else _] =>
      destruct b; [intros H; inversion H; reflexivity|]
    end.
    destruct (parent (nset w) (heap w) n) as [cp|]; [|intros H; inversion H; reflexivity].
    match goal with
    | |- context [if ?b then (Returns (Some "Moving in same branch not implemented"%string), _) else _] =>
      destruct b; [intros H; inversion H; reflexivity|]
    end.
    destruct (branch (Some n) (heap w) (nset w)) as [toUpdate s].
    match goal with
    | |- context [if ?b then _ else _] => destruct b
    end; discriminate.
Qed.

(** One failing call of each operation on the scenario: [Add] under a node
    that is not a member, [Delete] of the root, [Move] of A into its own
    child C. *)
Lemma failure_is_atomic_witness :
  snd (Add (Some nD) (Some nC) scenario2) = scenario2 /\
  snd (Delete (Some nR) scenario3) = scenario3 /\
  snd (Move (Some nA) (Some nC) scenario3) = scenario3.
Proof.
  split; [|split].
  - pose proof (surjective_pairing (Add (Some nD) (Some nC) scenario2)) as E.
    assert (F : fst (Add (Some nD) (Some nC) scenario2)
                = Returns (Some "Parent node not found in structure"%string))
      by (vm_compute; reflexivity).
    rewrite F in E.
    exact (proj1 (failure_is_atomic scenario2 _ _) _ _ E).
  - pose proof (surjective_pairing (Delete (Some nR) scenario3)) as E.
    assert (F : fst (Delete (Some nR) scenario3)
                = Returns (Some "Can't delete root node"%string))
      by (vm_compute; reflexivity).
    rewrite F in E.
    exact (proj1 (proj2 (failure_is_atomic scenario3 _ _)) _ E).
  - pose proof (surjective_pairing (Move (Some nA) (Some nC) scenario3)) as E.
    assert (F : fst (Move (Some nA) (Some nC) scenario3)
                = Returns (Some "Can't move branch to node within itself"%string))
      by (vm_compute; reflexivity).
    rewrite F in E.
    exact (proj2 (proj2 (failure_is_atomic scenario3 _ _)) _ _ E).
Defined.

(** C9.  [Move] calls [node.GetLevel()] before any test, so a nil [node]
    panics, whatever the parent and the set; [Delete] tests [node == nil]
    first and returns an error. *)
Theorem Move_nil_panics (p : option ref) (w : World) :
  Move None p w = (Panics, w) /\
  Delete None w = (Returns (Some "Can't delete root node"%string), w).
Proof. split; reflexivity. Qed.

(** C10.  [Add] never asks whether [newNode] is already a member.  Adding A
    again to the set \{R, A\} succeeds; the widening loop then visits A
    itself and moves its [right] from the value just assigned (the insertion
    point plus 1) to the insertion point plus 3; and the slice ends with A
    twice. *)
Theorem Add_member_twice :
  exists (w : World) (newNode : ref) (parent_arg : option ref),
    let w' := snd (Add (Some newNode) parent_arg w) in
    let ins := GetRight (heap w) (effective_parent w parent_arg) in
    In newNode (nodes (nset w)) /\
    fst (Add (Some newNode) parent_arg w) = Returns None /\
    GetLeft (heap w') newNode = ins /\
    GetRight (heap w') newNode = ins + 3 /\
    nodes (nset w') = (nodes (nset w) ++ [newNode])%list /\
    count_occ Nat.eq_dec (nodes (nset w')) newNode = 2%nat.
Proof.
  exists scenario1, nA, None. cbv zeta.
  split; [apply In_check; vm_compute; reflexivity|].
  repeat split; vm_compute; reflexivity.
Qed.

(** ** A node that is no longer a member *)

(** C4 fails on the code: [Move] has no membership test of its own.  C was
    deleted and still carries the coordinates (2, 3), level 2; A, now at
    (1, 4), level 1, passes for its parent, so [Move(C, B)] returns nil, and
    the shifting loop renumbers A and B around a subtree that is not there:
    A and D then share the endpoint 2, and D and B the endpoint 3. *)
Theorem Move_of_deleted_node :
  consistent stale_world /\
  ~ In nC (nodes (nset stale_world)) /\
  coords stale_world = [(nR, 0, 7, 0); (nA, 1, 4, 1); (nD, 2, 3, 2); (nB, 5, 6, 1)] /\
  fst (Move (Some nC) (Some nB) stale_world) = Returns None /\
  coords (snd (Move (Some nC) (Some nB) stale_world)) =
    [(nR, 0, 7, 0); (nA, 1, 2, 1); (nD, 2, 3, 2); (nB, 3, 6, 1)].
Proof.
  split; [apply tree_invb_sound; vm_compute; reflexivity|].
  split; [apply notIn_check; vm_compute; reflexivity|].
  split; [|split]; vm_compute; reflexivity.
Qed.

(** ** Parent *)

(** C5 fails on the code for a node that is not a member: [parent] compares
    coordinates and never tests membership, as [branch] and [Delete] do
    with [exists], so the deleted C, still at (2, 3), level 2, is given A
    as its parent. *)
Lemma Parent_of_deleted_node :
  consistent stale_world /\
  ~ In nC (nodes (nset stale_world)) /\
  Parent (Some nC) stale_world = Returns (Some nA).
Proof.
  split; [apply tree_invb_sound; vm_compute; reflexivity|].
  split; [apply notIn_check; vm_compute; reflexivity|].
  vm_compute; reflexivity.
Qed.

(** ** Move *)

(** C6 fails on the code when the node was not the last child: [Move] always
    inserts before the new parent's [right].  C, the first of A's two
    children, at (2, 3), moved to B and back to A, ends at (4, 5), behind
    its sibling D. *)
Lemma Move_back_not_last_child :
  let w1 := snd (Move (Some nC) (Some nB) two_children) in
  let w2 := snd (Move (Some nC) (Some nA) w1) in
  consistent two_children /\
  Parent (Some nC) two_children = Returns (Some nA) /\
  fst (Move (Some nC) (Some nB) two_children) = Returns None /\
  fst (Move (Some nC) (Some nA) w1) = Returns None /\
  (GetLeft (heap two_children) nC, GetRight (heap two_children) nC) = (2, 3) /\
  (GetLeft (heap w2) nC, GetRight (heap w2) nC) = (4, 5).
Proof.
  cbv zeta.
  split; [apply tree_invb_sound; vm_compute; reflexivity|].
  split; [|split; [|split; [|split]]]; vm_compute; reflexivity.
Qed.

(** ** The loop bodies away from the limits of int64 *)

Ltac unwrap :=
  unfold Int64.add, Int64.sub in *;
  repeat match goal with
         | |- context [Int64.wrap ?z] => rewrite (wrap_small z) by lia
         | H : context [Int64.wrap ?z] |- _ => rewrite (wrap_small z) in H by lia
         end.

(** Splits the comparisons one at a time and drops a case as soon as its
    hypotheses contradict each other. *)
Ltac prune_cmp :=
  cbn [NodeLeft NodeRight NodeLevel set_left set_right set_level] in *;
  rewrite ?Z.gtb_ltb, ?Z.geb_leb in *;
  repeat (match goal with
          | |- context [?a <? ?b] => destruct (Z.ltb_spec a b)
          | |- context [?a <=? ?b] => destruct (Z.leb_spec a b)
          | H : context [?a <? ?b] |- _ => destruct (Z.ltb_spec a b)
          | H : context [?a <=? ?b] |- _ => destruct (Z.leb_spec a b)
          end; try (exfalso; lia));
  cbn [NodeLeft NodeRight NodeLevel set_left set_right set_level andb orb negb] in *.

Ltac cases_cmp :=
  cbn [NodeLeft NodeRight NodeLevel set_left set_right set_level] in *;
  rewrite ?Z.gtb_ltb, ?Z.geb_leb in *;
  repeat match goal with
         | |- context [?a <? ?b] => destruct (Z.ltb_spec a b)
         | |- context [?a <=? ?b] => destruct (Z.leb_spec a b)
         | H : context [?a <? ?b] |- _ => destruct (Z.ltb_spec a b)
         | H : context [?a <=? ?b] |- _ => destruct (Z.leb_spec a b)
         end;
  cbn [NodeLeft NodeRight NodeLevel set_left set_right set_level andb orb negb] in *.

Lemma widen_node_coords (ins : Z) (x : Node) :
  small (NodeLeft x) -> small (NodeRight x) -> NodeLeft x < NodeRight x ->
  NodeRight (widen_node ins x) =
    (if ins <=? NodeRight x then NodeRight x + 2 else NodeRight x) /\
  NodeLeft (widen_node ins x) =
    (if ins <? NodeLeft x then NodeLeft x + 2 else NodeLeft x) /\
  NodeLevel (widen_node ins x) = NodeLevel x.
Proof.
  unfold small, widen_node. intros Hl Hr Hlt. cbv zeta.
  cases_cmp; unwrap; repeat split; lia.
Qed.

Lemma close_node_coords (nl nr : Z) (x : Node) :
  small nl -> small nr -> small (NodeLeft x) -> small (NodeRight x) ->
  NodeRight (close_node nl nr x) =
    (if nr <? NodeRight x then NodeRight x - (nr - nl + 1) else NodeRight x) /\
  NodeLeft (close_node nl nr x) =
    (if nl <? NodeLeft x then NodeLeft x - (nr - nl + 1) else NodeLeft x) /\
  NodeLevel (close_node nl nr x) = NodeLevel x.
Proof.
  unfold small, close_node. intros Hnl Hnr Hl Hr. cbv zeta.
  cases_cmp; unwrap; repeat split; lia.
Qed.

Lemma filter_all (A : Type) (f : A -> bool) (l : list A) :
  (forall x, In x l -> f x = true) -> filter f l = l.
Proof.
  induction l as [|a l IH]; simpl; intros H; [reflexivity|].
  rewrite (H a) by now left. f_equal. apply IH. intros x Hx. apply H. now right.
Qed.

Lemma NoDup_snoc (l : list ref) (n : ref) : NoDup l -> ~ In n l -> NoDup (l ++ [n]).
Proof.
  intros Hl Hn. apply (Permutation_NoDup (l := n :: l)).
  - apply Permutation_cons_append.
  - now constructor.
Qed.

Lemma withinb_self (h : Heap) (n : ref) : withinb h n n = true.
Proof. unfold withinb. rewrite Z.geb_leb, !Z.leb_refl. reflexivity. Qed.

(** ** Add, then Delete *)

(** C7.  In a consistent collection, [Add] of a node that is not yet a
    member followed by [Delete] of that node both succeed, the slice is the
    one before the [Add], and every other node, member or not, has the
    [left], [right] and level it had before the [Add]. *)
Theorem Add_Delete_roundtrip (w : World) (newNode : ref) (parent_arg : option ref) :
  consistent w ->
  ~ In newNode (nodes (nset w)) ->
  parent_ok w parent_arg ->
  let w1 := snd (Add (Some newNode) parent_arg w) in
  let w2 := snd (Delete (Some newNode) w1) in
  fst (Add (Some newNode) parent_arg w) = Returns None /\
  fst (Delete (Some newNode) w1) = Returns None /\
  nodes (nset w2) = nodes (nset w) /\
  forall r, r <> newNode ->
    GetLeft (heap w2) r = GetLeft (heap w) r /\
    GetRight (heap w2) r = GetRight (heap w) r /\
    GetLevel (heap w2) r = GetLevel (heap w) r.
Proof.
  intros Hc Hfresh Hp w1 w2.
  destruct Hc as [Hnd Hrin _ _ Hlt _ _ Hbd _].
  destruct (Add_result w newNode parent_arg Hnd Hfresh Hp)
    as [h1 [Hadd [Hnew [Hold Hout]]]].
  set (p := effective_parent w parent_arg) in *.
  set (ins := GetRight (heap w) p) in *.
  assert (Hpin : In p (nodes (nset w))).
  { subst p. destruct parent_arg; simpl in *; assumption. }
  assert (Hins : 0 <= ins < 2 ^ 61).
  { pose proof (Hbd p Hpin). pose proof (Hlt p Hpin). unfold ins. lia. }
  set (s1 := mkNestedSet (nodes (nset w) ++ [newNode]) (rootNode (nset w))
                         (Int64.add (maxId (nset w)) 1)) in *.
  assert (Hw1 : w1 = mkWorld h1 s1) by (subst w1; now rewrite Hadd).
  assert (Hroot : newNode <> rootNode (nset w)) by (intros ->; contradiction).
  destruct (Delete_result (mkWorld h1 s1) newNode) as [h2 [Hdel [Hkept Hrest]]];
    [apply NoDup_snoc; assumption | apply in_or_app; right; now left | exact Hroot |].
  subst s1. cbn [heap nset nodes rootNode maxId] in Hdel, Hkept, Hrest.
  assert (Hnl : GetLeft h1 newNode = ins) by (unfold GetLeft; now rewrite Hnew).
  assert (Hnr : GetRight h1 newNode = ins + 1).
  { unfold GetRight. rewrite Hnew. simpl. unwrap. reflexivity. }
  rewrite Hnl, Hnr in Hkept.
  (* a member of the old slice survives and gets its old coordinates back *)
  assert (Hmem : forall r, In r (nodes (nset w)) ->
            withinb h1 r newNode = false /\
            NodeLeft (close_node ins (ins + 1) (h1 r)) = NodeLeft (heap w r) /\
            NodeRight (close_node ins (ins + 1) (h1 r)) = NodeRight (heap w r) /\
            NodeLevel (close_node ins (ins + 1) (h1 r)) = NodeLevel (heap w r)).
  { intros r Hr. pose proof (Hbd r Hr) as Hb. pose proof (Hlt r Hr) as Hl.
    unfold GetLeft, GetRight in Hb, Hl.
    destruct (widen_node_coords ins (heap w r)) as [Wr [Wl Wv]];
      [unfold small; lia | unfold small; lia | lia |].
    rewrite <- (Hold r Hr) in Wr, Wl, Wv.
    destruct (close_node_coords ins (ins + 1) (h1 r)) as [Cr [Cl Cv]];
      [unfold small in *; lia | unfold small in *; lia
       | unfold small in *; rewrite Wl; cases_cmp; lia
       | unfold small in *; rewrite Wr; cases_cmp; lia |].
    rewrite Cr, Cl, Cv, Wv. unfold withinb, GetLeft, GetRight.
    rewrite Hnew. cbn [NodeLeft NodeRight]. unwrap.
    rewrite Wr, Wl. cases_cmp; repeat split; lia. }
  subst w2. rewrite Hw1, Hdel. cbn [fst snd heap nset nodes].
  split; [now rewrite Hadd|]. split; [reflexivity|]. split.
  - rewrite filter_app. simpl. rewrite withinb_self. simpl.
    rewrite app_nil_r. apply filter_all. intros r Hr.
    rewrite (proj1 (Hmem r Hr)). reflexivity.
  - intros r Hne. unfold GetLeft, GetRight, GetLevel.
    destruct (in_dec Nat.eq_dec r (nodes (nset w))) as [Hr | Hr].
    + destruct (Hmem r Hr) as [Hw [Ml [Mr Mv]]].
      rewrite (Hkept r) by (try apply in_or_app; auto).
      auto.
    + assert (Hr1 : ~ In r (nodes (nset w) ++ [newNode])).
      { intros Hi. apply in_app_or in Hi. destruct Hi as [Hi | [Hi | []]]; [contradiction | congruence]. }
      rewrite (Hrest r (or_introl Hr1)), (Hout r Hr Hne). auto.
Qed.

(** Adding C under A in the two-insert scenario and deleting it again. *)
Lemma Add_Delete_roundtrip_witness :
  nodes (nset (snd (Delete (Some nC) (snd (Add (Some nC) (Some nA) scenario2)))))
    = nodes (nset scenario2) /\
  GetRight (heap (snd (Delete (Some nC) (snd (Add (Some nC) (Some nA) scenario2))))) nA
    = GetRight (heap scenario2) nA.
Proof.
  assert (Hc : consistent scenario2)
    by (apply tree_invb_sound; vm_compute; reflexivity).
  assert (Hfresh : ~ In nC (nodes (nset scenario2)))
    by (apply notIn_check; vm_compute; reflexivity).
  assert (HA : parent_ok scenario2 (Some nA))
    by (apply In_check; vm_compute; reflexivity).
  assert (Hne : nA <> nC) by (apply neq_check; vm_compute; reflexivity).
  destruct (Add_Delete_roundtrip scenario2 nC (Some nA) Hc Hfresh HA)
    as [_ [_ [Hn Hall]]].
  split; [exact Hn | exact (proj1 (proj2 (Hall nA Hne)))].
Defined.

(** ** Counting the members that satisfy a test *)

Section Counting.

Variable l : list ref.
Hypothesis Hnd : NoDup l.

Lemma count_ext (f g : ref -> bool) :
  (forall c, In c l -> f c = g c) -> length (filter f l) = length (filter g l).
Proof. intros H. f_equal. now apply filter_ext_in. Qed.

Lemma count_le (f g : ref -> bool) :
  (forall c, In c l -> f c = true -> g c = true) ->
  (length (filter f l) <= length (filter g l))%nat.
Proof.
  clear Hnd. induction l as [|a l' IH]; simpl; intros H; [lia|].
  assert (IH' : (length (filter f l') <= length (filter g l'))%nat).
  { apply IH. intros c Hc. apply H. now right. }
  destruct (f a) eqn:Fa.
  - rewrite (H a (or_introl eq_refl) Fa). simpl. lia.
  - destruct (g a); simpl; lia.
Qed.

(** One more member passes [g] than [f]: the member [q]. *)
Lemma count_add_one (q : ref) (f g : ref -> bool) :
  In q l -> f q = false ->
  (forall c, In c l -> g c = Nat.eqb c q || f c) ->
  length (filter g l) = S (length (filter f l)).
Proof.
  revert Hnd. induction l as [|a l' IH]; intros Hnd' Hq Fq Hg; [contradiction|].
  inversion Hnd' as [|? ? Ha Hl']; subst. simpl.
  pose proof (Hg a (or_introl eq_refl)) as Ga.
  destruct (Nat.eq_dec a q) as [->|Hne].
  - rewrite Nat.eqb_refl in Ga. simpl in Ga. rewrite Ga, Fq. simpl. f_equal.
    f_equal. apply filter_ext_in. intros c Hc. rewrite Hg by now right.
    destruct (Nat.eqb c q) eqn:E; [|reflexivity].
    apply Nat.eqb_eq in E. subst. contradiction.
  - destruct Hq as [Hq | Hq]; [contradiction|].
    apply Nat.eqb_neq in Hne. rewrite Hne in Ga. simpl in Ga. rewrite Ga.
    assert (IH' : length (filter g l') = S (length (filter f l'))).
    { apply IH; auto. intros c Hc. apply Hg. now right. }
    destruct (f a); simpl; lia.
Qed.

(** The members passing a test, split by a second test [s]. *)
Lemma count_split (s f : ref -> bool) :
  length (filter f l) =
  (length (filter (fun c => s c && f c) l) +
   length (filter (fun c => negb (s c) && f c) l))%nat.
Proof.
  clear Hnd. induction l as [|a l' IH]; simpl; [reflexivity|].
  destruct (s a), (f a); simpl; lia.
Qed.

End Counting.

Lemma count_perm (l l' : list ref) (f : ref -> bool) :
  Permutation l l' -> length (filter f l) = length (filter f l').
Proof.
  induction 1; simpl.
  - reflexivity.
  - destruct (f x); simpl; lia.
  - destruct (f x), (f y); simpl; lia.
  - lia.
Qed.

Lemma find_none_iff (f : ref -> bool) (l : list ref) :
  (forall x, In x l -> f x = false) -> find f l = None.
Proof.
  induction l as [|a l IH]; simpl; intros H; [reflexivity|].
  rewrite (H a) by now left. apply IH. intros x Hx. apply H. now right.
Qed.

(** A non-empty list has a member at which [f] is largest. *)
Lemma max_member (f : ref -> Z) (l : list ref) :
  l <> [] -> exists m, In m l /\ forall y, In y l -> f y <= f m.
Proof.
  induction l as [|a l IH]; [congruence|]. intros _.
  destruct l as [|b l].
  - exists a. split; [now left|]. intros y [->|[]]. lia.
  - destruct IH as [m [Hm Hmax]]; [discriminate|].
    destruct (Z_le_gt_dec (f a) (f m)).
    + exists m. split; [now right|]. intros y [->|Hy]; [lia | auto].
    + exists a. split; [now left|]. intros y [->|Hy]; [lia|].
      specialize (Hmax y Hy). lia.
Qed.

(** ** Facts about a collection that satisfies the invariants *)

Section Invariant.

Variable B : Z.
Variable w : World.
Hypothesis Hinv : tree_inv B w.
Hypothesis HB : B <= 2 ^ 61.

Local Abbreviation h := (heap w).
Local Abbreviation l := (nodes (nset w)).
Local Abbreviation root := (rootNode (nset w)).

Lemma level_range (r : ref) : In r l -> 0 <= GetLevel h r <= B.
Proof.
  intros Hr. rewrite (ti_level _ _ Hinv r Hr).
  pose proof (ti_size _ _ Hinv) as Hs.
  pose proof (filter_length_le (fun c => containsb (heap w) c r) (nodes (nset w))).
  unfold enclosing. lia.
Qed.

Lemma coord_range (r : ref) :
  In r l -> 0 <= GetLeft h r /\ GetLeft h r < GetRight h r /\ GetRight h r < B.
Proof.
  intros Hr. pose proof (ti_bound _ _ Hinv r Hr). pose proof (ti_lt _ _ Hinv r Hr).
  lia.
Qed.

(** Two members with different pointers share no endpoint. *)
Lemma endpoints_distinct (a b : ref) :
  In a l -> In b l -> a <> b -> endpoints_differ h a b.
Proof.
  intros Ha Hb Hne.
  pose proof (coord_range a Ha). pose proof (coord_range b Hb).
  destruct (ti_laminar _ _ Hinv a b Ha Hb Hne) as [[D | D] | [[C1 C2] | [C1 C2]]];
    unfold endpoints_differ; lia.
Qed.

(** The levels of two members, one enclosing the other. *)
Lemma level_lt (a b : ref) :
  In a l -> In b l -> contains h a b -> GetLevel h a < GetLevel h b.
Proof.
  intros Ha Hb [C1 C2].
  rewrite (ti_level _ _ Hinv a Ha), (ti_level _ _ Hinv b Hb). unfold enclosing.
  assert (Hself : containsb (heap w) a a = false).
  { unfold containsb. rewrite Z.ltb_irrefl. reflexivity. }
  pose proof (count_add_one (nodes (nset w)) (ti_nodup _ _ Hinv) a
                (fun c => containsb (heap w) c a)
                (fun c : ref => Nat.eqb c a || containsb (heap w) c a) Ha Hself
                (fun c _ => eq_refl)) as Hone.
  assert (Hle : (length (filter (fun c : ref => Nat.eqb c a || containsb (heap w) c a) (nodes (nset w)))
                 <= length (filter (fun c => containsb (heap w) c b) (nodes (nset w))))%nat).
  { apply count_le. intros c Hc Hcond. apply orb_prop in Hcond.
    apply containsb_spec. destruct Hcond as [E | E].
    - apply Nat.eqb_eq in E. subst. split; assumption.
    - apply containsb_spec in E. destruct E as [E1 E2].
      unfold contains. lia. }
  lia.
Qed.

(** The innermost member around a member that is not the root: it is one
    level up, and every other member around the node is around it too. *)
Lemma innermost (x : ref) :
  In x l -> x <> root ->
  exists p, In p l /\ contains h p x /\ GetLevel h p = GetLevel h x - 1 /\
            forall c, In c l -> contains h c x -> c = p \/ contains h c p.
Proof.
  intros Hx Hroot.
  assert (Hne : enclosing h l x <> []).
  { intros E. pose proof (ti_root_top _ _ Hinv x Hx Hroot) as Htop.
    apply containsb_spec in Htop.
    assert (Hin : In root (enclosing h l x)).
    { apply filter_In. split; [exact (ti_root_in _ _ Hinv) | exact Htop]. }
    rewrite E in Hin. contradiction. }
  destruct (max_member (GetLeft h) _ Hne) as [p [Hp Hmax]].
  apply filter_In in Hp. destruct Hp as [Hp Hpx]. apply containsb_spec in Hpx.
  assert (Hinner : forall c, In c l -> contains h c x -> c = p \/ contains h c p).
  { intros c Hc Hcx. destruct (Nat.eq_dec c p) as [E | E]; [now left | right].
    assert (Hcl : GetLeft h c <= GetLeft h p).
    { apply Hmax. apply filter_In. split; [assumption | now apply containsb_spec]. }
    pose proof (coord_range x Hx).
    destruct Hcx as [X1 X2]. destruct Hpx as [P1 P2].
    destruct (ti_laminar _ _ Hinv c p Hc Hp E) as [[D | D] | [[C1 C2] | [C1 C2]]];
      unfold contains; lia. }
  exists p. repeat split; try assumption; try apply Hpx.
  rewrite (ti_level _ _ Hinv x Hx), (ti_level _ _ Hinv p Hp). unfold enclosing.
  rewrite (count_add_one (nodes (nset w)) (ti_nodup _ _ Hinv) p
             (fun c => containsb (heap w) c p) (fun c => containsb (heap w) c x) Hp).
  - lia.
  - unfold containsb. rewrite Z.ltb_irrefl. reflexivity.
  - intros c Hc.
    destruct (containsb h c x) eqn:E.
    + apply containsb_spec in E. destruct (Hinner c Hc E) as [-> | C].
      * now rewrite Nat.eqb_refl.
      * apply containsb_spec in C. rewrite C. now rewrite orb_true_r.
    + symmetry. apply orb_false_iff. split.
      * apply Nat.eqb_neq. intros ->. apply containsb_spec in Hpx. congruence.
      * destruct (containsb h c p) eqn:C; [|reflexivity].
        apply containsb_spec in C. destruct C as [C1 C2]. destruct Hpx as [P1 P2].
        assert (containsb h c x = true)
          by (apply containsb_spec; unfold contains; lia).
        congruence.
Qed.

End Invariant.

(** The test of the scan in [parent], as a proposition. *)
Lemma parent_test_spec (h : Heap) (x n : ref) :
  (GetLeft h n <=? GetLeft h x) && (GetRight h n >=? GetRight h x)
  && (GetLevel h n =? Int64.sub (GetLevel h x) 1) = true <->
  GetLeft h n <= GetLeft h x /\ GetRight h x <= GetRight h n /\
  GetLevel h n = Int64.sub (GetLevel h x) 1.
Proof.
  rewrite !andb_true_iff, Z.geb_leb, !Z.leb_le, Z.eqb_eq. tauto.
Qed.

(** X19.  In a consistent collection [Parent] returns nil for the root
    and for every node whose level is 0, member or not; and for a member
    other than the root it returns the one member whose interval strictly
    contains the node's and whose level is one less. *)
Theorem Parent_spec (w : World) :
  consistent w ->
  let h := heap w in
  let l := nodes (nset w) in
  Parent (Some (rootNode (nset w))) w = Returns None /\
  (forall x, GetLevel h x = 0 -> Parent (Some x) w = Returns None) /\
  (forall x, In x l -> x <> rootNode (nset w) ->
     exists p, Parent (Some x) w = Returns (Some p) /\
               In p l /\ contains h p x /\ GetLevel h p = GetLevel h x - 1 /\
               forall q, In q l -> contains h q x ->
                         GetLevel h q = GetLevel h x - 1 -> q = p).
Proof.
  intros Hc h l. subst h l.
  assert (Hzero : forall x, GetLevel (heap w) x = 0 -> Parent (Some x) w = Returns None).
  { intros x Hx. unfold Parent, parent. f_equal. apply find_none_iff.
    intros q Hq. apply not_true_is_false. intros T.
    apply parent_test_spec in T. destruct T as [_ [_ T]].
    pose proof (level_range _ _ Hc q Hq) as Hr.
    rewrite Hx in T. change (Int64.sub 0 1) with (-1) in T.
    lia. }
  split; [apply Hzero; exact (ti_root_level _ _ Hc)|].
  split; [exact Hzero|].
  - intros x Hx Hroot.
    destruct (innermost _ _ Hc x Hx Hroot) as [p [Hp [Hpx [Hlev Hinner]]]].
    pose proof (level_range _ _ Hc x Hx) as Hxr.
    assert (Hsub : Int64.sub (GetLevel (heap w) x) 1 = GetLevel (heap w) x - 1).
    { apply sub_small. lia. }
    (* any member that passes the scan's test is the innermost one *)
    assert (Huniq : forall q, In q (nodes (nset w)) ->
              GetLeft (heap w) q <= GetLeft (heap w) x -> GetRight (heap w) x <= GetRight (heap w) q ->
              GetLevel (heap w) q = GetLevel (heap w) x - 1 -> q = p).
    { intros q Hq Q1 Q2 Q3.
      assert (Hqx : q <> x) by (intros ->; lia).
      assert (Hcq : contains (heap w) q x).
      { destruct (endpoints_distinct _ _ Hc q x Hq Hx Hqx) as [E1 [_ [_ E2]]].
        unfold contains. lia. }
      destruct (Hinner q Hq Hcq) as [E | C]; [exact E|].
      pose proof (level_lt _ _ Hc q p Hq Hp C). lia. }
    exists p.
    destruct (find (fun n => (GetLeft (heap w) n <=? GetLeft (heap w) x)
                             && (GetRight (heap w) n >=? GetRight (heap w) x)
                             && (GetLevel (heap w) n =? Int64.sub (GetLevel (heap w) x) 1)) (nodes (nset w)))
      as [p'|] eqn:F.
    + apply find_some in F. destruct F as [Hp' T].
      apply parent_test_spec in T. destruct T as [T1 [T2 T3]]. rewrite Hsub in T3.
      assert (p' = p) by (apply Huniq; assumption). subst p'.
      repeat split; try assumption; try apply Hpx.
      * unfold Parent, parent.
        destruct (find _ (nodes (nset w))) as [p''|] eqn:F'; [|].
        -- apply find_some in F'. destruct F' as [Hp'' T].
           apply parent_test_spec in T. destruct T as [U1 [U2 U3]]. rewrite Hsub in U3.
           f_equal. f_equal. apply Huniq; assumption.
        -- exfalso. apply (find_none _ _ F') in Hp.
           assert (Tp : (GetLeft (heap w) p <=? GetLeft (heap w) x) && (GetRight (heap w) p >=? GetRight (heap w) x)
                        && (GetLevel (heap w) p =? Int64.sub (GetLevel (heap w) x) 1) = true)
             by (apply parent_test_spec; rewrite Hsub; repeat split; lia).
           congruence.
      * intros q Hq [Q1 Q2] Q3. apply Huniq; try assumption; lia.
    + exfalso. apply (find_none _ _ F) in Hp.
      assert (Tp : (GetLeft (heap w) p <=? GetLeft (heap w) x) && (GetRight (heap w) p >=? GetRight (heap w) x)
                   && (GetLevel (heap w) p =? Int64.sub (GetLevel (heap w) x) 1) = true).
      { apply parent_test_spec. rewrite Hsub. destruct Hpx. repeat split; lia. }
      congruence.
Qed.

(** The parent lookup on the scenario: R has none, C's is A. *)
Lemma Parent_spec_witness :
  Parent (Some (rootNode (nset scenario3))) scenario3 = Returns None /\
  exists p, Parent (Some nC) scenario3 = Returns (Some p) /\
            contains (heap scenario3) p nC.
Proof.
  assert (Hc : consistent scenario3)
    by (apply tree_invb_sound; vm_compute; reflexivity).
  assert (HC : In nC (nodes (nset scenario3)))
    by (apply In_check; vm_compute; reflexivity).
  assert (Hne : nC <> rootNode (nset scenario3))
    by (apply neq_check; vm_compute; reflexivity).
  destruct (Parent_spec scenario3 Hc) as [H1 [_ H4]].
  destruct (H4 nC HC Hne) as [p [E [_ [C _]]]].
  split; [exact H1 | exists p; split; assumption].
Defined.

(** ** Renumbering by an increasing map *)

Section Relabel.

Variables (h h' : Heap) (D : Z -> Prop) (f : Z -> Z).
Hypothesis f_inc : increasing_on D f.

Lemma increasing_reflects (x y : Z) : D x -> D y -> f x < f y -> x < y.
Proof.
  intros Dx Dy H. destruct (Z.lt_trichotomy x y) as [L | [E | G]].
  - exact L.
  - subst. lia.
  - pose proof (f_inc y x Dy Dx G). lia.
Qed.

Lemma relabel_lt (r : ref) :
  relabeled h h' D f r -> GetLeft h r < GetRight h r -> GetLeft h' r < GetRight h' r.
Proof. intros [Dl [Dr [El Er]]] H. rewrite El, Er. now apply f_inc. Qed.

Lemma relabel_contains (a b : ref) :
  relabeled h h' D f a -> relabeled h h' D f b ->
  (contains h' a b <-> contains h a b).
Proof.
  intros [Dla [Dra [Ela Era]]] [Dlb [Drb [Elb Erb]]]. unfold contains.
  rewrite Ela, Era, Elb, Erb. split; intros [H1 H2]; split;
    auto using increasing_reflects.
Qed.

Lemma relabel_containsb (a b : ref) :
  relabeled h h' D f a -> relabeled h h' D f b ->
  containsb h' a b = containsb h a b.
Proof.
  intros Ha Hb. pose proof (relabel_contains a b Ha Hb) as H.
  rewrite <- !containsb_spec in H.
  destruct (containsb h' a b), (containsb h a b); try reflexivity;
    destruct H as [H1 H2]; [discriminate (H1 eq_refl) | discriminate (H2 eq_refl)].
Qed.

Lemma relabel_disjoint (a b : ref) :
  relabeled h h' D f a -> relabeled h h' D f b ->
  disjoint h a b -> disjoint h' a b.
Proof.
  intros [Dla [Dra [Ela Era]]] [Dlb [Drb [Elb Erb]]]. unfold disjoint.
  rewrite Ela, Era, Elb, Erb. intros [H | H]; [left | right]; now apply f_inc.
Qed.

(** The three-way relation of two intervals survives the renumbering. *)
Lemma relabel_laminar (a b : ref) :
  relabeled h h' D f a -> relabeled h h' D f b ->
  disjoint h a b \/ contains h a b \/ contains h b a ->
  disjoint h' a b \/ contains h' a b \/ contains h' b a.
Proof.
  intros Ha Hb [H | [H | H]].
  - left. now apply relabel_disjoint.
  - right; left. now apply relabel_contains.
  - right; right. now apply relabel_contains.
Qed.

End Relabel.

Lemma add_map_increasing (ins : Z) : increasing_on (fun _ => True) (add_map ins).
Proof. intros x y _ _ H. unfold add_map. cases_cmp; lia. Qed.

Lemma delete_map_increasing (nl nr : Z) :
  nl <= nr -> increasing_on (outside nl nr) (delete_map nl nr).
Proof. intros Hn x y Dx Dy H. unfold delete_map, outside in *. cases_cmp; lia. Qed.

Lemma move_outer_increasing (nl nr pr : Z) :
  nl <= nr -> pr < nl \/ nr < pr ->
  increasing_on (outside nl nr) (move_outer nl nr pr).
Proof.
  intros Hn Hp x y Dx Dy H. unfold move_outer, outside in *. cases_cmp; lia.
Qed.

Lemma move_inner_increasing (nl nr pr : Z) :
  increasing_on (fun _ => True) (move_inner nl nr pr).
Proof. intros x y _ _ H. unfold move_inner. cases_cmp; lia. Qed.

(** ** Add keeps the invariants *)

Section AddInvariant.

Variable B : Z.
Variable w : World.
Variables (newNode : ref) (parent_arg : option ref).
Hypothesis Hinv : tree_inv B w.
Hypothesis HB : B <= 2 ^ 61.
Hypothesis Hfresh : ~ In newNode (nodes (nset w)).
Hypothesis Hp : parent_ok w parent_arg.

Local Abbreviation h := (heap w).
Local Abbreviation l := (nodes (nset w)).
Local Abbreviation p := (effective_parent w parent_arg).
Local Abbreviation ins := (GetRight (heap w) (effective_parent w parent_arg)).
Local Abbreviation w' := (snd (Add (Some newNode) parent_arg w)).
Local Abbreviation h' := (heap (snd (Add (Some newNode) parent_arg w))).

Lemma add_parent_in : In p l.
Proof.
  unfold effective_parent, parent_ok in *.
  destruct parent_arg; [assumption | exact (ti_root_in _ _ Hinv)].
Qed.

Lemma add_nodes : nodes (nset w') = (l ++ [newNode])%list.
Proof.
  destruct (Add_result w newNode parent_arg (ti_nodup _ _ Hinv) Hfresh Hp)
    as [h1 [Hadd _]].
  rewrite Hadd. reflexivity.
Qed.

Lemma add_root : rootNode (nset w') = rootNode (nset w).
Proof.
  destruct (Add_result w newNode parent_arg (ti_nodup _ _ Hinv) Hfresh Hp)
    as [h1 [Hadd _]].
  rewrite Hadd. reflexivity.
Qed.

Lemma add_new_coords :
  GetLeft h' newNode = ins /\ GetRight h' newNode = ins + 1 /\
  GetLevel h' newNode = GetLevel h p + 1.
Proof.
  destruct (Add_result w newNode parent_arg (ti_nodup _ _ Hinv) Hfresh Hp)
    as [h1 [Hadd [Hnew _]]].
  rewrite Hadd. unfold GetLeft, GetRight, GetLevel. simpl. rewrite Hnew. simpl.
  pose proof (coord_range _ _ Hinv p add_parent_in).
  pose proof (level_range _ _ Hinv p add_parent_in).
  unfold GetLeft, GetRight, GetLevel in *. unwrap. auto.
Qed.

Lemma add_old_coords (r : ref) :
  In r l ->
  relabeled h h' (fun _ => True) (add_map ins) r /\ GetLevel h' r = GetLevel h r.
Proof.
  intros Hr.
  destruct (Add_result w newNode parent_arg (ti_nodup _ _ Hinv) Hfresh Hp)
    as [h1 [Hadd [_ [Hold _]]]].
  rewrite Hadd. unfold relabeled, GetLeft, GetRight, GetLevel. simpl.
  rewrite (Hold r Hr).
  pose proof (coord_range _ _ Hinv r Hr) as Hc.
  pose proof (coord_range _ _ Hinv p add_parent_in) as Hpc.
  assert (Hne : GetLeft h r <> ins).
  { destruct (Nat.eq_dec r p) as [-> | Hne]; [lia|].
    apply (endpoints_distinct _ _ Hinv r p Hr add_parent_in Hne). }
  unfold GetLeft, GetRight in *.
  destruct (widen_node_coords (NodeRight (h p)) (h r)) as [Wr [Wl Wv]];
    [unfold small; lia | unfold small; lia | lia |].
  rewrite Wr, Wl, Wv. unfold add_map. cases_cmp; repeat split; lia.
Qed.

(** Where a member lies with respect to the new node. *)
Lemma add_new_rel (a : ref) :
  In a l ->
  ((a = p \/ contains h a p) /\ contains h' a newNode) \/
  (a <> p /\ ~ contains h a p /\ disjoint h' a newNode).
Proof.
  intros Ha.
  destruct add_new_coords as [Nl [Nr _]].
  destruct (add_old_coords a Ha) as [[_ [_ [Al Ar]]] _].
  pose proof (coord_range _ _ Hinv a Ha) as Hc.
  pose proof (coord_range _ _ Hinv p add_parent_in) as Hpc.
  unfold contains, disjoint. rewrite Nl, Nr, Al, Ar. unfold add_map.
  destruct (Nat.eq_dec a p) as [-> | Hne].
  - left. cases_cmp; split; auto; lia.
  - destruct (ti_laminar _ _ Hinv a p Ha add_parent_in Hne)
      as [[D | D] | [[C1 C2] | [C1 C2]]]; cases_cmp;
      try (left; split; [right; lia | lia]);
      try (right; split; [assumption | split; lia]).
Qed.

Lemma add_no_inner (a : ref) : In a l -> containsb h' newNode a = false.
Proof.
  intros Ha. apply not_true_is_false. intros C. apply containsb_spec in C.
  destruct add_new_coords as [Nl [Nr _]].
  destruct (add_old_coords a Ha) as [Hrel _].
  pose proof (relabel_lt h h' _ _ (add_map_increasing ins) a Hrel) as Hlt.
  pose proof (coord_range _ _ Hinv a Ha).
  unfold contains in C. rewrite Nl, Nr in C. lia.
Qed.

Theorem Add_keeps_invariant : tree_inv (B + 2) w'.
Proof.
  pose proof add_nodes as Hn. pose proof add_root as Hroot.
  destruct add_new_coords as [Nl [Nr Nv]].
  pose proof add_parent_in as Hpin.
  assert (Hsplit : forall r, In r (nodes (nset w')) -> In r l \/ r = newNode).
  { intros r Hr. rewrite Hn in Hr. apply in_app_or in Hr.
    destruct Hr as [Hr | [Hr | []]]; auto. }
  constructor.
  - rewrite Hn. apply NoDup_snoc; [exact (ti_nodup _ _ Hinv) | exact Hfresh].
  - rewrite Hn, Hroot. apply in_or_app. left. exact (ti_root_in _ _ Hinv).
  - rewrite Hroot. destruct (add_old_coords _ (ti_root_in _ _ Hinv)) as [_ Hv].
    rewrite Hv. exact (ti_root_level _ _ Hinv).
  - rewrite Hroot. intros r Hr Hne. destruct (Hsplit r Hr) as [Hr' | ->].
    + apply (relabel_contains h h' _ _ (add_map_increasing ins)).
      * apply add_old_coords. exact (ti_root_in _ _ Hinv).
      * now apply add_old_coords.
      * exact (ti_root_top _ _ Hinv r Hr' Hne).
    + destruct (add_new_rel _ (ti_root_in _ _ Hinv)) as [[_ C] | [Hnp [Hnc _]]];
        [exact C | exfalso].
      apply Hnc. apply (ti_root_top _ _ Hinv); [exact Hpin | congruence].
  - intros r Hr. destruct (Hsplit r Hr) as [Hr' | ->].
    + apply (relabel_lt h h' _ _ (add_map_increasing ins)).
      * now apply add_old_coords.
      * apply (coord_range _ _ Hinv r Hr').
    + rewrite Nl, Nr. lia.
  - intros a b Ha Hb Hne.
    destruct (Hsplit a Ha) as [Ha' | ->], (Hsplit b Hb) as [Hb' | ->].
    + apply (relabel_laminar h h' _ _ (add_map_increasing ins));
        try (now apply add_old_coords).
      exact (ti_laminar _ _ Hinv a b Ha' Hb' Hne).
    + destruct (add_new_rel a Ha') as [[_ C] | [_ [_ Dj]]]; auto.
    + destruct (add_new_rel b Hb') as [[_ C] | [_ [_ Dj]]]; auto.
      left. unfold disjoint in *. tauto.
    + congruence.
  - intros r Hr. unfold enclosing. rewrite Hn, filter_app, length_app.
    destruct (Hsplit r Hr) as [Hr' | ->].
    + destruct (add_old_coords r Hr') as [Hrel Hv].
      rewrite Hv, (ti_level _ _ Hinv r Hr'). unfold enclosing. simpl.
      rewrite (add_no_inner r Hr'). simpl. rewrite Nat.add_0_r.
      f_equal. apply count_ext. intros c Hc. symmetry.
      apply (relabel_containsb h h' _ _ (add_map_increasing ins));
        [now apply add_old_coords | exact Hrel].
    + simpl. assert (Hself : containsb h' newNode newNode = false).
      { unfold containsb. rewrite Z.ltb_irrefl. reflexivity. }
      rewrite Hself. simpl. rewrite Nat.add_0_r, Nv, (ti_level _ _ Hinv p Hpin).
      unfold enclosing.
      rewrite (count_add_one l (ti_nodup _ _ Hinv) p
                 (fun c => containsb h c p) (fun c => containsb h' c newNode) Hpin).
      * lia.
      * unfold containsb. rewrite Z.ltb_irrefl. reflexivity.
      * intros c Hc.
        destruct (add_new_rel c Hc) as [[Hor C] | [Hnp [Hnc Dj]]].
        -- apply containsb_spec in C. rewrite C. symmetry. apply orb_true_iff.
           destruct Hor as [-> | Hor];
             [left; apply Nat.eqb_refl | right; now apply containsb_spec].
        -- assert (E1 : containsb h' c newNode = false).
           { apply not_true_is_false. intros C. apply containsb_spec in C.
             unfold contains, disjoint in *. rewrite Nl, Nr in *. lia. }
           assert (E2 : containsb h c p = false).
           { apply not_true_is_false. intros C. now apply containsb_spec in C. }
           apply Nat.eqb_neq in Hnp. rewrite E1, E2, Hnp. reflexivity.
  - intros r Hr. destruct (Hsplit r Hr) as [Hr' | ->].
    + destruct (add_old_coords r Hr') as [[_ [_ [El Er]]] _].
      pose proof (coord_range _ _ Hinv r Hr').
      rewrite El, Er. unfold add_map. cases_cmp; lia.
    + pose proof (coord_range _ _ Hinv p Hpin). rewrite Nl, Nr. lia.
  - rewrite Hn, length_app. simpl. pose proof (ti_size _ _ Hinv). lia.
Qed.

End AddInvariant.

Lemma count_filter (f k : ref -> bool) (l : list ref) :
  (forall c, In c l -> f c = true -> k c = true) ->
  length (filter f (filter k l)) = length (filter f l).
Proof.
  induction l as [|a l IH]; simpl; intros H; [reflexivity|].
  assert (IH' : length (filter f (filter k l)) = length (filter f l)).
  { apply IH. intros c Hc. apply H. now right. }
  destruct (f a) eqn:Fa.
  - rewrite (H a (or_introl eq_refl) Fa). simpl. rewrite Fa. simpl. lia.
  - destruct (k a); simpl; rewrite ?Fa; exact IH'.
Qed.

(** ** Delete keeps the invariants *)

Section DeleteInvariant.

Variable B : Z.
Variable w : World.
Variable node : ref.
Hypothesis Hinv : tree_inv B w.
Hypothesis HB : B <= 2 ^ 61.
Hypothesis Hin : In node (nodes (nset w)).
Hypothesis Hroot : node <> rootNode (nset w).

Local Abbreviation h := (heap w).
Local Abbreviation l := (nodes (nset w)).
Local Abbreviation nl := (GetLeft (heap w) node).
Local Abbreviation nr := (GetRight (heap w) node).
Local Abbreviation w' := (snd (Delete (Some node) w)).
Local Abbreviation h' := (heap (snd (Delete (Some node) w))).

Lemma del_nodes :
  nodes (nset w') = filter (fun r => negb (withinb h r node)) l /\
  rootNode (nset w') = rootNode (nset w).
Proof.
  destruct (Delete_result w node (ti_nodup _ _ Hinv) Hin Hroot) as [h1 [Hdel _]].
  rewrite Hdel. split; reflexivity.
Qed.

Lemma del_survivor (r : ref) :
  In r (nodes (nset w')) <-> In r l /\ withinb h r node = false.
Proof.
  rewrite (proj1 del_nodes), filter_In, negb_true_iff. reflexivity.
Qed.

(** A survivor lies before, after or around the deleted node. *)
Lemma del_position (r : ref) :
  In r l -> withinb h r node = false ->
  r <> node /\
  (GetRight h r < nl \/ nr < GetLeft h r \/ (GetLeft h r < nl /\ nr < GetRight h r)).
Proof.
  intros Hr Hw.
  assert (Hne : r <> node) by (intros ->; rewrite withinb_self in Hw; discriminate).
  split; [exact Hne|].
  destruct (ti_laminar _ _ Hinv r node Hr Hin Hne) as [[D | D] | [[C1 C2] | [C1 C2]]];
    try tauto.
  exfalso. revert Hw. unfold withinb. cases_cmp; try discriminate; lia.
Qed.

Lemma del_coords (r : ref) :
  In r (nodes (nset w')) ->
  relabeled h h' (outside nl nr) (delete_map nl nr) r /\ GetLevel h' r = GetLevel h r.
Proof.
  intros Hr. apply del_survivor in Hr. destruct Hr as [Hr Hw].
  destruct (Delete_result w node (ti_nodup _ _ Hinv) Hin Hroot) as [h1 [Hdel [Hkept _]]].
  rewrite Hdel. unfold relabeled, GetLeft, GetRight, GetLevel. simpl.
  rewrite (Hkept r Hr Hw).
  pose proof (coord_range _ _ Hinv r Hr) as Hc.
  pose proof (coord_range _ _ Hinv node Hin) as Hnc.
  destruct (del_position r Hr Hw) as [_ Hpos].
  unfold GetLeft, GetRight in *.
  destruct (close_node_coords (NodeLeft (h node)) (NodeRight (h node)) (h r))
    as [Cr [Cl Cv]]; try (unfold small; lia).
  rewrite Cr, Cl, Cv. unfold delete_map, outside. cases_cmp; repeat split; lia.
Qed.

Lemma del_increasing : increasing_on (outside nl nr) (delete_map nl nr).
Proof.
  apply delete_map_increasing. pose proof (coord_range _ _ Hinv node Hin). lia.
Qed.

(** The members around a survivor survive. *)
Lemma del_enclosing_survive (r c : ref) :
  In r (nodes (nset w')) -> In c l -> containsb h c r = true ->
  negb (withinb h c node) = true.
Proof.
  intros Hr Hc C. apply del_survivor in Hr. destruct Hr as [Hr Hw].
  apply containsb_spec in C. destruct C as [C1 C2].
  apply negb_true_iff. apply not_true_is_false. intros W.
  revert Hw W. unfold withinb. cases_cmp; try discriminate; lia.
Qed.

Theorem Delete_keeps_invariant : tree_inv B w'.
Proof.
  destruct del_nodes as [Hn Hrt].
  assert (Hsub : forall r, In r (nodes (nset w')) -> In r l).
  { intros r Hr. now apply del_survivor in Hr. }
  assert (Hrin : In (rootNode (nset w)) (nodes (nset w'))).
  { apply del_survivor. split; [exact (ti_root_in _ _ Hinv)|].
    destruct (ti_root_top _ _ Hinv node Hin Hroot) as [C1 C2].
    pose proof (coord_range _ _ Hinv node Hin).
    unfold withinb. cases_cmp; try reflexivity; lia. }
  constructor.
  - rewrite Hn. apply NoDup_filter. exact (ti_nodup _ _ Hinv).
  - rewrite Hrt. exact Hrin.
  - rewrite Hrt, (proj2 (del_coords _ Hrin)). exact (ti_root_level _ _ Hinv).
  - rewrite Hrt. intros r Hr Hne.
    apply (relabel_contains h h' _ _ del_increasing); try now apply del_coords.
    apply (ti_root_top _ _ Hinv); auto.
  - intros r Hr. apply (relabel_lt h h' _ _ del_increasing); [now apply del_coords|].
    apply (coord_range _ _ Hinv r); auto.
  - intros a b Ha Hb Hne.
    apply (relabel_laminar h h' _ _ del_increasing); try now apply del_coords.
    apply (ti_laminar _ _ Hinv); auto.
  - intros r Hr. rewrite (proj2 (del_coords r Hr)), (ti_level _ _ Hinv r (Hsub r Hr)).
    unfold enclosing. f_equal. rewrite Hn.
    rewrite <- (count_filter (fun c => containsb h c r)
                             (fun c => negb (withinb h c node)) l)
      by (intros c Hc C; now apply (del_enclosing_survive r c)).
    rewrite <- Hn. apply count_ext. intros c Hc. symmetry.
    apply (relabel_containsb h h' _ _ del_increasing); now apply del_coords.
  - intros r Hr. destruct (del_coords r Hr) as [[Dl [Dr [El Er]]] _].
    pose proof (coord_range _ _ Hinv r (Hsub r Hr)).
    pose proof (coord_range _ _ Hinv node Hin).
    rewrite El, Er. unfold delete_map, outside in *. cases_cmp; lia.
  - rewrite Hn. pose proof (ti_size _ _ Hinv).
    pose proof (filter_length_le (fun r => negb (withinb h r node)) l). lia.
Qed.

End DeleteInvariant.

(** ** The sort of [branch] *)

Lemma insert_perm (h : Heap) (x : ref) (l : list ref) :
  Permutation (insert h x l) (x :: l).
Proof.
  induction l as [|y l IH]; simpl; [reflexivity|].
  destruct (GetLeft h x <? GetLeft h y); [reflexivity|].
  rewrite IH. apply perm_swap.
Qed.

Lemma sort_perm (h : Heap) (l : list ref) : Permutation (sort h l) l.
Proof.
  unfold sort.
  assert (H : forall acc, Permutation (fold_left (fun acc x => insert h x acc) l acc)
                                      (l ++ acc)).
  { induction l as [|a l IH]; intros acc; simpl; [reflexivity|].
    rewrite IH, insert_perm. symmetry. apply Permutation_middle. }
  rewrite H, app_nil_r. reflexivity.
Qed.

Lemma sort_In (h : Heap) (l : list ref) (r : ref) : In r (sort h l) <-> In r l.
Proof.
  split; apply Permutation_in; [apply sort_perm | symmetry; apply sort_perm].
Qed.

Lemma sort_NoDup (h : Heap) (l : list ref) : NoDup l -> NoDup (sort h l).
Proof. apply Permutation_NoDup. symmetry. apply sort_perm. Qed.

(** ** What a successful Move leaves behind *)

Lemma Move_result (w w' : World) (node : ref) (parent_arg : option ref) :
  NoDup (nodes (nset w)) ->
  In node (nodes (nset w)) ->
  Move (Some node) parent_arg w = (Returns None, w') ->
  let h := heap w in
  let p := effective_parent w parent_arg in
  (GetLevel h node <> 0 /\ withinb h p node = false /\
   exists cp, parent (nset w) h node = Some cp /\ cp <> p) /\
  nset w' = mkNestedSet (sort h (nodes (nset w))) (rootNode (nset w)) (maxId (nset w)) /\
  forall r,
    (In r (nodes (nset w)) -> withinb h r node = true ->
     heap w' r = translate_node (move_skewEdit h node p) (move_skewLevel h node p)
                                (move_shift h node p (h r))) /\
    (In r (nodes (nset w)) -> withinb h r node = false ->
     heap w' r = move_shift h node p (h r)) /\
    (~ In r (nodes (nset w)) -> heap w' r = h r).
Proof.
  intros Hnd Hin Hmove h p. unfold Move in Hmove.
  fold h in Hmove. fold (effective_parent w parent_arg) in Hmove. fold p in Hmove.
  destruct (GetLevel h node =? 0) eqn:Hlev; [discriminate|].
  change ((GetLeft h p >=? GetLeft h node) && (GetRight h p <=? GetRight h node))
    with (withinb h p node) in Hmove.
  destruct (withinb h p node) eqn:Hwithin; [discriminate|].
  destruct (parent (nset w) h node) as [cp|] eqn:Hcp; [|discriminate].
  destruct (Nat.eqb cp p) eqn:Hsame; [discriminate|].
  split.
  { split; [now apply Z.eqb_neq|]. split; [reflexivity|].
    exists cp. split; [reflexivity | now apply Nat.eqb_neq]. }
  unfold branch in Hmove. cbn [nodes rootNode maxId] in Hmove.
  assert (Hex : exists_ (mkNestedSet (sort h (nodes (nset w))) (rootNode (nset w))
                                     (maxId (nset w))) node = true).
  { apply existsb_eqb_true. apply sort_In. exact Hin. }
  rewrite Hex in Hmove. cbn [negb nodes] in Hmove.
  set (toUpdate := filter (fun n => (GetLeft h n >=? GetLeft h node)
                                    && (GetRight h n <=? GetRight h node))
                          (sort h (nodes (nset w)))) in *.
  assert (HtoIn : forall r, In r toUpdate <-> In r (nodes (nset w)) /\ withinb h r node = true).
  { intros r. unfold toUpdate. rewrite filter_In, sort_In. reflexivity. }
  assert (HtoNd : NoDup toUpdate).
  { unfold toUpdate. apply NoDup_filter. now apply sort_NoDup. }
  pose proof (sort_NoDup h _ Hnd) as Hsnd.
  unfold move_skewEdit, move_shift, move_isUp, move_skewLevel, move_skewTree, move_rightNear.
  destruct (Int64.sub (GetRight h p) 1 <? GetRight h node); cbv zeta in Hmove;
    injection Hmove as Hw'; subst w'; cbn [heap nset];
    (split; [reflexivity|]); intros r.
  - pose proof (fold_pointwise _ _
                  (shift_up_at (GetLeft h node) (Int64.sub (GetRight h p) 1)
                               (Int64.add (Int64.sub (GetRight h node) (GetLeft h node)) 1))
                  (sort h (nodes (nset w))) h r Hsnd) as [S1 S2].
    pose proof (fold_pointwise _ _
                  (translate_at (Int64.add (Int64.sub (Int64.sub (GetRight h p) 1) (GetLeft h node)) 1)
                                (Int64.add (Int64.sub (GetLevel h p) (GetLevel h node)) 1))
                  toUpdate
                  (fold_left (shift_up (GetLeft h node) (Int64.sub (GetRight h p) 1)
                                (Int64.add (Int64.sub (GetRight h node) (GetLeft h node)) 1))
                             (sort h (nodes (nset w))) h) r HtoNd) as [T1 T2].
    rewrite sort_In in S1, S2. rewrite HtoIn in T1, T2.
    repeat split.
    + intros Hr Hw. rewrite T1 by auto. rewrite S1 by auto. reflexivity.
    + intros Hr Hw. rewrite T2 by (intros [_ E]; congruence). now apply S1.
    + intros Hr. rewrite T2 by (intros [E _]; contradiction). now apply S2.
  - pose proof (fold_pointwise _ _
                  (shift_down_at (GetRight h node) (Int64.sub (GetRight h p) 1)
                                 (Int64.add (Int64.sub (GetRight h node) (GetLeft h node)) 1))
                  (sort h (nodes (nset w))) h r Hsnd) as [S1 S2].
    pose proof (fold_pointwise _ _
                  (translate_at (Int64.sub (Int64.add (Int64.sub (Int64.sub (GetRight h p) 1) (GetLeft h node)) 1)
                                           (Int64.add (Int64.sub (GetRight h node) (GetLeft h node)) 1))
                                (Int64.add (Int64.sub (GetLevel h p) (GetLevel h node)) 1))
                  toUpdate
                  (fold_left (shift_down (GetRight h node) (Int64.sub (GetRight h p) 1)
                                (Int64.add (Int64.sub (GetRight h node) (GetLeft h node)) 1))
                             (sort h (nodes (nset w))) h) r HtoNd) as [T1 T2].
    rewrite sort_In in S1, S2. rewrite HtoIn in T1, T2.
    repeat split.
    + intros Hr Hw. rewrite T1 by auto. rewrite S1 by auto. reflexivity.
    + intros Hr Hw. rewrite T2 by (intros [_ E]; congruence). now apply S1.
    + intros Hr. rewrite T2 by (intros [E _]; contradiction). now apply S2.
Qed.

(** ** Move keeps the invariants *)

(** Where the renumbering of [Move] puts an endpoint outside the moved
    subtree: before the subtree's new place if it was before the insertion
    point [pr], after it otherwise. *)
Lemma move_outer_side (nl nr pr x : Z) :
  nl <= nr -> pr < nl \/ nr < pr -> outside nl nr x ->
  (x < pr -> move_outer nl nr pr x < move_inner nl nr pr nl) /\
  (pr <= x -> move_inner nl nr pr nr < move_outer nl nr pr x).
Proof.
  intros Hn Hp Hx. unfold move_outer, move_inner, outside in *.
  cases_cmp; split; intros; lia.
Qed.

Lemma move_inner_side (nl nr pr x : Z) :
  nl <= x <= nr ->
  move_inner nl nr pr nl <= move_inner nl nr pr x <= move_inner nl nr pr nr.
Proof. intros Hx. unfold move_inner. cases_cmp; lia. Qed.

Section MoveInvariant.

Variable B : Z.
Variables w w' : World.
Variables (node : ref) (parent_arg : option ref).
Hypothesis Hinv : tree_inv B w.
Hypothesis HB : B <= 2 ^ 61.
Hypothesis Hin : In node (nodes (nset w)).
Hypothesis Hp : parent_ok w parent_arg.
Hypothesis Hmove : Move (Some node) parent_arg w = (Returns None, w').

Local Abbreviation h := (heap w).
Local Abbreviation h' := (heap w').
Local Abbreviation l := (nodes (nset w)).
Local Abbreviation p := (effective_parent w parent_arg).
Local Abbreviation nl := (GetLeft (heap w) node).
Local Abbreviation nr := (GetRight (heap w) node).
Local Abbreviation pr := (GetRight (heap w) (effective_parent w parent_arg)).

Lemma mv_parent_in : In p l.
Proof.
  unfold effective_parent, parent_ok in *.
  destruct parent_arg; [assumption | exact (ti_root_in _ _ Hinv)].
Qed.

Lemma mv_nodes : nodes (nset w') = sort h l /\ rootNode (nset w') = rootNode (nset w).
Proof.
  destruct (Move_result w w' node parent_arg (ti_nodup _ _ Hinv) Hin Hmove)
    as [_ [Hs _]].
  rewrite Hs. split; reflexivity.
Qed.

Lemma mv_member (r : ref) : In r (nodes (nset w')) <-> In r l.
Proof. rewrite (proj1 mv_nodes). apply sort_In. Qed.

Lemma mv_node_range : 0 <= nl /\ nl < nr /\ nr < B.
Proof. exact (coord_range _ _ Hinv node Hin). Qed.

Lemma mv_node_not_root : node <> rootNode (nset w).
Proof.
  destruct (Move_result w w' node parent_arg (ti_nodup _ _ Hinv) Hin Hmove)
    as [[Hlev _] _].
  intros E. apply Hlev. rewrite E. exact (ti_root_level _ _ Hinv).
Qed.

(** The parent lies before the node, after it, or around it. *)
Lemma mv_parent_position :
  p <> node /\
  (pr < nl \/ nr < GetLeft h p \/ (GetLeft h p < nl /\ nr < pr)).
Proof.
  destruct (Move_result w w' node parent_arg (ti_nodup _ _ Hinv) Hin Hmove)
    as [[_ [Hw _]] _].
  assert (Hne : p <> node) by (intros E; rewrite E, withinb_self in Hw; discriminate).
  split; [exact Hne|].
  destruct (ti_laminar _ _ Hinv p node mv_parent_in Hin Hne)
    as [[D | D] | [[C1 C2] | [C1 C2]]]; try tauto.
  exfalso. revert Hw. unfold withinb. cases_cmp; try discriminate; lia.
Qed.

Lemma mv_gap : pr < nl \/ nr < pr.
Proof.
  destruct mv_parent_position as [_ H].
  pose proof (coord_range _ _ Hinv p mv_parent_in). lia.
Qed.

Lemma mv_within_spec (r : ref) :
  withinb h r node = true <-> nl <= GetLeft h r /\ GetRight h r <= nr.
Proof.
  unfold withinb. rewrite andb_true_iff, Z.geb_leb, !Z.leb_le. reflexivity.
Qed.

(** A member outside the moved subtree lies before, after or around the
    moved node. *)
Lemma mv_outer_position (r : ref) :
  In r l -> withinb h r node = false ->
  r <> node /\ outside nl nr (GetLeft h r) /\ outside nl nr (GetRight h r).
Proof.
  intros Hr Hw.
  assert (Hne : r <> node) by (intros ->; rewrite withinb_self in Hw; discriminate).
  split; [exact Hne|].
  pose proof (coord_range _ _ Hinv r Hr).
  destruct (ti_laminar _ _ Hinv r node Hr Hin Hne) as [[D | D] | [[C1 C2] | [C1 C2]]];
    unfold outside; try lia.
  exfalso. apply not_true_iff_false in Hw. apply Hw. apply mv_within_spec. lia.
Qed.

(** The coordinates of a member of the moved subtree after the move. *)
Lemma mv_inner_coords (r : ref) :
  In r l -> withinb h r node = true ->
  relabeled h h' (fun _ => True) (move_inner nl nr pr) r /\
  GetLevel h' r = GetLevel h r + (GetLevel h p - GetLevel h node + 1).
Proof.
  intros Hr Hw.
  destruct (Move_result w w' node parent_arg (ti_nodup _ _ Hinv) Hin Hmove)
    as [_ [_ Hheap]].
  destruct (Hheap r) as [Hi _]. specialize (Hi Hr Hw).
  apply mv_within_spec in Hw.
  pose proof (coord_range _ _ Hinv r Hr) as Hc.
  pose proof (level_range _ _ Hinv r Hr) as Hv.
  pose proof mv_node_range as Hn.
  pose proof (level_range _ _ Hinv node Hin) as Hnv.
  pose proof (coord_range _ _ Hinv p mv_parent_in) as Hpc.
  pose proof (level_range _ _ Hinv p mv_parent_in) as Hpv.
  pose proof mv_gap as Hgap.
  unfold relabeled, GetLeft, GetRight, GetLevel in *. rewrite Hi.
  unfold move_skewEdit, move_shift, move_isUp, move_skewLevel, move_skewTree,
    move_rightNear, move_inner, GetLeft, GetRight, GetLevel.
  unfold translate_node, shift_up_node, shift_down_node. cbv zeta.
  unwrap. prune_cmp; unwrap; repeat split; lia.
Qed.

(** The coordinates of a member outside the moved subtree after the move. *)
Lemma mv_outer_coords (r : ref) :
  In r l -> withinb h r node = false ->
  relabeled h h' (outside nl nr) (move_outer nl nr pr) r /\
  GetLevel h' r = GetLevel h r.
Proof.
  intros Hr Hw.
  destruct (Move_result w w' node parent_arg (ti_nodup _ _ Hinv) Hin Hmove)
    as [_ [_ Hheap]].
  destruct (Hheap r) as [_ [Ho _]]. specialize (Ho Hr Hw).
  destruct (mv_outer_position r Hr Hw) as [_ [Ol Or]].
  pose proof (coord_range _ _ Hinv r Hr) as Hc.
  pose proof mv_node_range as Hn.
  pose proof (coord_range _ _ Hinv p mv_parent_in) as Hpc.
  pose proof mv_gap as Hgap.
  unfold relabeled, outside, GetLeft, GetRight, GetLevel in *. rewrite Ho.
  unfold move_shift, move_isUp, move_skewTree, move_rightNear, move_outer,
    GetLeft, GetRight.
  unfold shift_up_node, shift_down_node. cbv zeta.
  unwrap. prune_cmp; unwrap; repeat split; lia.
Qed.

Lemma mv_outer_increasing : increasing_on (outside nl nr) (move_outer nl nr pr).
Proof.
  apply move_outer_increasing; [pose proof mv_node_range; lia | exact mv_gap].
Qed.

(** A member [c] outside the moved subtree encloses the insertion point
    exactly when it is the new parent or encloses it. *)
Lemma mv_around_gap (c : ref) :
  In c l ->
  (GetLeft h c < pr <= GetRight h c <-> c = p \/ contains h c p).
Proof.
  intros Hc.
  pose proof (coord_range _ _ Hinv c Hc).
  pose proof (coord_range _ _ Hinv p mv_parent_in).
  destruct (Nat.eq_dec c p) as [-> | Hne]; [split; [auto | lia]|].
  destruct (ti_laminar _ _ Hinv c p Hc mv_parent_in Hne)
    as [[D | D] | [[C1 C2] | [C1 C2]]]; unfold contains;
    (split; [intros; right; lia | intros [E | [E1 E2]]; [contradiction | lia]]).
Qed.

(** A member outside the moved subtree, against a member of it, after the
    move: around it if it encloses the insertion point, else apart. *)
Lemma mv_mixed (c r : ref) :
  In c l -> withinb h c node = false ->
  In r l -> withinb h r node = true ->
  ((GetLeft h c < pr <= GetRight h c) /\ contains h' c r) \/
  (~ (GetLeft h c < pr <= GetRight h c) /\ disjoint h' c r /\ ~ contains h' c r).
Proof.
  intros Hc Hcw Hr Hrw.
  destruct (mv_outer_coords c Hc Hcw) as [[Dl [Dr [El Er]]] _].
  destruct (mv_inner_coords r Hr Hrw) as [[_ [_ [Fl Fr]]] _].
  apply mv_within_spec in Hrw.
  pose proof (coord_range _ _ Hinv c Hc) as Hcc.
  pose proof (coord_range _ _ Hinv r Hr) as Hrc.
  pose proof mv_node_range as Hn.
  assert (Hnle : nl <= nr) by lia.
  destruct (move_outer_side nl nr pr _ Hnle mv_gap Dl) as [L1 L2].
  destruct (move_outer_side nl nr pr _ Hnle mv_gap Dr) as [R1 R2].
  assert (Hl : nl <= GetLeft h r <= nr) by lia.
  assert (Hr' : nl <= GetRight h r <= nr) by lia.
  pose proof (move_inner_side nl nr pr _ Hl) as Il.
  pose proof (move_inner_side nl nr pr _ Hr') as Ir.
  pose proof (move_inner_increasing nl nr pr _ _ I I (proj1 (proj2 Hrc))) as Ilt.
  unfold contains, disjoint. rewrite El, Er, Fl, Fr.
  destruct (Z_lt_le_dec (GetLeft h c) pr) as [A | A];
    destruct (Z_lt_le_dec (GetRight h c) pr) as [A' | A'].
  - right. specialize (L1 A). specialize (R1 A'). lia.
  - left. specialize (L1 A). specialize (R2 A'). lia.
  - lia.
  - right. specialize (L2 A). specialize (R2 A'). lia.
Qed.

(** No member of the moved subtree is around a member outside it, before
    the move or after it. *)
Lemma mv_inner_not_around (c r : ref) :
  In c l -> withinb h c node = true ->
  In r l -> withinb h r node = false ->
  containsb h c r = false /\ containsb h' c r = false.
Proof.
  intros Hc Hcw Hr Hrw. split; apply not_true_is_false; intros C;
    apply containsb_spec in C.
  - apply mv_within_spec in Hcw. destruct C as [C1 C2].
    apply not_true_iff_false in Hrw. apply Hrw. apply mv_within_spec. lia.
  - pose proof (relabel_lt h h' _ _ mv_outer_increasing r
                  (proj1 (mv_outer_coords r Hr Hrw))
                  (proj1 (proj2 (coord_range _ _ Hinv r Hr)))) as Hlt.
    destruct (mv_mixed r c Hr Hrw Hc Hcw) as [[_ [D1 D2]] | [_ [D _]]];
      unfold contains, disjoint in *; lia.
Qed.

(** Before the move, a member outside the moved subtree is around a member
    of the subtree exactly when it is around the moved node. *)
Lemma mv_outer_around_old (c r : ref) :
  In c l -> withinb h c node = false ->
  In r l -> withinb h r node = true ->
  containsb h c r = containsb h c node.
Proof.
  intros Hc Hcw Hr Hrw.
  destruct (mv_outer_position c Hc Hcw) as [_ [Ol Or]].
  apply mv_within_spec in Hrw.
  pose proof (coord_range _ _ Hinv c Hc). pose proof (coord_range _ _ Hinv r Hr).
  pose proof mv_node_range.
  unfold containsb, outside in *. cases_cmp; try reflexivity; lia.
Qed.

Lemma mv_parent_outer : withinb h p node = false.
Proof.
  destruct (Move_result w w' node parent_arg (ti_nodup _ _ Hinv) Hin Hmove)
    as [[_ [Hw _]] _].
  exact Hw.
Qed.

Lemma mv_root_outer : withinb h (rootNode (nset w)) node = false.
Proof.
  destruct (ti_root_top _ _ Hinv node Hin mv_node_not_root) as [C1 C2].
  apply not_true_is_false. intros W. apply mv_within_spec in W. lia.
Qed.

Lemma mv_inner_relabel_containsb (c r : ref) :
  In c l -> withinb h c node = true -> In r l -> withinb h r node = true ->
  containsb h' c r = containsb h c r.
Proof.
  intros Hc Hcw Hr Hrw.
  apply (relabel_containsb h h' _ _ (move_inner_increasing nl nr pr));
    now apply mv_inner_coords.
Qed.

Lemma mv_outer_relabel_containsb (c r : ref) :
  In c l -> withinb h c node = false -> In r l -> withinb h r node = false ->
  containsb h' c r = containsb h c r.
Proof.
  intros Hc Hcw Hr Hrw.
  apply (relabel_containsb h h' _ _ mv_outer_increasing); now apply mv_outer_coords.
Qed.

(** The level of a member of the moved subtree counts the members around
    it after the move. *)
Lemma mv_inner_level (r : ref) :
  In r l -> withinb h r node = true ->
  GetLevel h' r = Z.of_nat (length (filter (fun c : ref => containsb h' c r) l)).
Proof.
  intros Hr Hrw.
  rewrite (proj2 (mv_inner_coords r Hr Hrw)).
  rewrite (ti_level _ _ Hinv r Hr), (ti_level _ _ Hinv p mv_parent_in),
    (ti_level _ _ Hinv node Hin).
  unfold enclosing.
  pose proof (count_split l (fun c : ref => withinb h c node)
                          (fun c : ref => containsb h' c r)) as S'.
  pose proof (count_split l (fun c : ref => withinb h c node)
                          (fun c : ref => containsb h c r)) as S0.
  assert (E1 : length (filter (fun c : ref => withinb h c node && containsb h' c r) l)
               = length (filter (fun c : ref => withinb h c node && containsb h c r) l)).
  { apply count_ext. intros c Hc. destruct (withinb h c node) eqn:Hcw; [|reflexivity].
    simpl. now apply mv_inner_relabel_containsb. }
  assert (E2 : length (filter (fun c : ref => negb (withinb h c node) && containsb h' c r) l)
               = S (length (filter (fun c : ref => containsb h c p) l))).
  { rewrite <- (count_add_one l (ti_nodup _ _ Hinv) p
                  (fun c : ref => containsb h c p)
                  (fun c : ref => Nat.eqb c p || containsb h c p) mv_parent_in);
      [| unfold containsb; rewrite Z.ltb_irrefl; reflexivity | reflexivity].
    apply count_ext. intros c Hc. destruct (withinb h c node) eqn:Hcw; simpl.
    - destruct (mv_inner_not_around c p Hc Hcw mv_parent_in mv_parent_outer) as [E _].
      rewrite E. destruct (Nat.eqb c p) eqn:Ecp; [|reflexivity].
      apply Nat.eqb_eq in Ecp. subst c. rewrite mv_parent_outer in Hcw. discriminate.
    - pose proof (mv_around_gap c Hc) as Hgap.
      destruct (mv_mixed c r Hc Hcw Hr Hrw) as [[G C] | [G [_ C]]].
      + apply containsb_spec in C. rewrite C. symmetry. apply orb_true_iff.
        destruct (proj1 Hgap G) as [-> | Hcp];
          [left; apply Nat.eqb_refl | right; now apply containsb_spec].
      + rewrite (not_true_is_false _ (fun T => C (proj1 (containsb_spec _ _ _) T))).
        symmetry. apply orb_false_iff. split.
        * apply Nat.eqb_neq. intros E. apply G. apply Hgap. now left.
        * apply not_true_is_false. intros T. apply containsb_spec in T.
          apply G. apply Hgap. now right. }
  assert (E3 : length (filter (fun c : ref => negb (withinb h c node) && containsb h c r) l)
               = length (filter (fun c : ref => containsb h c node) l)).
  { apply count_ext. intros c Hc. destruct (withinb h c node) eqn:Hcw; simpl.
    - symmetry. apply not_true_is_false. intros T. apply containsb_spec in T.
      apply mv_within_spec in Hcw. destruct T as [T1 T2]. lia.
    - now apply mv_outer_around_old. }
  lia.
Qed.

(** The level of a member outside the moved subtree still counts the
    members around it. *)
Lemma mv_outer_level (r : ref) :
  In r l -> withinb h r node = false ->
  GetLevel h' r = Z.of_nat (length (filter (fun c : ref => containsb h' c r) l)).
Proof.
  intros Hr Hrw.
  rewrite (proj2 (mv_outer_coords r Hr Hrw)), (ti_level _ _ Hinv r Hr).
  unfold enclosing. f_equal. apply count_ext. intros c Hc. symmetry.
  destruct (withinb h c node) eqn:Hcw.
  - destruct (mv_inner_not_around c r Hc Hcw Hr Hrw) as [E E']. congruence.
  - now apply mv_outer_relabel_containsb.
Qed.

Theorem Move_keeps_invariant : tree_inv B w'.
Proof.
  destruct mv_nodes as [Hn Hrt].
  pose proof mv_node_range as Hnr. pose proof mv_gap as Hgap.
  pose proof (coord_range _ _ Hinv p mv_parent_in) as Hpc.
  constructor.
  - rewrite Hn. apply sort_NoDup. exact (ti_nodup _ _ Hinv).
  - rewrite Hrt. apply mv_member. exact (ti_root_in _ _ Hinv).
  - rewrite Hrt, (proj2 (mv_outer_coords _ (ti_root_in _ _ Hinv) mv_root_outer)).
    exact (ti_root_level _ _ Hinv).
  - rewrite Hrt. intros r Hr Hne. apply mv_member in Hr.
    pose proof (ti_root_top _ _ Hinv r Hr Hne) as Htop.
    destruct (withinb h r node) eqn:Hrw.
    + destruct (mv_mixed _ r (ti_root_in _ _ Hinv) mv_root_outer Hr Hrw)
        as [[_ C] | [G _]]; [exact C | exfalso].
      apply G. apply (mv_around_gap _ (ti_root_in _ _ Hinv)).
      destruct (Nat.eq_dec (rootNode (nset w)) p) as [E | E]; [now left | right].
      apply (ti_root_top _ _ Hinv); [exact mv_parent_in | congruence].
    + apply (relabel_contains h h' _ _ mv_outer_increasing); try assumption;
        apply mv_outer_coords; auto using mv_root_outer.
      exact (ti_root_in _ _ Hinv).
  - intros r Hr. apply mv_member in Hr.
    pose proof (coord_range _ _ Hinv r Hr) as Hc.
    destruct (withinb h r node) eqn:Hrw.
    + apply (relabel_lt h h' _ _ (move_inner_increasing nl nr pr));
        [now apply mv_inner_coords | lia].
    + apply (relabel_lt h h' _ _ mv_outer_increasing);
        [now apply mv_outer_coords | lia].
  - intros a b Ha Hb Hne. apply mv_member in Ha. apply mv_member in Hb.
    pose proof (ti_laminar _ _ Hinv a b Ha Hb Hne) as Hlam.
    destruct (withinb h a node) eqn:Haw, (withinb h b node) eqn:Hbw.
    + apply (relabel_laminar h h' _ _ (move_inner_increasing nl nr pr));
        try assumption; now apply mv_inner_coords.
    + destruct (mv_mixed b a Hb Hbw Ha Haw) as [[_ C] | [_ [D _]]]; [tauto|].
      left. unfold disjoint in *. tauto.
    + destruct (mv_mixed a b Ha Haw Hb Hbw) as [[_ C] | [_ [D _]]]; tauto.
    + apply (relabel_laminar h h' _ _ mv_outer_increasing);
        try assumption; now apply mv_outer_coords.
  - intros r Hr. apply mv_member in Hr. unfold enclosing.
    rewrite Hn, (count_perm _ _ _ (sort_perm h l)).
    destruct (withinb h r node) eqn:Hrw;
      [now apply mv_inner_level | now apply mv_outer_level].
  - intros r Hr. apply mv_member in Hr.
    pose proof (coord_range _ _ Hinv r Hr) as Hc.
    destruct (withinb h r node) eqn:Hrw.
    + destruct (mv_inner_coords r Hr Hrw) as [[_ [_ [El Er]]] _].
      apply mv_within_spec in Hrw. rewrite El, Er. unfold move_inner.
      cases_cmp; lia.
    + destruct (mv_outer_coords r Hr Hrw) as [[Dl [Dr [El Er]]] _].
      rewrite El, Er. unfold move_outer, outside in *. cases_cmp; lia.
  - rewrite Hn, (Permutation_length (sort_perm h l)). exact (ti_size _ _ Hinv).
Qed.

End MoveInvariant.

(** ** Sequences of successful operations *)

Lemma tree_inv_weaken (B B' : Z) (w : World) : tree_inv B w -> B <= B' -> tree_inv B' w.
Proof.
  intros [H1 H2 H3 H4 H5 H6 H7 H8 H9] HB. constructor; try assumption.
  - intros r Hr. specialize (H8 r Hr). lia.
  - lia.
Qed.

(** The freshly constructed set: the root alone, at (0, 1), level 0. *)
Lemma NewNestedSet_invariant (root : ref) (h0 : Heap) :
  GetLeft h0 root = 0 -> GetLevel h0 root = 0 ->
  tree_inv 2 (NewNestedSet root h0).
Proof.
  intros Hl Hv. unfold NewNestedSet.
  assert (El : GetLeft (SetRight root 1 h0) root = 0)
    by (unfold GetLeft, SetRight; rewrite upd_eq; exact Hl).
  assert (Er : GetRight (SetRight root 1 h0) root = 1)
    by (unfold GetRight, SetRight; rewrite upd_eq; reflexivity).
  assert (Ev : GetLevel (SetRight root 1 h0) root = 0)
    by (unfold GetLevel, SetRight; rewrite upd_eq; exact Hv).
  constructor; cbn [heap nset nodes rootNode].
  - constructor; [intros [] | constructor].
  - now left.
  - exact Ev.
  - intros r [<- | []] Hne. congruence.
  - intros r [<- | []]. lia.
  - intros a b [<- | []] [<- | []] Hne. congruence.
  - intros r [<- | []]. unfold enclosing, containsb. simpl.
    rewrite Z.ltb_irrefl. simpl. exact Ev.
  - intros r [<- | []]. lia.
  - simpl. lia.
Qed.

(** One admissible, successful operation keeps the invariants; only [Add]
    needs two more units of numbering. *)
Lemma step_invariant (B : Z) (o : op) (w w' : World) :
  tree_inv B w -> B <= 2 ^ 61 ->
  admissible o w = true ->
  apply_op o w = (Returns None, w') ->
  tree_inv (B + 2) w'.
Proof.
  intros Hinv HB Hadm Hrun. destruct o as [newNode pa | node | node pa]; simpl in *.
  - destruct newNode as [n|].
    + apply negb_true_iff in Hadm. apply existsb_eqb_false in Hadm.
      assert (Hp : parent_ok w pa).
      { destruct pa as [q|]; simpl; [|exact I]. apply existsb_eqb_true.
        unfold Add in Hrun. fold (exists_ (nset w) q).
        destruct (exists_ (nset w) q); [reflexivity | discriminate]. }
      replace w' with (snd (Add (Some n) pa w)) by (rewrite Hrun; reflexivity).
      now apply Add_keeps_invariant.
    + unfold Add in Hrun.
      destruct pa as [q|]; [destruct (negb (exists_ (nset w) q))|]; discriminate.
  - destruct node as [n|]; [|discriminate].
    apply existsb_eqb_true in Hadm.
    assert (Hroot : n <> rootNode (nset w)).
    { intros E. unfold Delete in Hrun. apply Nat.eqb_eq in E. rewrite E in Hrun.
      discriminate. }
    replace w' with (snd (Delete (Some n) w)) by (rewrite Hrun; reflexivity).
    apply tree_inv_weaken with (B := B); [|lia].
    now apply Delete_keeps_invariant.
  - destruct node as [n|]; [|discriminate].
    apply andb_prop in Hadm. destruct Hadm as [Hn Hq].
    apply existsb_eqb_true in Hn.
    assert (Hp : parent_ok w pa).
    { destruct pa as [q|]; simpl; [|exact I]. now apply existsb_eqb_true. }
    apply tree_inv_weaken with (B := B); [|lia].
    now apply (Move_keeps_invariant B w w' n pa).
Qed.

Lemma run_invariant (ops : list op) :
  forall (B : Z) (w w' : World),
    tree_inv B w -> B + 2 * Z.of_nat (length ops) <= 2 ^ 61 + 2 ->
    run ops w = Some w' ->
    tree_inv (B + 2 * Z.of_nat (length ops)) w'.
Proof.
  induction ops as [|o ops IH]; intros B w w' Hinv HB Hrun; simpl in Hrun.
  - injection Hrun as <-. simpl. now rewrite Z.add_0_r.
  - destruct (admissible o w) eqn:Hadm; [|discriminate].
    destruct (apply_op o w) as [[[e|]|] w1] eqn:Hop; try discriminate.
    cbn [length] in *.
    replace (B + 2 * Z.of_nat (S (length ops)))
      with ((B + 2) + 2 * Z.of_nat (length ops)) in * by lia.
    apply (IH (B + 2) w1); [|lia | exact Hrun].
    apply (step_invariant B o w w1); try assumption. lia.
Qed.

(** ** A parent that is not a member *)

(** C1 fails on the code: [Move] never tests that [parent] is a member, as
    [Add] does.  After [Add(A, nil)] and [Add(B, nil)] on a fresh set,
    [Move(A, D)] for the member A and a node D that was never added (left
    0, right 0, level 0) returns nil, moves the root's [left] from 0 to 2
    and puts A at (0, 1), level 1.  A then lies outside the root's
    interval and within no member's, so its level, 1, is not the number of
    members around it, 0. *)
Theorem Move_under_non_member :
  let w' := snd (Move (Some nA) (Some nD) scenario2) in
  option_map coords
    (run [OpAdd (Some nA) None; OpAdd (Some nB) None] (NewNestedSet nR fresh_heap))
    = Some (coords scenario2) /\
  coords scenario2 = [(nR, 0, 5, 0); (nA, 1, 2, 1); (nB, 3, 4, 1)] /\
  In nA (nodes (nset scenario2)) /\
  ~ In nD (nodes (nset scenario2)) /\
  fst (Move (Some nA) (Some nD) scenario2) = Returns None /\
  coords w' = [(nR, 2, 5, 0); (nA, 0, 1, 1); (nB, 3, 4, 1)] /\
  enclosing (heap w') (nodes (nset w')) nA = [] /\
  ~ contains (heap w') (rootNode (nset w')) nA /\
  ~ consistent w'.
Proof.
  cbv zeta.
  assert (Hin : In nA (nodes (nset (snd (Move (Some nA) (Some nD) scenario2)))))
    by (apply In_check; vm_compute; reflexivity).
  assert (Hlev : GetLevel (heap (snd (Move (Some nA) (Some nD) scenario2))) nA = 1)
    by (vm_compute; reflexivity).
  assert (Henc : enclosing (heap (snd (Move (Some nA) (Some nD) scenario2)))
                           (nodes (nset (snd (Move (Some nA) (Some nD) scenario2)))) nA = [])
    by (vm_compute; reflexivity).
  split; [vm_compute; reflexivity|].
  split; [vm_compute; reflexivity|].
  split; [apply In_check; vm_compute; reflexivity|].
  split; [apply notIn_check; vm_compute; reflexivity|].
  split; [vm_compute; reflexivity|].
  split; [vm_compute; reflexivity|].
  split; [exact Henc|].
  split.
  - intros C. apply containsb_spec in C. vm_compute in C. discriminate.
  - intros Hc. pose proof (ti_level _ _ Hc nA Hin) as E.
    rewrite Henc, Hlev in E. discriminate.
Qed.

(** ** Runs whose moves go under members *)

(** X18.  Start from a freshly constructed set whose root was zero-valued,
    and run any sequence of fewer than [2^59] successful operations, each
    [Add] of a node that is not yet a member, each [Delete] of a member,
    each [Move] of a member under a member or under nil.  Then the slice
    holds each pointer once; every member has [left < right]; two distinct
    members have intervals that are disjoint or strictly nested; a member's
    level is the number of members whose interval strictly contains its own;
    and no two distinct members share an endpoint value. *)
Theorem run_consistent (ops : list op) (root : ref) (h0 : Heap) (w : World) :
  GetLeft h0 root = 0 ->
  GetLevel h0 root = 0 ->
  Z.of_nat (length ops) < 2 ^ 59 ->
  run ops (NewNestedSet root h0) = Some w ->
  let h := heap w in
  let l := nodes (nset w) in
  consistent w /\
  NoDup l /\
  (forall r, In r l -> GetLeft h r < GetRight h r) /\
  (forall a b, In a l -> In b l -> a <> b ->
               disjoint h a b \/ contains h a b \/ contains h b a) /\
  (forall r, In r l -> GetLevel h r = Z.of_nat (length (enclosing h l r))) /\
  (forall a b, In a l -> In b l -> a <> b -> endpoints_differ h a b).
Proof.
  intros Hl Hv Hlen Hrun h l.
  assert (Hc : consistent w).
  { apply tree_inv_weaken with (B := 2 + 2 * Z.of_nat (length ops)); [|lia].
    apply (run_invariant ops 2 (NewNestedSet root h0) w);
      [now apply NewNestedSet_invariant | lia | exact Hrun]. }
  split; [exact Hc|].
  split; [exact (ti_nodup _ _ Hc)|].
  split; [exact (ti_lt _ _ Hc)|].
  split; [exact (ti_laminar _ _ Hc)|].
  split; [exact (ti_level _ _ Hc)|].
  exact (endpoints_distinct _ _ Hc).
Qed.

(** The scenario's three inserts, then C moved under B and A deleted: the
    run succeeds and leaves R at (0, 5), B at (1, 4) and C at (2, 3). *)
Lemma run_consistent_witness :
  match run demo_ops (NewNestedSet nR fresh_heap) with
  | Some w => consistent w
  | None => False
  end /\
  option_map coords (run demo_ops (NewNestedSet nR fresh_heap))
    = Some [(nR, 0, 5, 0); (nC, 2, 3, 2); (nB, 1, 4, 1)].
Proof.
  split; [|vm_compute; reflexivity].
  assert (Hlen : Z.of_nat (length demo_ops) < 2 ^ 59) by (vm_compute; reflexivity).
  pose proof (run_consistent demo_ops nR fresh_heap) as H.
  destruct (run demo_ops (NewNestedSet nR fresh_heap)) as [w|] eqn:E.
  - exact (proj1 (H w eq_refl eq_refl Hlen eq_refl)).
  - vm_compute in E. discriminate.
Defined.

(** ** Move, there and back *)

(** C6, amended.  In a consistent collection let A be the parent of the
    member N, and let [Move(N, B)] to a member B and then [Move(N, A)] both
    succeed.  Then N has the level it had before the first move; and if N
    was the last child of A ([N.right + 1 = A.right]) it also has the
    [left] and [right] it had before.  ([Move] always inserts before the
    new parent's [right], so a node that had a later sibling comes back
    behind it.) *)
Theorem Move_there_and_back (w w1 w2 : World) (n a b : ref) :
  consistent w ->
  In n (nodes (nset w)) ->
  In b (nodes (nset w)) ->
  Parent (Some n) w = Returns (Some a) ->
  Move (Some n) (Some b) w = (Returns None, w1) ->
  Move (Some n) (Some a) w1 = (Returns None, w2) ->
  GetLevel (heap w2) n = GetLevel (heap w) n /\
  (GetRight (heap w) n + 1 = GetRight (heap w) a ->
   GetLeft (heap w2) n = GetLeft (heap w) n /\
   GetRight (heap w2) n = GetRight (heap w) n).
Proof.
  intros Hc Hn Hb Hpar Hm1 Hm2.
  assert (HB : 2 ^ 61 <= 2 ^ 61) by lia.
  (* what the parent lookup says about A *)
  unfold Parent in Hpar. injection Hpar as Hpar.
  pose proof Hpar as Hfind. unfold parent in Hfind. apply find_some in Hfind.
  destruct Hfind as [Ha T]. apply parent_test_spec in T. destruct T as [A1 [A2 A3]].
  pose proof (level_range _ _ Hc n Hn) as Hnv.
  rewrite sub_small in A3 by lia.
  assert (Han : a <> n) by (intros ->; lia).
  destruct (endpoints_distinct _ _ Hc a n Ha Hn Han) as [D1 [_ [_ D2]]].
  assert (Haw : withinb (heap w) a n = false).
  { unfold withinb. cases_cmp; try reflexivity; lia. }
  assert (Hab : a <> b).
  { destruct (Move_result w w1 n (Some b) (ti_nodup _ _ Hc) Hn Hm1)
      as [[_ [_ [cp [Ecp Hne]]]] _].
    rewrite Hpar in Ecp. injection Ecp as <-. exact Hne. }
  destruct (endpoints_distinct _ _ Hc a b Ha Hb Hab) as [_ [_ [_ D3]]].
  (* the first move *)
  destruct (mv_inner_coords _ w w1 n (Some b) Hc HB Hn Hb Hm1 n Hn (withinb_self _ n))
    as [[_ [_ [L1 R1]]] V1].
  destruct (mv_outer_coords _ w w1 n (Some b) Hc HB Hn Hb Hm1 a Ha Haw)
    as [[_ [_ [_ Ra1]]] Va1].
  pose proof (mv_gap _ w w1 n (Some b) Hc Hn Hb Hm1) as G1.
  pose proof (Move_keeps_invariant _ w w1 n (Some b) Hc HB Hn Hb Hm1) as Hc1.
  assert (Hn1 : In n (nodes (nset w1)))
    by (apply (mv_member _ w w1 n (Some b) Hc Hn Hm1); exact Hn).
  assert (Ha1 : In a (nodes (nset w1)))
    by (apply (mv_member _ w w1 n (Some b) Hc Hn Hm1); exact Ha).
  (* the second move *)
  destruct (mv_inner_coords _ w1 w2 n (Some a) Hc1 HB Hn1 Ha1 Hm2 n Hn1 (withinb_self _ n))
    as [[_ [_ [L2 R2]]] V2].
  cbn [effective_parent] in *.
  pose proof (coord_range _ _ Hc n Hn) as Hnc.
  split.
  - rewrite V2, Va1. lia.
  - intros Hlast. rewrite L2, R2, Ra1, L1, R1.
    unfold move_inner, move_outer. cases_cmp; lia.
Qed.

(** D, the last child of A in [two_children], moved to B and back. *)
Lemma Move_there_and_back_witness :
  GetLevel (heap (snd (Move (Some nD) (Some nA)
                        (snd (Move (Some nD) (Some nB) two_children))))) nD
    = GetLevel (heap two_children) nD /\
  GetLeft (heap (snd (Move (Some nD) (Some nA)
                       (snd (Move (Some nD) (Some nB) two_children))))) nD
    = GetLeft (heap two_children) nD.
Proof.
  assert (Hc : consistent two_children)
    by (apply tree_invb_sound; vm_compute; reflexivity).
  assert (HD : In nD (nodes (nset two_children)))
    by (apply In_check; vm_compute; reflexivity).
  assert (HBm : In nB (nodes (nset two_children)))
    by (apply In_check; vm_compute; reflexivity).
  assert (Hpar : Parent (Some nD) two_children = Returns (Some nA))
    by (vm_compute; reflexivity).
  pose proof (surjective_pairing (Move (Some nD) (Some nB) two_children)) as E1.
  assert (F1 : fst (Move (Some nD) (Some nB) two_children) = Returns None)
    by (vm_compute; reflexivity).
  rewrite F1 in E1.
  pose proof (surjective_pairing
                (Move (Some nD) (Some nA)
                      (snd (Move (Some nD) (Some nB) two_children)))) as E2.
  assert (F2 : fst (Move (Some nD) (Some nA)
                         (snd (Move (Some nD) (Some nB) two_children)))
               = Returns None)
    by (vm_compute; reflexivity).
  rewrite F2 in E2.
  assert (Hlast : GetRight (heap two_children) nD + 1 = GetRight (heap two_children) nA)
    by (vm_compute; reflexivity).
  destruct (Move_there_and_back two_children _ _ nD nA nB Hc HD HBm Hpar E1 E2)
    as [Hv Hlr].
  split; [exact Hv | exact (proj1 (Hlr Hlast))].
Defined.

(** * Further properties *)

(** ** The constructor *)

(** X1.  A freshly constructed set is consistent exactly when the root it
    was given had [left = 0] and level 0: [NewNestedSet] sets the root's
    [right] to 1 and leaves its [left] and level as they were. *)
Theorem NewNestedSet_consistent_iff (root : ref) (h0 : Heap) :
  consistent (NewNestedSet root h0) <->
  GetLeft h0 root = 0 /\ GetLevel h0 root = 0.
Proof.
  assert (El : GetLeft (heap (NewNestedSet root h0)) root = GetLeft h0 root)
    by (unfold NewNestedSet, GetLeft, SetRight; cbn [heap]; rewrite upd_eq; reflexivity).
  assert (Er : GetRight (heap (NewNestedSet root h0)) root = 1)
    by (unfold NewNestedSet, GetRight, SetRight; cbn [heap]; rewrite upd_eq; reflexivity).
  assert (Ev : GetLevel (heap (NewNestedSet root h0)) root = GetLevel h0 root)
    by (unfold NewNestedSet, GetLevel, SetRight; cbn [heap]; rewrite upd_eq; reflexivity).
  assert (Hin : In root (nodes (nset (NewNestedSet root h0)))) by (now left).
  split.
  - intros Hc. pose proof (ti_lt _ _ Hc root Hin) as Hlt.
    pose proof (ti_bound _ _ Hc root Hin) as Hbd.
    pose proof (ti_root_level _ _ Hc) as Hlev.
    cbn [NewNestedSet nset rootNode] in Hlev. rewrite El, Er in *.
    rewrite Ev in Hlev. lia.
  - intros [Hl Hv]. apply tree_inv_weaken with (B := 2); [|lia].
    now apply NewNestedSet_invariant.
Qed.

(** ** Ids and names *)

Lemma same_identity_refl (x : Node) : same_identity x x.
Proof. split; reflexivity. Qed.

Lemma same_identity_trans (x y z : Node) :
  same_identity x y -> same_identity y z -> same_identity x z.
Proof. intros [A B] [C D]. split; congruence. Qed.

Lemma upd_same_identity (h : Heap) (n r : ref) (x : Node) :
  same_identity x (h n) -> same_identity (upd h n x r) (h r).
Proof.
  intros H. unfold upd. destruct (Nat.eqb r n) eqn:E.
  - apply Nat.eqb_eq in E. now subst.
  - apply same_identity_refl.
Qed.

(** A loop whose body keeps ids and names keeps them. *)
Lemma fold_same_identity (step : Heap -> ref -> Heap) :
  (forall h n r, same_identity (step h n r) (h r)) ->
  forall l h r, same_identity (fold_left step l h r) (h r).
Proof.
  intros Hstep l. induction l as [|a l IH]; intros h r; simpl.
  - apply same_identity_refl.
  - eapply same_identity_trans; [apply IH | apply Hstep].
Qed.

Lemma at_same_identity (step : Heap -> ref -> Heap) (f : Node -> Node) :
  (forall h n r, step h n r = if Nat.eqb r n then f (h n) else h r) ->
  (forall x, same_identity (f x) x) ->
  forall h n r, same_identity (step h n r) (h r).
Proof.
  intros Hat Hf h n r. rewrite Hat. destruct (Nat.eqb r n) eqn:E.
  - apply Nat.eqb_eq in E. subst. apply Hf.
  - apply same_identity_refl.
Qed.

Lemma widen_node_identity (right : Z) (x : Node) : same_identity (widen_node right x) x.
Proof.
  unfold widen_node, same_identity. cbv zeta.
  destruct (NodeRight x >=? right); [|split; reflexivity].
  destruct (NodeLeft (set_right _ x) >? right); split; reflexivity.
Qed.

Lemma shift_up_node_identity (a b c : Z) (x : Node) :
  same_identity (shift_up_node a b c x) x.
Proof.
  unfold shift_up_node, same_identity. cbv zeta.
  destruct ((NodeRight x <? a) && (NodeRight x >? b));
    match goal with |- context [if ?t then _ else _] => destruct t end;
    split; reflexivity.
Qed.

Lemma shift_down_node_identity (a b c : Z) (x : Node) :
  same_identity (shift_down_node a b c x) x.
Proof.
  unfold shift_down_node, same_identity. cbv zeta.
  destruct ((NodeRight x >? a) && (NodeRight x <=? b));
    match goal with |- context [if ?t then _ else _] => destruct t end;
    split; reflexivity.
Qed.

Lemma translate_node_identity (a b : Z) (x : Node) :
  same_identity (translate_node a b x) x.
Proof. split; reflexivity. Qed.

Lemma close_identity (node : ref) (h : Heap) (n r : ref) :
  same_identity (close node h n r) (h r).
Proof.
  unfold close. cbv zeta.
  destruct (GetRight h n >? GetRight h node).
  - match goal with |- context [if ?t then _ else _] => destruct t end.
    + eapply same_identity_trans; apply upd_same_identity; split; reflexivity.
    + apply upd_same_identity; split; reflexivity.
  - destruct (GetLeft h n >? GetLeft h node).
    + apply upd_same_identity; split; reflexivity.
    + apply same_identity_refl.
Qed.

Lemma delete_loop_identity (node : ref) (l : list ref) :
  forall h acc r, same_identity (fst (delete_loop node l h acc) r) (h r).
Proof.
  induction l as [|a l IH]; intros h acc r; simpl.
  - apply same_identity_refl.
  - destruct ((GetLeft h a <? GetLeft h node) || (GetRight h a >? GetRight h node)).
    + eapply same_identity_trans; [apply IH | apply close_identity].
    + apply IH.
Qed.

(** [Add], [Delete] and [Move] keep every node's id and name. *)
Lemma apply_op_identity (o : op) (w : World) (r : ref) :
  same_identity (heap (snd (apply_op o w)) r) (heap w r).
Proof.
  destruct o as [newNode pa | node | node pa]; simpl.
  - unfold Add.
    destruct (match pa with
              | Some p => if negb (exists_ (nset w) p) then None else Some p
              | None => Some (rootNode (nset w))
              end) as [p|]; [|apply same_identity_refl].
    destruct newNode as [n|]; [|apply same_identity_refl].
    cbn [snd heap].
    eapply same_identity_trans;
      [apply fold_same_identity;
       apply (at_same_identity _ _ (widen_at _) (widen_node_identity _))|].
    unfold SetRight, SetLeft, SetLevel.
    eapply same_identity_trans; [apply upd_same_identity; split; reflexivity|].
    eapply same_identity_trans; [apply upd_same_identity; split; reflexivity|].
    apply upd_same_identity; split; reflexivity.
  - unfold Delete. destruct node as [n|]; [|apply same_identity_refl].
    destruct (Nat.eqb n (rootNode (nset w))); [apply same_identity_refl|].
    destruct (negb (exists_ (nset w) n)); [apply same_identity_refl|].
    pose proof (delete_loop_identity n (nodes (nset w)) (heap w) [] r) as H.
    destruct (delete_loop n (nodes (nset w)) (heap w) []) as [h1 l1]. exact H.
  - unfold Move. destruct node as [n|]; [|apply same_identity_refl].
    destruct (GetLevel (heap w) n =? 0); [apply same_identity_refl|].
    match goal with
    | |- context [if ?t then (Returns (Some "Can't move branch to node within itself"%string), _) else _] =>
      destruct t; [apply same_identity_refl|]
    end.
    destruct (parent (nset w) (heap w) n) as [cp|]; [|apply same_identity_refl].
    match goal with
    | |- context [if ?t then (Returns (Some "Moving in same branch not implemented"%string), _) else _] =>
      destruct t; [apply same_identity_refl|]
    end.
    destruct (branch (Some n) (heap w) (nset w)) as [toUpdate s].
    match goal with
    | |- context [if ?t then _ else _] => destruct t
    end; cbn [snd heap];
      (eapply same_identity_trans;
       [apply fold_same_identity;
        apply (at_same_identity _ _ (translate_at _ _) (translate_node_identity _ _))|];
       apply fold_same_identity).
    + apply (at_same_identity _ _ (shift_up_at _ _ _) (shift_up_node_identity _ _ _)).
    + apply (at_same_identity _ _ (shift_down_at _ _ _) (shift_down_node_identity _ _ _)).
Qed.

(** X2.  No operation ever writes an id or a name: whatever the arguments
    and whatever the outcome (success, error or panic), after [Add],
    [Delete], [Move] or [Branch] every node, member or not, has the id and
    the name it had before; and so after [NewNestedSet]. *)
Theorem identity_never_written (w : World) (r : ref) :
  (forall o, same_identity (heap (snd (apply_op o w)) r) (heap w r)) /\
  (forall node, same_identity (heap (snd (Branch node w)) r) (heap w r)) /\
  (forall root, same_identity (heap (NewNestedSet root (heap w)) r) (heap w r)).
Proof.
  split; [|split].
  - intros o. apply apply_op_identity.
  - intros node. unfold Branch.
    destruct (branch node (heap w) (nset w)) as [res s]. apply same_identity_refl.
  - intros root. unfold NewNestedSet, SetRight. cbn [heap].
    apply upd_same_identity. split; reflexivity.
Qed.

(** ** Branch *)

Lemma insert_In (h : Heap) (x r : ref) (l : list ref) :
  In r (insert h x l) <-> r = x \/ In r l.
Proof.
  split.
  - intros H. apply (Permutation_in _ (insert_perm h x l)) in H.
    destruct H as [-> | H]; auto.
  - intros H. apply (Permutation_in _ (Permutation_sym (insert_perm h x l))).
    destruct H as [-> | H]; [now left | now right].
Qed.

Lemma insert_sorted (h : Heap) (x : ref) (l : list ref) :
  sorted_by_left h l -> sorted_by_left h (insert h x l).
Proof.
  unfold sorted_by_left. induction l as [|y l IH]; simpl; intros Hs.
  - constructor; constructor.
  - inversion Hs as [|? ? Hl Hy]; subst.
    destruct (Z.ltb_spec (GetLeft h x) (GetLeft h y)) as [Lt | Ge].
    + constructor; [exact Hs|]. constructor; [lia|].
      rewrite Forall_forall in *. intros z Hz. specialize (Hy z Hz). lia.
    + constructor; [now apply IH|].
      rewrite Forall_forall in *. intros z Hz. apply insert_In in Hz.
      destruct Hz as [-> | Hz]; [lia | now apply Hy].
Qed.

Lemma sort_sorted (h : Heap) (l : list ref) : sorted_by_left h (sort h l).
Proof.
  unfold sort.
  assert (H : forall acc, sorted_by_left h acc ->
                          sorted_by_left h (fold_left (fun acc x => insert h x acc) l acc)).
  { induction l as [|a l IH]; intros acc Hacc; simpl; [exact Hacc|].
    apply IH. now apply insert_sorted. }
  apply H. constructor.
Qed.

Lemma filter_sorted (h : Heap) (f : ref -> bool) (l : list ref) :
  sorted_by_left h l -> sorted_by_left h (filter f l).
Proof.
  unfold sorted_by_left. induction l as [|y l IH]; simpl; intros Hs; [constructor|].
  inversion Hs as [|? ? Hl Hy]; subst.
  destruct (f y); [|now apply IH].
  constructor; [now apply IH|].
  rewrite Forall_forall in *. intros z Hz. apply filter_In in Hz. now apply Hy.
Qed.

(** The invariants do not depend on the order of the slice. *)
Lemma tree_inv_perm (B : Z) (h : Heap) (s : NestedSet) (l' : list ref) :
  tree_inv B (mkWorld h s) -> Permutation (nodes s) l' ->
  tree_inv B (mkWorld h (mkNestedSet l' (rootNode s) (maxId s))).
Proof.
  intros [H1 H2 H3 H4 H5 H6 H7 H8 H9] Hp. cbn [heap nset] in *.
  assert (Hin : forall r, In r l' -> In r (nodes s))
    by (intros r; apply Permutation_in; now symmetry).
  constructor; cbn [heap nset nodes rootNode]; auto.
  - exact (Permutation_NoDup Hp H1).
  - exact (Permutation_in _ Hp H2).
  - intros r Hr. rewrite (H7 r (Hin r Hr)). unfold enclosing. f_equal.
    now apply count_perm.
  - rewrite <- (Permutation_length Hp). exact H9.
Qed.

Lemma Branch_unfold (node : option ref) (w : World) :
  snd (Branch node w) =
    mkWorld (heap w) (mkNestedSet (sort (heap w) (nodes (nset w)))
                                  (rootNode (nset w)) (maxId (nset w))) /\
  fst (Branch node w) =
    match node with
    | None => sort (heap w) (nodes (nset w))
    | Some x =>
      if existsb (fun n => Nat.eqb n x) (nodes (nset w))
      then subtree (heap w) (sort (heap w) (nodes (nset w))) x
      else []
    end.
Proof.
  unfold Branch, branch. destruct node as [x|]; cbn [nodes rootNode maxId].
  - unfold exists_. cbn [nodes].
    assert (E : existsb (fun n => Nat.eqb n x) (sort (heap w) (nodes (nset w)))
                = existsb (fun n => Nat.eqb n x) (nodes (nset w))).
    { destruct (existsb (fun n => Nat.eqb n x) (nodes (nset w))) eqn:F.
      - apply existsb_eqb_true. apply sort_In. now apply existsb_eqb_true.
      - apply existsb_eqb_false. rewrite sort_In. now apply existsb_eqb_false. }
    rewrite E.
    destruct (existsb (fun n => Nat.eqb n x) (nodes (nset w))); split; reflexivity.
  - split; reflexivity.
Qed.

(** X3.  Whatever its argument, [Branch] writes no node and keeps the root
    and the counter; it leaves the set's slice a permutation of what it was,
    in ascending order of [left]. *)
Theorem Branch_sorts_slice (node : option ref) (w : World) :
  heap (snd (Branch node w)) = heap w /\
  rootNode (nset (snd (Branch node w))) = rootNode (nset w) /\
  maxId (nset (snd (Branch node w))) = maxId (nset w) /\
  Permutation (nodes (nset (snd (Branch node w)))) (nodes (nset w)) /\
  sorted_by_left (heap w) (nodes (nset (snd (Branch node w)))).
Proof.
  rewrite (proj1 (Branch_unfold node w)). cbn [heap nset nodes rootNode maxId].
  repeat split; [apply sort_perm | apply sort_sorted].
Qed.

Lemma Branch_member_result (w : World) (x : ref) :
  In x (nodes (nset w)) ->
  In x (fst (Branch (Some x) w)) /\
  forall r, In r (fst (Branch (Some x) w)) <->
            In r (nodes (nset w)) /\
            GetLeft (heap w) x <= GetLeft (heap w) r /\
            GetRight (heap w) r <= GetRight (heap w) x.
Proof.
  intros Hx. rewrite (proj2 (Branch_unfold (Some x) w)).
  pose proof Hx as Hx'. apply existsb_eqb_true in Hx'. rewrite Hx'.
  unfold subtree. split.
  - apply filter_In. split; [now apply sort_In | apply withinb_self].
  - intros r. rewrite filter_In, sort_In. unfold withinb.
    rewrite andb_true_iff, Z.geb_leb, !Z.leb_le. reflexivity.
Qed.

Lemma Branch_result_sorted (node : option ref) (w : World) :
  sorted_by_left (heap w) (fst (Branch node w)) /\
  (NoDup (nodes (nset w)) -> NoDup (fst (Branch node w))).
Proof.
  rewrite (proj2 (Branch_unfold node w)).
  destruct node as [x|].
  - destruct (existsb (fun n => Nat.eqb n x) (nodes (nset w))).
    + split; [apply filter_sorted, sort_sorted|].
      intros Hnd. apply NoDup_filter. now apply sort_NoDup.
    + split; [constructor | intros _; constructor].
  - split; [apply sort_sorted | apply sort_NoDup].
Qed.

(** X4.  What [Branch] returns: for nil, every member; for a node that is
    not a member, nothing; for a member, exactly the members whose interval
    lies within the node's, the node among them.  The result is in
    ascending order of [left], and holds no pointer twice when the slice
    holds none twice. *)
Theorem Branch_collects (w : World) :
  let h := heap w in
  let l := nodes (nset w) in
  (Permutation (fst (Branch None w)) l /\
   fst (Branch None w) = nodes (nset (snd (Branch None w)))) /\
  (forall x, ~ In x l -> fst (Branch (Some x) w) = []) /\
  (forall x, In x l ->
     In x (fst (Branch (Some x) w)) /\
     forall r, In r (fst (Branch (Some x) w)) <->
               In r l /\ GetLeft h x <= GetLeft h r /\ GetRight h r <= GetRight h x) /\
  (forall node, sorted_by_left h (fst (Branch node w)) /\
                (NoDup l -> NoDup (fst (Branch node w)))).
Proof.
  intros h l. subst h l. split; [|split; [|split]].
  - rewrite (proj2 (Branch_unfold None w)), (proj1 (Branch_unfold None w)).
    split; [apply sort_perm | reflexivity].
  - intros x Hx. rewrite (proj2 (Branch_unfold (Some x) w)).
    apply existsb_eqb_false in Hx. rewrite Hx. reflexivity.
  - intros x Hx. now apply Branch_member_result.
  - intros node. apply Branch_result_sorted.
Qed.

(** X5.  [Branch] keeps the invariants, whatever its argument: sorting the
    slice changes neither membership nor any count. *)
Theorem Branch_keeps_invariant (B : Z) (node : option ref) (w : World) :
  tree_inv B w -> tree_inv B (snd (Branch node w)).
Proof.
  intros Hinv. rewrite (proj1 (Branch_unfold node w)).
  destruct w as [h s]. cbn [heap nset] in *.
  apply tree_inv_perm; [exact Hinv | symmetry; apply sort_perm].
Qed.

(** [Branch] of B on the scenario's set: it stays consistent. *)
Lemma Branch_keeps_invariant_witness :
  consistent (snd (Branch (Some nB) scenario3)).
Proof.
  assert (Hc : consistent scenario3)
    by (apply tree_invb_sound; vm_compute; reflexivity).
  exact (Branch_keeps_invariant _ (Some nB) scenario3 Hc).
Defined.

(** X6.  In a consistent collection [Branch] of a member returns the member
    first, followed by exactly its descendants (the members whose interval
    it strictly contains), each with a larger [left] than the one before
    and at a deeper level than the member. *)
Theorem Branch_of_member (w : World) (x : ref) :
  consistent w ->
  In x (nodes (nset w)) ->
  let h := heap w in
  exists rest,
    fst (Branch (Some x) w) = x :: rest /\
    (forall r, In r rest <-> In r (nodes (nset w)) /\ contains h x r) /\
    (forall r, In r rest -> GetLevel h x < GetLevel h r) /\
    StronglySorted (fun a b => GetLeft h a < GetLeft h b) (x :: rest).
Proof.
  intros Hc Hx h. subst h.
  destruct (Branch_member_result w x Hx) as [Hxin Hchar].
  destruct (Branch_result_sorted (Some x) w) as [Hs Hnd].
  specialize (Hnd (ti_nodup _ _ Hc)).
  (* members of the result other than [x] are strict descendants *)
  assert (Hdesc : forall r, In r (fst (Branch (Some x) w)) -> r <> x ->
                            contains (heap w) x r).
  { intros r Hr Hne. apply Hchar in Hr. destruct Hr as [Hr [W1 W2]].
    destruct (endpoints_distinct _ _ Hc r x Hr Hx Hne) as [E1 [_ [_ E2]]].
    unfold contains. lia. }
  destruct (fst (Branch (Some x) w)) as [|y rest] eqn:E; [contradiction|].
  unfold sorted_by_left in Hs. inversion Hs as [|? ? Hrest Hy]; subst.
  rewrite Forall_forall in Hy.
  assert (Hyx : y = x).
  { destruct (Nat.eq_dec y x) as [-> | Hne]; [reflexivity | exfalso].
    destruct (Hdesc y (or_introl eq_refl) Hne) as [C1 _].
    destruct Hxin as [-> | Hxin]; [congruence|].
    specialize (Hy x Hxin). lia. }
  subst y. inversion Hnd as [|? ? Hxrest Hndrest]; subst.
  exists rest. split; [reflexivity|].
  assert (Hrest_desc : forall r, In r rest -> contains (heap w) x r).
  { intros r Hr. apply Hdesc; [now right | intros ->; contradiction]. }
  split; [|split].
  - intros r. split.
    + intros Hr. split; [apply (Hchar r); now right | now apply Hrest_desc].
    + intros [Hr [C1 C2]].
      assert (Hin : In r (x :: rest)) by (apply Hchar; repeat split; [assumption | lia | lia]).
      destruct Hin as [<- | Hin]; [lia | exact Hin].
  - intros r Hr.
    apply (level_lt _ _ Hc x r Hx); [apply (Hchar r); now right | now apply Hrest_desc].
  - assert (Hall : forall r, In r (x :: rest) -> In r (nodes (nset w)))
      by (intros r Hr; now apply Hchar in Hr).
    clear - Hs Hnd Hall Hc.
    induction Hs as [|a l' Hl' IH Ha]; [constructor|].
    inversion Hnd as [|? ? Hnotin Hnd']; subst.
    constructor; [apply IH; [exact Hnd' | intros r Hr; apply Hall; now right]|].
    rewrite Forall_forall in *. intros r Hr. specialize (Ha r Hr).
    assert (Hne : a <> r) by (intros ->; contradiction).
    destruct (endpoints_distinct _ _ Hc a r (Hall a (or_introl eq_refl))
                                 (Hall r (or_intror Hr)) Hne) as [E1 _].
    lia.
Qed.

(** [Branch] of A on the scenario's set returns A, then its child C. *)
Lemma Branch_of_member_witness :
  exists rest, fst (Branch (Some nA) scenario3) = nA :: rest /\
               forall r, In r rest -> GetLevel (heap scenario3) nA < GetLevel (heap scenario3) r.
Proof.
  assert (Hc : consistent scenario3)
    by (apply tree_invb_sound; vm_compute; reflexivity).
  assert (HA : In nA (nodes (nset scenario3)))
    by (apply In_check; vm_compute; reflexivity).
  destruct (Branch_of_member scenario3 nA Hc HA) as [rest [E [_ [Hlev _]]]].
  exists rest. split; assumption.
Defined.

(** ** FindById *)

Section Lookup.

Variable g : ref -> Z.

(** With distinct keys, the scan for a member's key stops at that member. *)
Lemma find_unique (l : list ref) (r : ref) :
  NoDup (map g l) -> In r l -> find (fun n => g n =? g r) l = Some r.
Proof.
  induction l as [|a l IH]; [contradiction|]. simpl. intros Hnd [-> | Hr].
  - now rewrite Z.eqb_refl.
  - inversion Hnd as [|? ? Ha Hl]; subst.
    destruct (Z.eqb_spec (g a) (g r)) as [E | E]; [|now apply IH].
    exfalso. apply Ha. rewrite E. now apply in_map.
Qed.

Lemma find_key_none (l : list ref) (id : Z) :
  find (fun n => g n =? id) l = None <-> forall r, In r l -> g r <> id.
Proof.
  split.
  - intros E r Hr. apply (find_none _ _ E) in Hr. now apply Z.eqb_neq.
  - intros H. apply find_none_iff. intros r Hr. apply Z.eqb_neq. now apply H.
Qed.

Lemma find_key_some (l : list ref) (id : Z) (r : ref) :
  find (fun n => g n =? id) l = Some r -> In r l /\ g r = id.
Proof.
  intros E. apply find_some in E. destruct E as [Hr E]. now apply Z.eqb_eq in E.
Qed.

(** With distinct keys the scan does not depend on the order of the slice. *)
Lemma find_key_perm (l l' : list ref) (id : Z) :
  NoDup (map g l) -> Permutation l l' ->
  find (fun n => g n =? id) l' = find (fun n => g n =? id) l.
Proof.
  intros Hnd Hp.
  assert (Hnd' : NoDup (map g l'))
    by (apply (Permutation_NoDup (Permutation_map g Hp) Hnd)).
  destruct (find (fun n => g n =? id) l) as [r|] eqn:E.
  - apply find_key_some in E. destruct E as [Hr <-].
    apply find_unique; [exact Hnd' | exact (Permutation_in _ Hp Hr)].
  - apply find_key_none. intros r Hr.
    apply (proj1 (find_key_none l id) E). apply (Permutation_in _ (Permutation_sym Hp) Hr).
Qed.

(** With distinct keys, the scan over the kept members finds what the scan
    over all members finds, if that member is kept. *)
Lemma find_key_filter (k : ref -> bool) (l : list ref) (id : Z) :
  NoDup (map g l) ->
  find (fun n => g n =? id) (filter k l) =
  match find (fun n => g n =? id) l with
  | Some r => if k r then Some r else None
  | None => None
  end.
Proof.
  induction l as [|a l IH]; [reflexivity|]. simpl. intros Hnd.
  inversion Hnd as [|? ? Ha Hl]; subst. specialize (IH Hl).
  destruct (Z.eqb_spec (g a) id) as [E | E].
  - destruct (k a); simpl.
    + apply Z.eqb_eq in E. now rewrite E.
    + apply find_key_none. intros r Hr Er. apply filter_In in Hr.
      apply Ha. rewrite E, <- Er. apply in_map. tauto.
  - destruct (k a); simpl; [apply Z.eqb_neq in E; rewrite E|]; exact IH.
Qed.

End Lookup.

Lemma find_key_ext (g g' : ref -> Z) (l : list ref) (id : Z) :
  (forall r, g' r = g r) ->
  find (fun n => g' n =? id) l = find (fun n => g n =? id) l.
Proof.
  intros H. induction l as [|a l IH]; simpl; [reflexivity|]. now rewrite H, IH.
Qed.

(** X7.  [FindById] returns a member with the id asked for, returns nil
    exactly when no member has that id, and, when no two members share an
    id, finds every member by its own id. *)
Theorem FindById_lookup (w : World) :
  (forall id r, FindById id w = Some r ->
                In r (nodes (nset w)) /\ GetId (heap w) r = id) /\
  (forall id, FindById id w = None <->
              forall r, In r (nodes (nset w)) -> GetId (heap w) r <> id) /\
  (unique_ids w ->
   forall r, In r (nodes (nset w)) -> FindById (GetId (heap w) r) w = Some r).
Proof.
  unfold FindById, unique_ids. split; [|split].
  - intros id r. apply find_key_some.
  - intros id. apply find_key_none.
  - intros Hu r Hr. now apply find_unique.
Qed.

(** Ids in the scenario are distinct, so C is found by its id. *)
Lemma FindById_lookup_witness :
  FindById (GetId (heap scenario3) nC) scenario3 = Some nC.
Proof.
  assert (Hu : unique_ids scenario3).
  { unfold unique_ids.
    assert (E : map (GetId (heap scenario3)) (nodes (nset scenario3)) = [0; 1; 2; 3])
      by (vm_compute; reflexivity).
    rewrite E. repeat constructor; simpl; intuition discriminate. }
  assert (HC : In nC (nodes (nset scenario3)))
    by (apply In_check; vm_compute; reflexivity).
  exact (proj2 (proj2 (FindById_lookup scenario3)) Hu nC HC).
Defined.

Lemma heap_GetId (o : op) (w : World) (r : ref) :
  GetId (heap (snd (apply_op o w))) r = GetId (heap w) r.
Proof. exact (proj1 (apply_op_identity o w r)). Qed.

Lemma Add_success_nodes (w w' : World) (newNode pa : option ref) :
  Add newNode pa w = (Returns None, w') ->
  exists n, newNode = Some n /\ nodes (nset w') = (nodes (nset w) ++ [n])%list.
Proof.
  unfold Add.
  destruct (match pa with
            | Some p => if negb (exists_ (nset w) p) then None else Some p
            | None => Some (rootNode (nset w))
            end) as [p|]; [|discriminate].
  destruct newNode as [n|]; [|discriminate].
  intros E. injection E as <-. exists n. split; reflexivity.
Qed.

(** X8.  After a successful [Add(newNode, parent)] every id that found a
    member still finds that member, and an id that found nothing finds
    [newNode] if it is [newNode]'s id and nothing otherwise. *)
Theorem FindById_after_Add (w w' : World) (newNode : ref) (pa : option ref) (id : Z) :
  Add (Some newNode) pa w = (Returns None, w') ->
  FindById id w' =
  match FindById id w with
  | Some r => Some r
  | None => if GetId (heap w) newNode =? id then Some newNode else None
  end.
Proof.
  intros Hadd. unfold FindById.
  destruct (Add_success_nodes _ _ _ _ Hadd) as [n [En Hn]]. injection En as <-.
  rewrite Hn.
  rewrite (find_key_ext (GetId (heap w)) (GetId (heap w')));
    [|intros r; pose proof (heap_GetId (OpAdd (Some newNode) pa) w r) as H;
      cbn [apply_op] in H; rewrite Hadd in H; exact H].
  clear Hn Hadd. induction (nodes (nset w)) as [|a l IH]; simpl.
  - destruct (GetId (heap w) newNode =? id); reflexivity.
  - destruct (GetId (heap w) a =? id); [reflexivity | exact IH].
Qed.

(** Adding C to the two-insert scenario: its id finds it afterwards. *)
Lemma FindById_after_Add_witness :
  FindById 3 scenario3 = Some nC.
Proof.
  pose proof (surjective_pairing (Add (Some nC) (Some nA) scenario2)) as E.
  assert (F : fst (Add (Some nC) (Some nA) scenario2) = Returns None)
    by (vm_compute; reflexivity).
  rewrite F in E.
  unfold scenario3. rewrite (FindById_after_Add _ _ nC (Some nA) 3 E).
  vm_compute. reflexivity.
Defined.

(** X9.  When no two members share an id, after a successful
    [Delete(node)] an id finds the member it found before if that member
    survived (its interval did not lie within [node]'s), and nothing
    otherwise: the ids of [node] and of its descendants find nothing. *)
Theorem FindById_after_Delete (w w' : World) (node : ref) (id : Z) :
  unique_ids w ->
  Delete (Some node) w = (Returns None, w') ->
  FindById id w' =
  match FindById id w with
  | Some r => if withinb (heap w) r node then None else Some r
  | None => None
  end.
Proof.
  intros Hu Hdel. unfold FindById.
  assert (Hnd : NoDup (nodes (nset w))) by (exact (NoDup_map_inv _ _ Hu)).
  assert (Hin : In node (nodes (nset w)) /\ node <> rootNode (nset w)).
  { unfold Delete in Hdel.
    destruct (Nat.eqb_spec node (rootNode (nset w))) as [E | E]; [discriminate|].
    destruct (exists_ (nset w) node) eqn:X; [|discriminate].
    split; [now apply existsb_eqb_true | exact E]. }
  destruct Hin as [Hin Hroot].
  destruct (Delete_result w node Hnd Hin Hroot) as [h1 [Hres _]].
  rewrite Hdel in Hres. injection Hres as ->. cbn [nset nodes heap].
  rewrite (find_key_ext (GetId (heap w)) (GetId h1)).
  - rewrite (find_key_filter (GetId (heap w)) _ _ id Hu).
    destruct (find (fun n => GetId (heap w) n =? id) (nodes (nset w))) as [r|];
      [|reflexivity].
    destruct (withinb (heap w) r node); reflexivity.
  - intros r. pose proof (heap_GetId (OpDelete (Some node)) w r) as H.
    cbn [apply_op] in H. rewrite Hdel in H. exact H.
Qed.

(** Deleting A from the scenario: the id of its child C finds nothing. *)
Lemma FindById_after_Delete_witness :
  FindById 3 (snd (Delete (Some nA) scenario3)) = None.
Proof.
  assert (Hu : unique_ids scenario3).
  { unfold unique_ids.
    assert (E : map (GetId (heap scenario3)) (nodes (nset scenario3)) = [0; 1; 2; 3])
      by (vm_compute; reflexivity).
    rewrite E. repeat constructor; simpl; intuition discriminate. }
  pose proof (surjective_pairing (Delete (Some nA) scenario3)) as E.
  assert (F : fst (Delete (Some nA) scenario3) = Returns None)
    by (vm_compute; reflexivity).
  rewrite F in E.
  rewrite (FindById_after_Delete _ _ nA 3 Hu E).
  vm_compute. reflexivity.
Defined.

(** X10.  When no two members share an id, [FindById] gives the same
    answers after a successful [Move] and after any [Branch], although both
    reorder the slice it scans. *)
Theorem FindById_stable (w : World) (id : Z) :
  unique_ids w ->
  (forall node pa w', Move (Some node) pa w = (Returns None, w') ->
                      In node (nodes (nset w)) ->
                      FindById id w' = FindById id w) /\
  (forall node, FindById id (snd (Branch node w)) = FindById id w).
Proof.
  intros Hu. assert (Hnd : NoDup (nodes (nset w))) by (exact (NoDup_map_inv _ _ Hu)).
  split.
  - intros node pa w' Hmove Hin. unfold FindById.
    destruct (Move_result w w' node pa Hnd Hin Hmove) as [_ [Hs _]].
    rewrite Hs. cbn [nodes].
    rewrite (find_key_ext (GetId (heap w)) (GetId (heap w'))).
    + apply find_key_perm; [exact Hu | symmetry; apply sort_perm].
    + intros r. pose proof (heap_GetId (OpMove (Some node) pa) w r) as H.
      cbn [apply_op] in H. rewrite Hmove in H. exact H.
  - intros node. unfold FindById. rewrite (proj1 (Branch_unfold node w)).
    cbn [heap nset nodes].
    apply find_key_perm; [exact Hu | symmetry; apply sort_perm].
Qed.

(** After [Branch] on the scenario, whose slice was not in order, B is
    still found by its id. *)
Lemma FindById_stable_witness :
  FindById 2 (snd (Branch None scenario3)) = FindById 2 scenario3.
Proof.
  assert (Hu : unique_ids scenario3).
  { unfold unique_ids.
    assert (E : map (GetId (heap scenario3)) (nodes (nset scenario3)) = [0; 1; 2; 3])
      by (vm_compute; reflexivity).
    rewrite E. repeat constructor; simpl; intuition discriminate. }
  exact (proj2 (FindById_stable scenario3 2 Hu) None).
Defined.

(** ** The parent after an operation *)

Section ParentLookup.

Variable B : Z.
Variable w : World.
Hypothesis Hinv : tree_inv B w.
Hypothesis HB : B <= 2 ^ 62.

Local Abbreviation h := (heap w).
Local Abbreviation l := (nodes (nset w)).

(** Two members around the same member at the same level are one member. *)
Lemma encloser_unique (p q x : ref) :
  In p l -> In q l -> In x l ->
  contains h p x -> contains h q x -> GetLevel h p = GetLevel h q -> p = q.
Proof.
  intros Hp Hq Hx [P1 P2] [Q1 Q2] Hlev.
  destruct (Nat.eq_dec p q) as [E | E]; [exact E | exfalso].
  pose proof (coord_range _ _ Hinv x Hx).
  destruct (ti_laminar _ _ Hinv p q Hp Hq E) as [[D | D] | [C | C]]; try lia.
  - pose proof (level_lt _ _ Hinv p q Hp Hq C). lia.
  - pose proof (level_lt _ _ Hinv q p Hq Hp C). lia.
Qed.

(** The scan of [parent] finds the parent. *)
Lemma parent_finds (q x : ref) :
  In q l -> In x l -> direct_parent h q x -> parent (nset w) h x = Some q.
Proof.
  intros Hq Hx [Hqx Hlev].
  pose proof (level_range _ _ Hinv x Hx) as Hxr.
  assert (Hsub : Int64.sub (GetLevel h x) 1 = GetLevel h x - 1)
    by (apply sub_small; lia).
  unfold parent.
  destruct (find (fun n => (GetLeft h n <=? GetLeft h x) && (GetRight h n >=? GetRight h x)
                           && (GetLevel h n =? Int64.sub (GetLevel h x) 1)) l)
    as [p|] eqn:F.
  - apply find_some in F. destruct F as [Hp T].
    apply parent_test_spec in T. destruct T as [T1 [T2 T3]]. rewrite Hsub in T3.
    f_equal.
    assert (Hpx : p <> x) by (intros ->; lia).
    destruct (endpoints_distinct _ _ Hinv p x Hp Hx Hpx) as [E1 [_ [_ E2]]].
    apply (encloser_unique p q x); try assumption; [unfold contains; lia | lia].
  - exfalso. apply (find_none _ _ F) in Hq.
    assert (Tq : (GetLeft h q <=? GetLeft h x) && (GetRight h q >=? GetRight h x)
                 && (GetLevel h q =? Int64.sub (GetLevel h x) 1) = true).
    { apply parent_test_spec. rewrite Hsub. destruct Hqx. repeat split; lia. }
    congruence.
Qed.

(** What [parent] finds for a member is its parent. *)
Lemma parent_found (q x : ref) :
  In x l -> parent (nset w) h x = Some q -> In q l /\ direct_parent h q x.
Proof.
  intros Hx F. unfold parent in F. apply find_some in F. destruct F as [Hq T].
  apply parent_test_spec in T. destruct T as [T1 [T2 T3]].
  pose proof (level_range _ _ Hinv x Hx) as Hxr.
  rewrite sub_small in T3 by lia.
  assert (Hqx : q <> x) by (intros ->; lia).
  destruct (endpoints_distinct _ _ Hinv q x Hq Hx Hqx) as [E1 [_ [_ E2]]].
  split; [exact Hq|]. split; [unfold contains; lia | exact T3].
Qed.

(** Only the root is at level 0. *)
Lemma level_zero_root (x : ref) :
  In x l -> (GetLevel h x = 0 <-> x = rootNode (nset w)).
Proof.
  intros Hx. split.
  - intros Hz. destruct (Nat.eq_dec x (rootNode (nset w))) as [E | E]; [exact E|].
    pose proof (level_lt _ _ Hinv _ x (ti_root_in _ _ Hinv) Hx
                         (ti_root_top _ _ Hinv x Hx E)) as Hlt.
    rewrite (ti_root_level _ _ Hinv) in Hlt. lia.
  - intros ->. exact (ti_root_level _ _ Hinv).
Qed.

(** A member other than the root has a parent, and [parent] finds it. *)
Lemma parent_exists (x : ref) :
  In x l -> x <> rootNode (nset w) ->
  exists q, parent (nset w) h x = Some q /\ In q l /\ direct_parent h q x.
Proof.
  intros Hx Hroot.
  destruct (innermost _ _ Hinv x Hx Hroot) as [q [Hq [Hqx [Hlev _]]]].
  exists q. split; [|split; [exact Hq | split; assumption]].
  apply parent_finds; [exact Hq | exact Hx | split; assumption].
Qed.

End ParentLookup.

(** X11.  In a consistent collection a successful [Move(node, parent)] of a
    member under a member or under nil makes the requested parent (the root
    for nil) the node's parent,
    as [Parent] then reports, with the node its last child
    ([node.right + 1 = parent.right]); and the moved subtree is carried
    along rigidly: every member that lay within the node keeps its offsets
    from the node in [left], [right] and level. *)
Theorem Move_places_last_child (w w' : World) (node : ref) (pa : option ref) :
  consistent w ->
  In node (nodes (nset w)) ->
  parent_ok w pa ->
  Move (Some node) pa w = (Returns None, w') ->
  let h := heap w in
  let h' := heap w' in
  let p := effective_parent w pa in
  Parent (Some node) w' = Returns (Some p) /\
  GetRight h' node + 1 = GetRight h' p /\
  GetLevel h' node = GetLevel h' p + 1 /\
  forall r, In r (nodes (nset w)) -> withinb h r node = true ->
    GetLeft h' r - GetLeft h' node = GetLeft h r - GetLeft h node /\
    GetRight h' r - GetRight h' node = GetRight h r - GetRight h node /\
    GetLevel h' r - GetLevel h' node = GetLevel h r - GetLevel h node.
Proof.
  intros Hc Hn Hp Hm h h' p. subst h h' p.
  assert (HB : 2 ^ 61 <= 2 ^ 61) by lia.
  pose proof (mv_parent_in _ w w' node pa Hc Hp Hm) as Hpin.
  pose proof (mv_parent_outer _ w w' node pa Hc Hn Hm) as Hpo.
  destruct (mv_inner_coords _ w w' node pa Hc HB Hn Hp Hm node Hn (withinb_self _ node))
    as [[_ [_ [Nl Nr]]] Nv].
  destruct (mv_outer_coords _ w w' node pa Hc HB Hn Hp Hm _ Hpin Hpo)
    as [[_ [_ [Pl Pr]]] Pv].
  pose proof (mv_gap _ w w' node pa Hc Hn Hp Hm) as Hgap.
  pose proof (coord_range _ _ Hc node Hn) as Hnc.
  pose proof (coord_range _ _ Hc _ Hpin) as Hpc.
  pose proof (Move_keeps_invariant _ w w' node pa Hc HB Hn Hp Hm) as Hc'.
  assert (Hlast : GetRight (heap w') node + 1 = GetRight (heap w') (effective_parent w pa)).
  { rewrite Nr, Pr. unfold move_inner, move_outer. cases_cmp; lia. }
  assert (Hlev : GetLevel (heap w') node = GetLevel (heap w') (effective_parent w pa) + 1).
  { rewrite Nv, Pv. lia. }
  split; [|split; [exact Hlast | split; [exact Hlev|]]].
  - unfold Parent. f_equal.
    apply (parent_finds _ w' Hc'); [lia | | |].
    + apply (mv_member _ w w' node pa Hc Hn Hm). exact Hpin.
    + apply (mv_member _ w w' node pa Hc Hn Hm). exact Hn.
    + split; [|lia].
      destruct (mv_mixed _ w w' node pa Hc HB Hn Hp Hm _ node Hpin Hpo Hn
                         (withinb_self _ node)) as [[_ C] | [G _]]; [exact C|].
      exfalso. apply G. lia.
  - intros r Hr Hw.
    destruct (mv_inner_coords _ w w' node pa Hc HB Hn Hp Hm r Hr Hw)
      as [[_ [_ [Rl Rr]]] Rv].
    rewrite Rl, Rr, Rv, Nl, Nr, Nv. unfold move_inner. cases_cmp; repeat split; lia.
Qed.

(** C moved from A to B in the scenario: B is its parent afterwards. *)
Lemma Move_places_last_child_witness :
  Parent (Some nC) (snd (Move (Some nC) (Some nB) scenario3)) = Returns (Some nB).
Proof.
  assert (Hc : consistent scenario3)
    by (apply tree_invb_sound; vm_compute; reflexivity).
  assert (HC : In nC (nodes (nset scenario3)))
    by (apply In_check; vm_compute; reflexivity).
  assert (HBm : parent_ok scenario3 (Some nB))
    by (apply In_check; vm_compute; reflexivity).
  pose proof (surjective_pairing (Move (Some nC) (Some nB) scenario3)) as E.
  assert (F : fst (Move (Some nC) (Some nB) scenario3) = Returns None)
    by (vm_compute; reflexivity).
  rewrite F in E.
  exact (proj1 (Move_places_last_child scenario3 _ nC (Some nB) Hc HC HBm E)).
Defined.

(** ** Parents are kept *)

(** A member at level 0 has no parent: no member is at level -1. *)
Lemma parent_of_level_zero (B : Z) (w : World) (x : ref) :
  tree_inv B w -> B <= 2 ^ 62 -> In x (nodes (nset w)) ->
  GetLevel (heap w) x = 0 -> parent (nset w) (heap w) x = None.
Proof.
  intros Hinv HB Hx Hz.
  destruct (parent (nset w) (heap w) x) as [q|] eqn:F; [exfalso | reflexivity].
  destruct (parent_found _ _ Hinv HB q x Hx F) as [Hq [_ Hlev]].
  pose proof (level_range _ _ Hinv q Hq). lia.
Qed.

(** When a step keeps the root and carries the parent of [x] along, the
    scan of [parent] gives the same answer for [x] before and after. *)
Lemma parent_transfer (B B' : Z) (w w' : World) (x : ref) :
  tree_inv B w -> B <= 2 ^ 62 -> tree_inv B' w' -> B' <= 2 ^ 62 ->
  In x (nodes (nset w)) -> In x (nodes (nset w')) ->
  rootNode (nset w') = rootNode (nset w) ->
  (forall q, In q (nodes (nset w)) -> direct_parent (heap w) q x ->
             In q (nodes (nset w')) /\ direct_parent (heap w') q x) ->
  parent (nset w') (heap w') x = parent (nset w) (heap w) x.
Proof.
  intros Hinv HB Hinv' HB' Hx Hx' Hroot Ht.
  destruct (Nat.eq_dec x (rootNode (nset w))) as [E | E].
  - rewrite (parent_of_level_zero _ w x Hinv HB Hx),
            (parent_of_level_zero _ w' x Hinv' HB' Hx'); [reflexivity | |].
    + subst x. rewrite <- Hroot. exact (ti_root_level _ _ Hinv').
    + subst x. exact (ti_root_level _ _ Hinv).
  - destruct (parent_exists _ _ Hinv HB x Hx E) as [q [F [Hq Hd]]].
    rewrite F. destruct (Ht q Hq Hd) as [Hq' Hd'].
    apply (parent_finds _ _ Hinv' HB'); assumption.
Qed.

(** A slice without repetition whose only member is [x] is [[x]]. *)
Lemma NoDup_singleton (l : list ref) (x : ref) :
  NoDup l -> (forall r, In r l <-> r = x) -> l = [x].
Proof.
  intros Hnd H. destruct l as [|a l].
  - exfalso. now apply (proj2 (H x) eq_refl).
  - assert (Ea : a = x) by (apply H; now left). subst a.
    destruct l as [|b l]; [reflexivity | exfalso].
    assert (Eb : b = x) by (apply H; right; now left). subst b.
    inversion Hnd as [|? ? Hn _]; subst. apply Hn. now left.
Qed.

(** X12.  In a consistent collection, [Add(newNode, parent)] of a node that
    is not yet a member makes the requested parent (the root for nil) the
    node's parent, as [Parent] then reports, with the node its last child
    ([newNode.right + 1 = parent.right]) and a leaf ([Branch(newNode)] is
    [newNode] alone); and every earlier member keeps the parent it had. *)
Theorem Add_places_last_child (w : World) (newNode : ref) (pa : option ref) :
  consistent w ->
  ~ In newNode (nodes (nset w)) ->
  parent_ok w pa ->
  let w' := snd (Add (Some newNode) pa w) in
  let p := effective_parent w pa in
  Parent (Some newNode) w' = Returns (Some p) /\
  GetRight (heap w') newNode + 1 = GetRight (heap w') p /\
  fst (Branch (Some newNode) w') = [newNode] /\
  forall x, In x (nodes (nset w)) -> Parent (Some x) w' = Parent (Some x) w.
Proof.
  intros Hc Hn Hp w' p. subst w' p.
  assert (HB : 2 ^ 61 <= 2 ^ 61) by lia.
  pose proof (Add_keeps_invariant _ w newNode pa Hc HB Hn Hp) as Hc'.
  pose proof (add_parent_in _ w pa Hc Hp) as Hpin.
  pose proof (add_nodes _ w newNode pa Hc Hn Hp) as Hnodes.
  pose proof (add_root _ w newNode pa Hc Hn Hp) as Hroot.
  destruct (add_new_coords _ w newNode pa Hc HB Hn Hp) as [Nl [Nr Nv]].
  assert (Hold : forall r, In r (nodes (nset w)) ->
                           In r (nodes (nset (snd (Add (Some newNode) pa w)))))
    by (intros r Hr; rewrite Hnodes; apply in_or_app; now left).
  assert (Hnew : In newNode (nodes (nset (snd (Add (Some newNode) pa w)))))
    by (rewrite Hnodes; apply in_or_app; right; now left).
  destruct (add_old_coords _ w newNode pa Hc HB Hn Hp _ Hpin) as [[_ [_ [Pl Pr]]] Pv].
  pose proof (coord_range _ _ Hc _ Hpin) as Hpc.
  split; [|split; [|split]].
  - unfold Parent. f_equal.
    apply (parent_finds _ _ Hc'); [lia | now apply Hold | exact Hnew |].
    split; [|lia].
    destruct (add_new_rel _ w newNode pa Hc HB Hn Hp _ Hpin) as [[_ C] | [Ne _]];
      [exact C | now contradiction Ne].
  - rewrite Nr, Pr. unfold add_map. rewrite Z.leb_refl. lia.
  - destruct (Branch_member_result _ newNode Hnew) as [_ Hchar].
    destruct (Branch_result_sorted (Some newNode) (snd (Add (Some newNode) pa w)))
      as [_ Hnd].
    apply NoDup_singleton; [exact (Hnd (ti_nodup _ _ Hc'))|].
    intros r. rewrite Hchar. split.
    + intros [Hr [W1 W2]].
      destruct (Nat.eq_dec r newNode) as [E | E]; [exact E | exfalso].
      rewrite Hnodes in Hr. apply in_app_or in Hr.
      destruct Hr as [Hr | [Hr | []]]; [|congruence].
      pose proof (add_no_inner _ w newNode pa Hc HB Hn Hp r Hr) as Hno.
      destruct (endpoints_distinct _ _ Hc' r newNode (Hold r Hr) Hnew E)
        as [E1 [_ [_ E2]]].
      unfold containsb in Hno. apply andb_false_iff in Hno.
      destruct Hno as [Hno | Hno]; apply Z.ltb_ge in Hno; lia.
    + intros ->. split; [exact Hnew | lia].
  - intros x Hx. unfold Parent. f_equal.
    apply (parent_transfer (2 ^ 61) (2 ^ 61 + 2) w _ x Hc); [lia | exact Hc' | lia | exact Hx
                                           | now apply Hold | exact Hroot |].
    intros q Hq [Hqx Hlev].
    destruct (add_old_coords _ w newNode pa Hc HB Hn Hp q Hq) as [Rq Vq].
    destruct (add_old_coords _ w newNode pa Hc HB Hn Hp x Hx) as [Rx Vx].
    split; [now apply Hold|]. split; [|lia].
    apply (relabel_contains _ _ _ _ (add_map_increasing _) q x Rq Rx). exact Hqx.
Qed.

(** C added under A in the scenario: A is its parent afterwards. *)
Lemma Add_places_last_child_witness :
  Parent (Some nC) scenario3 = Returns (Some nA).
Proof.
  assert (Hc : consistent scenario2)
    by (apply tree_invb_sound; vm_compute; reflexivity).
  assert (HC : ~ In nC (nodes (nset scenario2)))
    by (apply notIn_check; vm_compute; reflexivity).
  assert (HA : parent_ok scenario2 (Some nA))
    by (apply In_check; vm_compute; reflexivity).
  exact (proj1 (Add_places_last_child scenario2 nC (Some nA) Hc HC HA)).
Defined.

(** ** The outcomes of Move *)

(** X13.  In a consistent collection the outcome of [Move(node, parent)]
    for a member [node] and a [parent] that is nil or a member is decided in
    this order: the root is refused; a parent lying within the node
    (the node itself included) is refused; the node's present parent is
    refused (moving among siblings is not implemented); every other move
    succeeds.  The error about a broken structure is never returned. *)
Theorem Move_outcome (w : World) (node : ref) (pa : option ref) :
  consistent w ->
  In node (nodes (nset w)) ->
  parent_ok w pa ->
  let h := heap w in
  let p := effective_parent w pa in
  fst (Move (Some node) pa w) =
    (if Nat.eqb node (rootNode (nset w)) then
       Returns (Some "Can't move root node"%string)
     else if withinb h p node then
       Returns (Some "Can't move branch to node within itself"%string)
     else if containsb h p node && (GetLevel h p =? GetLevel h node - 1) then
       Returns (Some "Moving in same branch not implemented"%string)
     else Returns None) /\
  fst (Move (Some node) pa w) <>
    Returns (Some "Parent node not found, the structure broken"%string).
Proof.
  intros Hc Hn Hp h p. subst h p.
  assert (HB : 2 ^ 61 <= 2 ^ 62) by lia.
  assert (Hpin : In (effective_parent w pa) (nodes (nset w)))
    by (destruct pa; [exact Hp | exact (ti_root_in _ _ Hc)]).
  assert (Hgoal :
    fst (Move (Some node) pa w) =
    (if Nat.eqb node (rootNode (nset w)) then
       Returns (Some "Can't move root node"%string)
     else if withinb (heap w) (effective_parent w pa) node then
       Returns (Some "Can't move branch to node within itself"%string)
     else if containsb (heap w) (effective_parent w pa) node
             && (GetLevel (heap w) (effective_parent w pa) =? GetLevel (heap w) node - 1) then
       Returns (Some "Moving in same branch not implemented"%string)
     else Returns None)).
  { unfold Move. cbv zeta. fold (effective_parent w pa).
    fold (withinb (heap w) (effective_parent w pa) node).
    destruct (Nat.eqb_spec node (rootNode (nset w))) as [E | E].
    - rewrite (proj2 (level_zero_root _ _ Hc node Hn) E). reflexivity.
    - destruct (Z.eqb_spec (GetLevel (heap w) node) 0) as [Z0 | Z0];
        [exfalso; apply E; now apply (level_zero_root _ _ Hc node Hn)|].
      destruct (withinb (heap w) (effective_parent w pa) node) eqn:Hw; [reflexivity|].
      destruct (parent_exists _ _ Hc HB node Hn E) as [q [F [Hq [Hqx Hlev]]]].
      rewrite F.
      destruct (Nat.eqb_spec q (effective_parent w pa)) as [Eq | Eq].
      + subst q. rewrite (proj2 (containsb_spec _ _ _) Hqx).
        rewrite (proj2 (Z.eqb_eq _ _) Hlev). reflexivity.
      + destruct (containsb (heap w) (effective_parent w pa) node
                  && (GetLevel (heap w) (effective_parent w pa)
                      =? GetLevel (heap w) node - 1)) eqn:T.
        * exfalso. apply andb_true_iff in T. destruct T as [T1 T2].
          apply containsb_spec in T1. apply Z.eqb_eq in T2.
          apply Eq. symmetry.
          apply (encloser_unique _ _ Hc _ q node Hpin Hq Hn T1 Hqx). lia.
        * destruct (branch (Some node) (heap w) (nset w)) as [toUpdate s].
          destruct (Int64.sub (GetRight (heap w) (effective_parent w pa)) 1
                    <? GetRight (heap w) node); reflexivity. }
  split; [exact Hgoal|].
  rewrite Hgoal.
  destruct (Nat.eqb node (rootNode (nset w))); [discriminate|].
  destruct (withinb (heap w) (effective_parent w pa) node); [discriminate|].
  destruct (containsb (heap w) (effective_parent w pa) node
            && (GetLevel (heap w) (effective_parent w pa) =? GetLevel (heap w) node - 1));
    discriminate.
Qed.

(** In the scenario: the root is refused, A is refused under its child C,
    C is refused under its parent A, and C moves under B. *)
Lemma Move_outcome_witness :
  fst (Move (Some nR) (Some nA) scenario3) = Returns (Some "Can't move root node"%string) /\
  fst (Move (Some nA) (Some nC) scenario3)
    = Returns (Some "Can't move branch to node within itself"%string) /\
  fst (Move (Some nC) (Some nA) scenario3)
    = Returns (Some "Moving in same branch not implemented"%string) /\
  fst (Move (Some nC) (Some nB) scenario3) = Returns None.
Proof.
  assert (Hc : consistent scenario3)
    by (apply tree_invb_sound; vm_compute; reflexivity).
  assert (HR : In nR (nodes (nset scenario3)))
    by (apply In_check; vm_compute; reflexivity).
  assert (HA : In nA (nodes (nset scenario3)))
    by (apply In_check; vm_compute; reflexivity).
  assert (HBm : In nB (nodes (nset scenario3)))
    by (apply In_check; vm_compute; reflexivity).
  assert (HC : In nC (nodes (nset scenario3)))
    by (apply In_check; vm_compute; reflexivity).
  split; [|split; [|split]].
  - rewrite (proj1 (Move_outcome scenario3 nR (Some nA) Hc HR HA)).
    vm_compute. reflexivity.
  - rewrite (proj1 (Move_outcome scenario3 nA (Some nC) Hc HA HC)).
    vm_compute. reflexivity.
  - rewrite (proj1 (Move_outcome scenario3 nC (Some nA) Hc HC HA)).
    vm_compute. reflexivity.
  - rewrite (proj1 (Move_outcome scenario3 nC (Some nB) Hc HC HBm)).
    vm_compute. reflexivity.
Defined.

(** ** What Delete removes *)

Lemma filter_perm (f : ref -> bool) (l l' : list ref) :
  Permutation l l' -> Permutation (filter f l) (filter f l').
Proof.
  intros Hp. induction Hp as [|a l l' Hp IH|a b l|l l1 l2 H1 IH1 H2 IH2]; simpl.
  - constructor.
  - destruct (f a); [now constructor | exact IH].
  - destruct (f a), (f b); try reflexivity. constructor.
  - now transitivity (filter f l1).
Qed.

Lemma filter_split_perm (f : ref -> bool) (l : list ref) :
  Permutation l (filter (fun r => negb (f r)) l ++ filter f l).
Proof.
  induction l as [|a l IH]; simpl; [constructor|].
  destruct (f a); simpl.
  - now apply Permutation_cons_app.
  - now constructor.
Qed.

(** X14.  In a consistent collection [Delete(node)] of a member other than
    the root removes from the slice exactly the nodes [Branch(node)]
    returns; it writes none of them, so they keep their coordinates; and
    every member that remains keeps the parent it had. *)
Theorem Delete_removes_branch (w : World) (node : ref) :
  consistent w ->
  In node (nodes (nset w)) ->
  node <> rootNode (nset w) ->
  let w' := snd (Delete (Some node) w) in
  Permutation (nodes (nset w)) (nodes (nset w') ++ fst (Branch (Some node) w)) /\
  (forall r, In r (fst (Branch (Some node) w)) ->
             ~ In r (nodes (nset w')) /\ heap w' r = heap w r) /\
  (forall x, In x (nodes (nset w')) -> Parent (Some x) w' = Parent (Some x) w).
Proof.
  intros Hc Hn Hroot w'. subst w'.
  assert (HB : 2 ^ 61 <= 2 ^ 61) by lia.
  pose proof (Delete_keeps_invariant _ w node Hc HB Hn Hroot) as Hc'.
  destruct (del_nodes _ w node Hc Hn Hroot) as [Hnodes Hr'].
  destruct (Delete_result w node (ti_nodup _ _ Hc) Hn Hroot) as [h1 [Hres [_ Hkeep]]].
  destruct (Branch_member_result w node Hn) as [_ Hchar].
  assert (Hwithin : forall r, In r (fst (Branch (Some node) w)) ->
                              In r (nodes (nset w)) /\ withinb (heap w) r node = true).
  { intros r Hr. apply Hchar in Hr. destruct Hr as [Hr [W1 W2]].
    split; [exact Hr|]. unfold withinb. apply andb_true_iff.
    rewrite Z.geb_leb, !Z.leb_le. lia. }
  split; [|split].
  - rewrite Hnodes, (proj2 (Branch_unfold (Some node) w)).
    rewrite (proj2 (existsb_eqb_true _ _) Hn). unfold subtree.
    etransitivity; [apply (filter_split_perm (fun r => withinb (heap w) r node))|].
    apply Permutation_app_head. apply filter_perm. symmetry. apply sort_perm.
  - intros r Hr. destruct (Hwithin r Hr) as [Hrin Hw]. split.
    + intros Hr'in. apply (del_survivor _ w node Hc Hn Hroot) in Hr'in.
      destruct Hr'in as [_ Hf]. congruence.
    + rewrite Hres. cbn [snd heap]. apply Hkeep. now right.
  - intros x Hx'. unfold Parent. f_equal.
    pose proof (proj1 (del_survivor _ w node Hc Hn Hroot x) Hx') as [Hx Hxo].
    apply (parent_transfer (2 ^ 61) (2 ^ 61) w _ x Hc);
      [lia | exact Hc' | lia | exact Hx | exact Hx' | exact Hr' |].
    intros q Hq [Hqx Hlev].
    assert (Hq' : In q (nodes (nset (snd (Delete (Some node) w))))).
    { apply (del_survivor _ w node Hc Hn Hroot). split; [exact Hq|].
      pose proof (del_enclosing_survive _ w node Hc Hn Hroot x q Hx' Hq
                    (proj2 (containsb_spec _ _ _) Hqx)) as Hs.
      now apply negb_true_iff in Hs. }
    destruct (del_coords _ w node Hc HB Hn Hroot q Hq') as [Rq Vq].
    destruct (del_coords _ w node Hc HB Hn Hroot x Hx') as [Rx Vx].
    split; [exact Hq'|]. split; [|lia].
    apply (relabel_contains _ _ _ _ (del_increasing _ w node Hc Hn Hroot) q x Rq Rx).
    exact Hqx.
Qed.

(** Deleting A from the scenario removes A and its child C, which
    [Branch] of A returns. *)
Lemma Delete_removes_branch_witness :
  Permutation (nodes (nset scenario3))
              (nodes (nset (snd (Delete (Some nA) scenario3)))
               ++ fst (Branch (Some nA) scenario3)).
Proof.
  assert (Hc : consistent scenario3)
    by (apply tree_invb_sound; vm_compute; reflexivity).
  assert (HA : In nA (nodes (nset scenario3)))
    by (apply In_check; vm_compute; reflexivity).
  assert (HR : nA <> rootNode (nset scenario3))
    by (apply neq_check; vm_compute; reflexivity).
  exact (proj1 (Delete_removes_branch scenario3 nA Hc HA HR)).
Defined.

(** ** What Move keeps *)

(** X15.  In a consistent collection a successful [Move(node, parent)] of
    a member under a member or under nil changes the parent of no other
    member: every member but [node] has, as [Parent] reports, the parent it
    had; and membership, the root and the counter are as before. *)
Theorem Move_keeps_other_parents (w w' : World) (node : ref) (pa : option ref) :
  consistent w ->
  In node (nodes (nset w)) ->
  parent_ok w pa ->
  Move (Some node) pa w = (Returns None, w') ->
  (forall x, In x (nodes (nset w)) -> x <> node ->
             Parent (Some x) w' = Parent (Some x) w) /\
  Permutation (nodes (nset w')) (nodes (nset w)) /\
  rootNode (nset w') = rootNode (nset w) /\
  maxId (nset w') = maxId (nset w).
Proof.
  intros Hc Hn Hp Hm.
  assert (HB : 2 ^ 61 <= 2 ^ 61) by lia.
  pose proof (Move_keeps_invariant _ w w' node pa Hc HB Hn Hp Hm) as Hc'.
  destruct (Move_result w w' node pa (ti_nodup _ _ Hc) Hn Hm) as [_ [Hs _]].
  assert (Hmem : forall r, In r (nodes (nset w)) -> In r (nodes (nset w')))
    by (intros r Hr; now apply (mv_member _ w w' node pa Hc Hn Hm)).
  split; [|rewrite Hs; cbn [nodes rootNode maxId];
           split; [apply sort_perm | split; reflexivity]].
  intros x Hx Hxn. unfold Parent. f_equal.
  apply (parent_transfer (2 ^ 61) (2 ^ 61) w w' x Hc);
    [lia | exact Hc' | lia | exact Hx | now apply Hmem
     | rewrite Hs; reflexivity |].
  intros q Hq [Hqx Hlev]. split; [now apply Hmem|].
  pose proof (proj2 (containsb_spec _ _ _) Hqx) as Hqxb.
  destruct (withinb (heap w) x node) eqn:Wx.
  - (* [x] lies within the node: so does its parent *)
    assert (Wq : withinb (heap w) q node = true).
    { destruct (Nat.eq_dec q node) as [-> | Hqn]; [apply withinb_self|].
      apply (mv_within_spec w node x) in Wx.
      destruct (endpoints_distinct _ _ Hc x node Hx Hn Hxn) as [E1 [_ [_ E2]]].
      assert (Hnx : contains (heap w) node x) by (unfold contains; lia).
      pose proof (level_lt _ _ Hc node x Hn Hx Hnx) as Lnx.
      apply (mv_within_spec w node q).
      destruct Hqx as [Q1 Q2]. destruct Hnx as [N1 N2].
      destruct (ti_laminar _ _ Hc q node Hq Hn Hqn) as [[D | D] | [C | C]].
      - pose proof (coord_range _ _ Hc x Hx). lia.
      - pose proof (coord_range _ _ Hc x Hx). lia.
      - pose proof (level_lt _ _ Hc q node Hq Hn C). lia.
      - destruct C. lia. }
    destruct (mv_inner_coords _ w w' node pa Hc HB Hn Hp Hm q Hq Wq) as [_ Vq].
    destruct (mv_inner_coords _ w w' node pa Hc HB Hn Hp Hm x Hx Wx) as [_ Vx].
    split; [|lia]. apply containsb_spec.
    rewrite (mv_inner_relabel_containsb _ w w' node pa Hc HB Hn Hp Hm q x Hq Wq Hx Wx).
    exact Hqxb.
  - (* [x] lies outside the node: so does its parent *)
    assert (Wq : withinb (heap w) q node = false).
    { destruct (withinb (heap w) q node) eqn:Wq; [exfalso | reflexivity].
      destruct (mv_inner_not_around _ w w' node pa Hc HB Hn Hp Hm q x Hq Wq Hx Wx)
        as [F _].
      congruence. }
    destruct (mv_outer_coords _ w w' node pa Hc HB Hn Hp Hm q Hq Wq) as [_ Vq].
    destruct (mv_outer_coords _ w w' node pa Hc HB Hn Hp Hm x Hx Wx) as [_ Vx].
    split; [|lia]. apply containsb_spec.
    rewrite (mv_outer_relabel_containsb _ w w' node pa Hc HB Hn Hp Hm q x Hq Wq Hx Wx).
    exact Hqxb.
Qed.

(** C moved under B in the scenario: A still has the root as its parent. *)
Lemma Move_keeps_other_parents_witness :
  Parent (Some nA) (snd (Move (Some nC) (Some nB) scenario3))
  = Parent (Some nA) scenario3.
Proof.
  assert (Hc : consistent scenario3)
    by (apply tree_invb_sound; vm_compute; reflexivity).
  assert (HA : In nA (nodes (nset scenario3)))
    by (apply In_check; vm_compute; reflexivity).
  assert (HC : In nC (nodes (nset scenario3)))
    by (apply In_check; vm_compute; reflexivity).
  assert (HBm : parent_ok scenario3 (Some nB))
    by (apply In_check; vm_compute; reflexivity).
  assert (Hne : nA <> nC) by (apply neq_check; vm_compute; reflexivity).
  pose proof (surjective_pairing (Move (Some nC) (Some nB) scenario3)) as E.
  assert (F : fst (Move (Some nC) (Some nB) scenario3) = Returns None)
    by (vm_compute; reflexivity).
  rewrite F in E.
  exact (proj1 (Move_keeps_other_parents scenario3 _ nC (Some nB) Hc HC HBm E) nA HA Hne).
Defined.

(** ** The numbering has no gaps *)

Lemma zrange_In (a : Z) (k : nat) (z : Z) :
  In z (zrange a k) <-> a <= z < a + Z.of_nat k.
Proof.
  unfold zrange. rewrite in_map_iff. split.
  - intros [i [<- Hi]]. apply in_seq in Hi. lia.
  - intros H. exists (Z.to_nat (z - a)). split; [lia | apply in_seq; lia].
Qed.

Lemma zrange_length (a : Z) (k : nat) : length (zrange a k) = k.
Proof. unfold zrange. now rewrite length_map, length_seq. Qed.

Lemma zrange_NoDup (a : Z) (k : nat) : NoDup (zrange a k).
Proof.
  unfold zrange. generalize 0%nat as s.
  induction k as [|k IH]; intros s; [constructor|].
  cbn [seq map]. constructor; [|apply IH].
  rewrite in_map_iff. intros [i [E Hi]]. apply in_seq in Hi. lia.
Qed.

(** Distinct values out of [k] consecutive ones are at most [k]. *)
Lemma range_count (zs : list Z) (a : Z) (k : nat) :
  NoDup zs -> (forall z, In z zs -> a <= z < a + Z.of_nat k) ->
  (length zs <= k)%nat.
Proof.
  intros Hnd H. rewrite <- (zrange_length a k).
  apply NoDup_incl_length; [exact Hnd|].
  intros z Hz. apply zrange_In. now apply H.
Qed.

(** [k] distinct values out of [k] consecutive ones are all of them. *)
Lemma range_cover (zs : list Z) (a : Z) (k : nat) :
  NoDup zs -> (forall z, In z zs -> a <= z < a + Z.of_nat k) ->
  (k <= length zs)%nat ->
  forall z, a <= z < a + Z.of_nat k -> In z zs.
Proof.
  intros Hnd H Hlen z Hz.
  apply (NoDup_length_incl (l := zs) (l' := zrange a k) Hnd).
  - now rewrite zrange_length.
  - intros y Hy. apply zrange_In. now apply H.
  - now apply zrange_In.
Qed.

Lemma endpoints_In (h : Heap) (l : list ref) (z : Z) :
  In z (endpoints h l) <->
  exists r, In r l /\ (GetLeft h r = z \/ GetRight h r = z).
Proof.
  unfold endpoints. rewrite in_flat_map. split.
  - intros [r [Hr Hz]]. exists r. split; [exact Hr|].
    destruct Hz as [E | [E | []]]; auto.
  - intros [r [Hr Hz]]. exists r. split; [exact Hr|].
    destruct Hz as [E | E]; [now left | right; now left].
Qed.

Lemma endpoints_length (h : Heap) (l : list ref) :
  length (endpoints h l) = (2 * length l)%nat.
Proof.
  unfold endpoints. induction l as [|a l IH]; [reflexivity|].
  cbn [flat_map ends app length]. rewrite IH. lia.
Qed.

(** The endpoints of distinct members are distinct values. *)
Lemma endpoints_NoDup (B : Z) (w : World) (l0 : list ref) :
  tree_inv B w -> NoDup l0 -> incl l0 (nodes (nset w)) ->
  NoDup (endpoints (heap w) l0).
Proof.
  intros Hinv Hnd Hincl. induction l0 as [|a l0 IH]; [constructor|].
  inversion Hnd as [|? ? Ha Hl0]; subst.
  assert (Hain : In a (nodes (nset w))) by (apply Hincl; now left).
  assert (Hrest : incl l0 (nodes (nset w)))
    by (intros r Hr; apply Hincl; now right).
  pose proof (ti_lt _ _ Hinv a Hain) as Hlt.
  assert (Hfresh : forall z, In z (endpoints (heap w) l0) ->
                             z <> GetLeft (heap w) a /\ z <> GetRight (heap w) a).
  { intros z Hz. apply endpoints_In in Hz. destruct Hz as [r [Hr Hz]].
    assert (Hne : r <> a) by (intros ->; contradiction).
    destruct (endpoints_distinct _ _ Hinv r a (Hrest r Hr) Hain Hne)
      as [E1 [E2 [E3 E4]]].
    destruct Hz as [<- | <-]; split; assumption. }
  change (NoDup (GetLeft (heap w) a :: GetRight (heap w) a :: endpoints (heap w) l0)).
  constructor; [|constructor; [|exact (IH Hl0 Hrest)]].
  - intros [E | Hin]; [lia|]. apply Hfresh in Hin. now destruct Hin.
  - intros Hin. apply Hfresh in Hin. now destruct Hin.
Qed.

(** A member's interval has room for two values for each member within
    it. *)
Lemma subtree_width (B : Z) (w : World) (r : ref) :
  tree_inv B w -> In r (nodes (nset w)) ->
  2 * Z.of_nat (length (subtree (heap w) (nodes (nset w)) r))
  <= GetRight (heap w) r - GetLeft (heap w) r + 1.
Proof.
  intros Hinv Hr.
  pose proof (ti_lt _ _ Hinv r Hr) as Hlt.
  assert (Hsub : forall c, In c (subtree (heap w) (nodes (nset w)) r) ->
                           In c (nodes (nset w)) /\ withinb (heap w) c r = true)
    by (intros c Hc; unfold subtree in Hc; now apply filter_In in Hc).
  pose proof (range_count (endpoints (heap w) (subtree (heap w) (nodes (nset w)) r))
                (GetLeft (heap w) r)
                (Z.to_nat (GetRight (heap w) r - GetLeft (heap w) r + 1))) as Hcount.
  rewrite endpoints_length in Hcount.
  assert (Hle : (2 * length (subtree (heap w) (nodes (nset w)) r)
                 <= Z.to_nat (GetRight (heap w) r - GetLeft (heap w) r + 1))%nat).
  { apply Hcount.
    - apply (endpoints_NoDup B); [exact Hinv | |].
      + apply NoDup_filter. exact (ti_nodup _ _ Hinv).
      + intros c Hc. now apply Hsub.
    - intros z Hz. apply endpoints_In in Hz. destruct Hz as [c [Hc Hz]].
      destruct (Hsub c Hc) as [Hcin Hw].
      apply (mv_within_spec w r c) in Hw.
      pose proof (ti_lt _ _ Hinv c Hcin). lia. }
  lia.
Qed.

Lemma filter_negb_length (f : ref -> bool) (l : list ref) :
  (length (filter (fun r => negb (f r)) l) + length (filter f l) = length l)%nat.
Proof.
  induction l as [|a l IH]; [reflexivity|]. simpl.
  destruct (f a); simpl; lia.
Qed.

(** [Delete] keeps the numbering dense: the values it frees are as many as
    the endpoints of the nodes it removes. *)
Lemma Delete_keeps_dense (w : World) (node : ref) :
  dense w -> 2 * Z.of_nat (length (nodes (nset w))) <= 2 ^ 61 ->
  In node (nodes (nset w)) -> node <> rootNode (nset w) ->
  dense (snd (Delete (Some node) w)).
Proof.
  unfold dense. intros Hc HB Hn Hroot.
  pose proof (Delete_keeps_invariant _ w node Hc HB Hn Hroot) as Hc'.
  destruct (del_nodes _ w node Hc Hn Hroot) as [Hnodes Hr'].
  pose proof (subtree_width _ w node Hc Hn) as Hwd. unfold subtree in Hwd.
  pose proof (filter_negb_length (fun r => withinb (heap w) r node) (nodes (nset w)))
    as Hlen.
  pose proof (ti_root_in _ _ Hc') as Hrin'. rewrite Hr' in Hrin'.
  destruct (del_coords _ w node Hc HB Hn Hroot _ Hrin') as [[_ [_ [_ Rr]]] _].
  destruct (ti_root_top _ _ Hc node Hn Hroot) as [T1 T2].
  pose proof (ti_bound _ _ Hc _ (ti_root_in _ _ Hc)) as Hrb.
  pose proof (ti_lt _ _ Hc node Hn) as Hnlt.
  unfold delete_map in Rr.
  destruct (Z.ltb_spec (GetRight (heap w) node) (GetRight (heap w) (rootNode (nset w))))
    as [_ | Hge]; [|lia].
  assert (Htop : GetRight (heap (snd (Delete (Some node) w))) (rootNode (nset w))
                 < 2 * Z.of_nat (length (nodes (nset (snd (Delete (Some node) w)))))).
  { rewrite Hnodes, Rr. lia. }
  destruct Hc' as [H1 H2 H3 H4 H5 H6 H7 H8 H9].
  constructor; try assumption.
  - intros r Hr. split; [exact (proj1 (H8 r Hr))|].
    destruct (Nat.eq_dec r (rootNode (nset w))) as [-> | E]; [exact Htop|].
    rewrite Hr' in H4. destruct (H4 r Hr E) as [_ C]. lia.
  - lia.
Qed.

(** One admissible, successful operation keeps the numbering dense and adds
    at most one member. *)
Lemma dense_step (o : op) (w w' : World) :
  dense w -> 2 * Z.of_nat (length (nodes (nset w))) <= 2 ^ 61 ->
  admissible o w = true ->
  apply_op o w = (Returns None, w') ->
  dense w' /\ (length (nodes (nset w')) <= length (nodes (nset w)) + 1)%nat.
Proof.
  unfold dense. intros Hc HB Hadm Hrun.
  destruct o as [newNode pa | node | node pa];
    cbn [apply_op admissible member] in Hadm, Hrun.
  - destruct newNode as [n|].
    + cbn [member] in Hadm. unfold exists_ in Hadm.
      apply negb_true_iff in Hadm. apply existsb_eqb_false in Hadm.
      assert (Hp : parent_ok w pa).
      { destruct pa as [q|]; simpl; [|exact I]. apply existsb_eqb_true.
        unfold Add in Hrun. fold (exists_ (nset w) q).
        destruct (exists_ (nset w) q); [reflexivity | discriminate]. }
      pose proof (Add_keeps_invariant _ w n pa Hc HB Hadm Hp) as Hc'.
      pose proof (add_nodes _ w n pa Hc Hadm Hp) as Hnodes.
      rewrite Hrun in Hc', Hnodes. cbn [snd] in Hc', Hnodes.
      rewrite Hnodes, length_app. cbn [length]. split; [|lia].
      replace (2 * Z.of_nat (length (nodes (nset w)) + 1))
        with (2 * Z.of_nat (length (nodes (nset w))) + 2) by lia.
      exact Hc'.
    + unfold Add in Hrun.
      destruct pa as [q|]; [destruct (negb (exists_ (nset w) q))|]; discriminate.
  - destruct node as [n|]; [|discriminate].
    cbn [member] in Hadm. unfold exists_ in Hadm.
    apply existsb_eqb_true in Hadm.
    assert (Hroot : n <> rootNode (nset w)).
    { intros E. unfold Delete in Hrun. apply Nat.eqb_eq in E. rewrite E in Hrun.
      discriminate. }
    pose proof (Delete_keeps_dense w n Hc HB Hadm Hroot) as Hd.
    destruct (del_nodes _ w n Hc Hadm Hroot) as [Hnodes _].
    rewrite Hrun in Hd, Hnodes. cbn [snd] in Hd, Hnodes.
    split; [exact Hd|].
    rewrite Hnodes.
    pose proof (filter_negb_length (fun r => withinb (heap w) r n) (nodes (nset w))).
    lia.
  - destruct node as [n|]; [|discriminate].
    apply andb_prop in Hadm. destruct Hadm as [Hn Hq].
    cbn [member] in Hn. unfold exists_ in Hn.
    apply existsb_eqb_true in Hn.
    assert (Hp : parent_ok w pa).
    { destruct pa as [q|]; simpl; [|exact I]. cbn [member] in Hq.
      unfold exists_ in Hq. now apply existsb_eqb_true. }
    pose proof (Move_keeps_invariant _ w w' n pa Hc HB Hn Hp Hrun) as Hc'.
    destruct (Move_result w w' n pa (ti_nodup _ _ Hc) Hn Hrun) as [_ [Hs _]].
    assert (Hlen : length (nodes (nset w')) = length (nodes (nset w)))
      by (rewrite Hs; cbn [nodes]; apply Permutation_length, sort_perm).
    rewrite Hlen. split; [exact Hc' | lia].
Qed.

Lemma run_dense (ops : list op) :
  forall (w w' : World),
    dense w ->
    Z.of_nat (length (nodes (nset w))) + Z.of_nat (length ops) <= 2 ^ 60 ->
    run ops w = Some w' ->
    dense w'.
Proof.
  induction ops as [|o ops IH]; intros w w' Hd HB Hrun; simpl in Hrun.
  - now injection Hrun as <-.
  - destruct (admissible o w) eqn:Hadm; [|discriminate].
    destruct (apply_op o w) as [[[e|]|] w1] eqn:Hop; try discriminate.
    cbn [length] in HB.
    destruct (dense_step o w w1 Hd) as [Hd1 Hlen1]; [lia | exact Hadm | exact Hop |].
    apply (IH w1 w' Hd1); [lia | exact Hrun].
Qed.

(** In a dense numbering every value below twice the number of members is
    an endpoint. *)
Lemma dense_cover (w : World) (z : Z) :
  dense w -> 0 <= z < 2 * Z.of_nat (length (nodes (nset w))) ->
  exists r, In r (nodes (nset w)) /\
            (GetLeft (heap w) r = z \/ GetRight (heap w) r = z).
Proof.
  intros Hd Hz. apply endpoints_In.
  apply (range_cover _ 0 (2 * length (nodes (nset w)))).
  - apply (endpoints_NoDup _ w _ Hd); [exact (ti_nodup _ _ Hd) | apply incl_refl].
  - intros y Hy. apply endpoints_In in Hy. destruct Hy as [r [Hr Hy]].
    pose proof (ti_bound _ _ Hd r Hr). pose proof (ti_lt _ _ Hd r Hr). lia.
  - rewrite endpoints_length. lia.
  - lia.
Qed.

(** A dense numbering has no gaps. *)
Lemma dense_gap_free (w : World) : dense w -> gap_free w.
Proof.
  intros Hd. pose proof (ti_root_in _ _ Hd) as Hrin.
  split.
  - assert (Hpos : 0 <= 0 < 2 * Z.of_nat (length (nodes (nset w)))).
    { destruct (nodes (nset w)); [contradiction | cbn [length]; lia]. }
    destruct (dense_cover w 0 Hd Hpos) as [r [Hr Hz]].
    pose proof (ti_bound _ _ Hd r Hr) as Hb. pose proof (ti_lt _ _ Hd r Hr) as Hlt.
    pose proof (ti_bound _ _ Hd _ Hrin) as Hrb.
    destruct (Nat.eq_dec r (rootNode (nset w))) as [-> | E]; [lia|].
    destruct (ti_root_top _ _ Hd r Hr E) as [C _]. lia.
  - intros r Hr.
    pose proof (subtree_width _ w r Hd Hr) as Hge.
    pose proof (ti_lt _ _ Hd r Hr) as Hlt.
    pose proof (ti_bound _ _ Hd r Hr) as Hb.
    assert (Hle : (length (zrange (GetLeft (heap w) r)
                                  (Z.to_nat (GetRight (heap w) r - GetLeft (heap w) r + 1)))
                   <= length (endpoints (heap w) (subtree (heap w) (nodes (nset w)) r)))%nat).
    { apply NoDup_incl_length.
      - apply zrange_NoDup.
      - intros z Hz. apply zrange_In in Hz.
        assert (Hz' : 0 <= z < 2 * Z.of_nat (length (nodes (nset w)))) by lia.
        destruct (dense_cover w z Hd Hz') as [c [Hc Hcz]].
        apply endpoints_In. exists c. split; [|exact Hcz].
        apply filter_In. split; [exact Hc|].
        apply (mv_within_spec w r c).
        destruct (Nat.eq_dec c r) as [-> | E]; [lia|].
        pose proof (ti_lt _ _ Hd c Hc) as Hclt.
        destruct (ti_laminar _ _ Hd c r Hc Hr E) as [[D | D] | [[C1 C2] | [C1 C2]]];
          lia. }
    rewrite zrange_length, endpoints_length in Hle. lia.
Qed.

(** X16.  Start from a freshly constructed set whose root was zero-valued
    and run any sequence of fewer than [2^59] successful operations ([Add]
    of a node that is not yet a member, [Delete] and [Move] of members,
    [Move] under a member or nil).  Then the numbering has no gaps: with
    [n] members, the values [0, ..., 2n - 1] are exactly the endpoints in
    use; the root spans all of them, from 0 to [2n - 1]; and the width of
    every member's interval, [right - left + 1], is twice the number of
    nodes [Branch] returns for it. *)
Theorem numbering_is_dense (ops : list op) (root : ref) (h0 : Heap) (w : World) :
  GetLeft h0 root = 0 ->
  GetLevel h0 root = 0 ->
  Z.of_nat (length ops) < 2 ^ 59 ->
  run ops (NewNestedSet root h0) = Some w ->
  let h := heap w in
  let l := nodes (nset w) in
  let n := Z.of_nat (length l) in
  (forall z, 0 <= z < 2 * n <->
             exists r, In r l /\ (GetLeft h r = z \/ GetRight h r = z)) /\
  GetLeft h (rootNode (nset w)) = 0 /\
  GetRight h (rootNode (nset w)) = 2 * n - 1 /\
  (forall r, In r l ->
     GetRight h r - GetLeft h r + 1
     = 2 * Z.of_nat (length (fst (Branch (Some r) w)))).
Proof.
  intros Hl Hv Hlen Hrun h l n. subst h l n.
  assert (Hd : dense w).
  { apply (run_dense ops (NewNestedSet root h0) w); [| |exact Hrun].
    - unfold dense. cbn [NewNestedSet nset nodes length].
      change (2 * Z.of_nat 1) with 2. now apply NewNestedSet_invariant.
    - cbn [NewNestedSet nset nodes length]. lia. }
  destruct (dense_gap_free w Hd) as [Hzero Hwidth].
  pose proof (ti_root_in _ _ Hd) as Hrin.
  split; [|split; [exact Hzero | split]].
  - intros z. split; [now apply dense_cover|].
    intros [r [Hr Hz]].
    pose proof (ti_bound _ _ Hd r Hr). pose proof (ti_lt _ _ Hd r Hr). lia.
  - pose proof (Hwidth _ Hrin) as Hw. unfold subtree in Hw.
    rewrite filter_all in Hw; [lia|].
    intros r Hr. destruct (Nat.eq_dec r (rootNode (nset w))) as [-> | E];
      [apply withinb_self|].
    apply (mv_within_spec w (rootNode (nset w)) r).
    destruct (ti_root_top _ _ Hd r Hr E). lia.
  - intros r Hr. rewrite (Hwidth r Hr). do 2 f_equal.
    rewrite (proj2 (Branch_unfold (Some r) w)).
    rewrite (proj2 (existsb_eqb_true _ _) Hr). unfold subtree.
    apply Permutation_length, filter_perm. symmetry. apply sort_perm.
Qed.

(** The scenario's three inserts, then C moved under B and A deleted: three
    members are left, and the root spans 0 to 5. *)
Lemma numbering_is_dense_witness :
  match run demo_ops (NewNestedSet nR fresh_heap) with
  | Some w =>
    GetRight (heap w) (rootNode (nset w))
    = 2 * Z.of_nat (length (nodes (nset w))) - 1
  | None => False
  end.
Proof.
  assert (Hlen : Z.of_nat (length demo_ops) < 2 ^ 59) by (vm_compute; reflexivity).
  pose proof (numbering_is_dense demo_ops nR fresh_heap) as H.
  destruct (run demo_ops (NewNestedSet nR fresh_heap)) as [w|] eqn:E.
  - exact (proj1 (proj2 (proj2 (H w eq_refl eq_refl Hlen eq_refl)))).
  - vm_compute in E. discriminate.
Defined.

(** ** The counter *)

Lemma wrap_in_range (z : Z) : Int64.in_range (Int64.wrap z).
Proof.
  unfold Int64.in_range, Int64.wrap, Int64.min_int, Int64.max_int.
  pose proof (Z.mod_pos_bound (z + 2 ^ 63) (2 ^ 64)). lia.
Qed.

Lemma wrap_wrap_add (a b : Z) : Int64.wrap (Int64.wrap a + b) = Int64.wrap (a + b).
Proof.
  unfold Int64.wrap. f_equal.
  replace ((a + 2 ^ 63) mod 2 ^ 64 - 2 ^ 63 + b + 2 ^ 63)
    with ((a + 2 ^ 63) mod 2 ^ 64 + b) by lia.
  rewrite Zplus_mod_idemp_l. f_equal. lia.
Qed.

(** A successful [Add] increments the counter; a successful [Delete] or
    [Move] leaves it. *)
Lemma apply_op_maxId (o : op) (w w' : World) :
  apply_op o w = (Returns None, w') ->
  maxId (nset w') = if is_add o then Int64.add (maxId (nset w)) 1 else maxId (nset w).
Proof.
  destruct o as [newNode pa | node | node pa]; cbn [apply_op is_add].
  - unfold Add.
    destruct (match pa with
              | Some p => if negb (exists_ (nset w) p) then None else Some p
              | None => Some (rootNode (nset w))
              end) as [p|]; [|discriminate].
    destruct newNode as [n|]; [|discriminate].
    intros E. injection E as <-. reflexivity.
  - unfold Delete. destruct node as [n|]; [|discriminate].
    destruct (Nat.eqb n (rootNode (nset w))); [discriminate|].
    destruct (negb (exists_ (nset w) n)); [discriminate|].
    destruct (delete_loop n (nodes (nset w)) (heap w) []) as [h1 l1].
    intros E. injection E as <-. reflexivity.
  - unfold Move. destruct node as [n|]; [|discriminate].
    destruct (GetLevel (heap w) n =? 0); [discriminate|].
    match goal with
    | |- context [if ?t then (Returns (Some "Can't move branch to node within itself"%string), _) else _] =>
      destruct t; [discriminate|]
    end.
    destruct (parent (nset w) (heap w) n) as [cp|]; [|discriminate].
    match goal with
    | |- context [if ?t then (Returns (Some "Moving in same branch not implemented"%string), _) else _] =>
      destruct t; [discriminate|]
    end.
    unfold branch.
    destruct (negb (exists_ _ n));
      match goal with
      | |- context [if ?t then _ else _] => destruct t
      end; intros E; injection E as <-; reflexivity.
Qed.

(** X17.  The set's [maxId] field counts the successful [Add]s: after a
    run of successful operations it is its starting value plus the number
    of [Add]s among them, in [int64] arithmetic; [Delete] and [Move] never
    change it. *)
Theorem maxId_counts_adds (ops : list op) (w w' : World) :
  Int64.in_range (maxId (nset w)) ->
  run ops w = Some w' ->
  maxId (nset w')
  = Int64.wrap (maxId (nset w) + Z.of_nat (length (filter is_add ops))).
Proof.
  revert w. induction ops as [|o ops IH]; intros w Hr Hrun; simpl in Hrun.
  - injection Hrun as <-. cbn [filter length Z.of_nat].
    rewrite Z.add_0_r. symmetry. apply wrap_small.
    unfold Int64.in_range, Int64.min_int, Int64.max_int in Hr. lia.
  - destruct (admissible o w); [|discriminate].
    destruct (apply_op o w) as [[[e|]|] w1] eqn:Hop; try discriminate.
    pose proof (apply_op_maxId o w w1 Hop) as Hstep.
    cbn [filter]. destruct (is_add o).
    + rewrite (IH w1); [|rewrite Hstep; apply wrap_in_range | exact Hrun].
      rewrite Hstep. unfold Int64.add. rewrite wrap_wrap_add. f_equal.
      cbn [length]. lia.
    + rewrite (IH w1); [|rewrite Hstep; exact Hr | exact Hrun].
      rewrite Hstep. reflexivity.
Qed.

(** The scenario's three inserts, one move and one delete leave the
    counter at 3, with two nodes besides the root in the set. *)
Lemma maxId_counts_adds_witness :
  option_map (fun w => maxId (nset w)) (run demo_ops (NewNestedSet nR fresh_heap))
  = Some 3.
Proof.
  assert (Hr : Int64.in_range (maxId (nset (NewNestedSet nR fresh_heap))))
    by (vm_compute; split; discriminate).
  pose proof (maxId_counts_adds demo_ops (NewNestedSet nR fresh_heap)) as H.
  destruct (run demo_ops (NewNestedSet nR fresh_heap)) as [w|] eqn:E.
  - cbn [option_map]. f_equal. rewrite (H w Hr eq_refl). vm_compute. reflexivity.
  - vm_compute in E. discriminate.
Defined.
